(** * flagconf: environment and config-file sources for Go's [flag] package

    A shallow embedding of [go.senan.xyz/flagconf] (package [flagconf],
    file [flagconf.go]) together with the parts of the Go standard library
    it calls ([strings], [os.Expand], [path/filepath.Base], [errors.Join],
    [flag.FlagSet]).  The embedding follows the current revision of
    [flagconf.go], the one that expands values ([ParseConfigSet] takes the
    environment); the module [earlier] holds what the revision before it
    did differently.

    Layout: the embedding, the test program and its data, the vocabulary
    of the statements, then the lemmas, the properties C1 to C10 and the
    further properties X1 to X21.

    Conventions.
    - A Go [string] is a sequence of bytes: Rocq's [string] (a list of
      8-bit [ascii]).  The two library functions that look at Unicode code
      points, [strings.ToUpper] and [strings.TrimSpace], are embedded by
      their paths for strings of ASCII bytes, and bytes from 0x80 on are
      left alone; a statement that reads their result byte by byte is made
      for strings of ASCII bytes ([isASCII]), unless it holds on either
      path.
    - A Go [map[string]T] is a [gmap string T]; indexing an absent key
      gives the zero value, written [m !!! k] below.
    - A Go [error] is [option error]: [None] is [nil].
    - Code that mutates flag values is embedded by explicit state passing;
      every invocation of [flag.Value.Set] is appended to a call log.
    - A file is what [os.Open] and a [bufio.Scanner] show of it: the lines
      scanned and the error the scan ended with. *)

From Stdlib Require Import Ascii ZArith.
From stdpp Require Import base gmap strings list sorting.

#[local] Set Warnings "-clear-no-such-hyp".

Local Open Scope Z_scope.
Local Open Scope stdpp_scope.

(* ===================================================================== *)
(** * Package [strings] *)
(* ===================================================================== *)

Module strings.

(** [s[n:]] *)
Fixpoint drop (n : nat) (s : string) : string :=
  match n, s with
  | O, _ => s
  | S n', String _ s' => drop n' s'
  | S _, EmptyString => EmptyString
  end.

(** [s[:n]] *)
Fixpoint take (n : nat) (s : string) : string :=
  match n, s with
  | O, _ => EmptyString
  | S n', String c s' => String c (take n' s')
  | S _, EmptyString => EmptyString
  end.

(** [strings.HasPrefix(s, prefix)] *)
Fixpoint HasPrefix (s prefix : string) : bool :=
  match prefix, s with
  | EmptyString, _ => true
  | String p prefix', String c s' =>
      if Ascii.eqb c p then HasPrefix s' prefix' else false
  | String _ _, EmptyString => false
  end.

(** [strings.Cut(s, sep)]: slices [s] around the first instance of [sep],
    or returns [(s, "", false)] when [sep] does not occur. *)
Fixpoint Cut (s sep : string) : string * string * bool :=
  if HasPrefix s sep then (EmptyString, drop (String.length sep) s, true)
  else
    match s with
    | EmptyString => (s, EmptyString, false)
    | String c s' =>
        let '(before, after, found) := Cut s' sep in
        if found then (String c before, after, true)
        else (s, EmptyString, false)
    end.

(** [strings.ReplaceAll(s, old, new)] for a non-empty [old] (every call
    site passes a non-empty constant): non-overlapping instances are
    replaced from left to right.  [skip] counts the bytes of a matched
    instance of [old] that are still to be stepped over. *)
Fixpoint replace_from (old new : string) (skip : nat) (s : string) : string :=
  match s with
  | EmptyString => EmptyString
  | String c s' =>
      match skip with
      | S k => replace_from old new k s'
      | O =>
          if HasPrefix s old
          then new +:+ replace_from old new (String.length old - 1) s'
          else String c (replace_from old new 0 s')
      end
  end.

Definition ReplaceAll (s old new : string) : string :=
  replace_from old new 0 s.

(** [strings.Split(s, sep)] for a non-empty [sep]: the substrings between
    the instances of [sep]; always at least one element.  The auxiliary
    function returns the rest of the current substring and the substrings
    after it. *)
Fixpoint split_from (sep : string) (skip : nat) (s : string)
  : string * list string :=
  match s with
  | EmptyString => (EmptyString, [])
  | String c s' =>
      match skip with
      | S k => split_from sep k s'
      | O =>
          if HasPrefix s sep
          then let '(t, ts) := split_from sep (String.length sep - 1) s' in
               (EmptyString, t :: ts)
          else let '(t, ts) := split_from sep 0 s' in
               (String c t, ts)
      end
  end.

Definition Split (s sep : string) : list string :=
  let '(t, ts) := split_from sep 0 s in t :: ts.

(** [strings.Join(elems, sep)] *)
Fixpoint Join (elems : list string) (sep : string) : string :=
  match elems with
  | [] => EmptyString
  | [e] => e
  | e :: rest => e +:+ sep +:+ Join rest sep
  end.

(** [strings.ToUpper] on one ASCII byte: ['a'..'z'] to ['A'..'Z']. *)
Definition upper_byte (c : ascii) : ascii :=
  if (Ascii.leb "a" c && Ascii.leb c "z")%bool
  then ascii_of_N (N_of_ascii c - 32)
  else c.

(** [strings.ToUpper(s)], on its path for strings of ASCII bytes: every
    byte ['a'..'z'] in upper case, every other byte as it is.  On a string
    with a byte from 0x80 on, Go maps every rune with [unicode.ToUpper]
    (the length in bytes may change, an invalid byte becomes U+FFFD); the
    tables of package [unicode] are not part of this development, and on
    such a string this function leaves the bytes from 0x80 on as they
    are.  The dash and the underscore are ASCII and are neither made nor
    removed on either path. *)
Fixpoint ToUpper (s : string) : string :=
  match s with
  | EmptyString => EmptyString
  | String c s' => String (upper_byte c) (ToUpper s')
  end.

(** The ASCII white space of [strings.TrimSpace]:
    ['\t'], ['\n'], ['\v'], ['\f'], ['\r'], [' ']. *)
Definition isSpace (c : ascii) : bool :=
  match c with
  | "009" | "010" | "011" | "012" | "013" | " " => true
  | _ => false
  end%char.

Fixpoint trimLeft (s : string) : string :=
  match s with
  | EmptyString => EmptyString
  | String c s' => if isSpace c then trimLeft s' else s
  end.

Fixpoint trimRight (s : string) : string :=
  match s with
  | EmptyString => EmptyString
  | String c s' =>
      match trimRight s' with
      | EmptyString => if isSpace c then EmptyString else String c EmptyString
      | r => String c r
      end
  end.

(** [strings.TrimSpace(s)], on its path for strings of ASCII bytes: the
    six bytes of [isSpace] are taken off both ends.  On a string in
    which the scan from either end meets a byte from 0x80 on, Go goes on
    with [unicode.IsSpace] and also takes off the white space of Unicode
    (U+0085, U+00A0, U+2000 and the like); this function stops there.  On
    either path the result is a substring of [s]. *)
Definition TrimSpace (s : string) : string := trimRight (trimLeft s).

(** Does byte [c] occur in [chars]? *)
Fixpoint containsByte (chars : string) (c : ascii) : bool :=
  match chars with
  | EmptyString => false
  | String d chars' => (Ascii.eqb c d || containsByte chars' c)%bool
  end.

(** [strings.IndexAny(s, chars)]: the index of the first byte of [s] that
    is in [chars], or [-1]. *)
Fixpoint IndexAny (s chars : string) : Z :=
  match s with
  | EmptyString => -1
  | String c s' =>
      if containsByte chars c then 0
      else let i := IndexAny s' chars in
           if (i <? 0)%Z then -1 else i + 1
  end.

(** [strings.Contains(s, substr)] *)
Fixpoint Contains (s substr : string) : bool :=
  if HasPrefix s substr then true
  else match s with
       | EmptyString => false
       | String _ s' => Contains s' substr
       end.

End strings.

(* ===================================================================== *)
(** * Package [os]: [Expand] *)
(* ===================================================================== *)

Module os.

(** [isShellSpecialVar(c)]: the character names a special shell variable
    such as [$*]. *)
Definition isShellSpecialVar (c : ascii) : bool :=
  match c with
  | "*" | "#" | "$" | "@" | "!" | "?" | "-"
  | "0" | "1" | "2" | "3" | "4" | "5" | "6" | "7" | "8" | "9" => true
  | _ => false
  end%char.

(** [isAlphaNum(c)]: an ASCII letter, digit or underscore. *)
Definition isAlphaNum (c : ascii) : bool :=
  (Ascii.eqb c "_"
   || (Ascii.leb "0" c && Ascii.leb c "9")
   || (Ascii.leb "a" c && Ascii.leb c "z")
   || (Ascii.leb "A" c && Ascii.leb c "Z"))%bool.

(** Number of leading bytes of [s] that satisfy [isAlphaNum]. *)
Fixpoint spanAlphaNum (s : string) : nat :=
  match s with
  | String c s' => if isAlphaNum c then S (spanAlphaNum s') else O
  | EmptyString => O
  end.

(** Index of the first ['}'] in [s]. *)
Fixpoint indexBrace (s : string) : option nat :=
  match s with
  | EmptyString => None
  | String c s' =>
      if Ascii.eqb c "}" then Some O else S <$> indexBrace s'
  end.

(** [getShellName(s)] for a non-empty [s]: the name that begins [s] and the
    number of bytes consumed to extract it. *)
Definition scanToBrace (r : string) : string * nat :=
  match indexBrace r with
  | Some O => (EmptyString, 2%nat)            (* bad syntax; eat "${}" *)
  | Some k => (strings.take k r, (k + 2)%nat)
  | None => (EmptyString, 1%nat)              (* bad syntax; eat "${" *)
  end.

(** [len(s) > 2 && isShellSpecialVar(s[1]) && s[2] == '}'], on [r = s[1:]]. *)
Definition bracedSpecial (r : string) : bool :=
  match r with
  | String c1 (String c2 _) => (isShellSpecialVar c1 && Ascii.eqb c2 "}")%bool
  | _ => false
  end.

Definition getShellName (s : string) : string * nat :=
  match s with
  | EmptyString => (EmptyString, O)
  | String c r =>
      if Ascii.eqb c "{" then
        if bracedSpecial r then (strings.take 1 r, 3%nat)
        else scanToBrace r
      else if isShellSpecialVar c then (String c EmptyString, 1%nat)
      else let i := spanAlphaNum s in (strings.take i s, i)
  end.

(** The loop of [Expand] on the part of the string not yet consumed;
    [fuel] bounds the number of iterations. *)
Fixpoint expand_loop (fuel : nat) (mapping : string → string) (s : string)
  : string :=
  match fuel with
  | O => s
  | S fuel' =>
      match s with
      | EmptyString => EmptyString
      | String c rest =>
          if (Ascii.eqb c "$" && negb (String.eqb rest EmptyString))%bool
          then
            let '(name, w) := getShellName rest in
            let out :=
              if String.eqb name EmptyString
              then if (0 <? w)%nat
                   then EmptyString          (* invalid syntax; eat it *)
                   else String "$" EmptyString (* leave the dollar *)
              else mapping name in
            out +:+ expand_loop fuel' mapping (strings.drop w rest)
          else String c (expand_loop fuel' mapping rest)
      end
  end.

(** [os.Expand(s, mapping)] *)
Definition Expand (s : string) (mapping : string → string) : string :=
  expand_loop (String.length s) mapping s.

(** The error numbers the file operations below can report. *)
Inductive Errno := ENOENT | EACCES | EISDIR | ENOTDIR | EIO.

#[global] Instance Errno_eq_dec : EqDecision Errno.
Proof. solve_decision. Defined.

Definition Errno_Error (e : Errno) : string :=
  match e with
  | ENOENT => "no such file or directory"
  | EACCES => "permission denied"
  | EISDIR => "is a directory"
  | ENOTDIR => "not a directory"
  | EIO => "input/output error"
  end.

End os.

(* ===================================================================== *)
(** * Package [path/filepath]: [Base] (Unix) *)
(* ===================================================================== *)

Module filepath.

(** Strip the trailing slashes of [s]. *)
Fixpoint stripTrailingSlashes (s : string) : string :=
  match s with
  | EmptyString => EmptyString
  | String c s' =>
      match stripTrailingSlashes s' with
      | EmptyString =>
          if Ascii.eqb c "/" then EmptyString else String c EmptyString
      | r => String c r
      end
  end.

(** The part of [s] after its last slash; [s] itself when it has none. *)
Fixpoint lastElement (s : string) : string :=
  match s with
  | EmptyString => EmptyString
  | String c s' =>
      if strings.containsByte s' "/" then lastElement s'
      else if Ascii.eqb c "/" then s' else s
  end.

(** [filepath.Base(path)]: the last element of [path]. *)
Definition Base (path : string) : string :=
  if String.eqb path EmptyString then "."
  else
    let path := lastElement (stripTrailingSlashes path) in
    if String.eqb path EmptyString then "/" else path.

End filepath.

(* ===================================================================== *)
(** * Errors: the [error] values this package handles, and package [errors] *)
(* ===================================================================== *)

(** The dynamic types of the [error] values that occur:
    - [errorString]: [errors.New] and [fmt.Errorf] without [%w], the errors
      a [flag.Value]'s setter or the scanner makes up;
    - [PathError]: [*fs.PathError], what [os.Open] and a read on an [os.File]
      return;
    - [wrapError]: [*fmt.wrapError], made by [fmt.Errorf] with one [%w];
    - [joinError]: [*errors.joinError], made by [errors.Join]. *)
#[warnings="-register-all"]
Inductive error :=
| errorString (s : string)
| PathError (Op Path : string) (Err : os.Errno)
| wrapError (msg : string) (err : error)
| joinError (errs : list error).

Definition newline : string := String "010" EmptyString.
Definition tab : string := String "009" EmptyString.
Definition NUL : string := String "000" EmptyString.
Definition quote : string := String "034" EmptyString.

(** The [Error() string] method. *)
Fixpoint Error (e : error) : string :=
  match e with
  | errorString s => s
  | PathError op path errno => op +:+ " " +:+ path +:+ ": " +:+ os.Errno_Error errno
  | wrapError msg _ => msg
  | joinError errs =>
      strings.Join ((fix go (l : list error) : list string :=
                       match l with
                       | [] => []
                       | x :: l' => Error x :: go l'
                       end) errs) newline
  end.

Module fmt.
(** [fmt.Errorf(prefix + ": %w", err)] *)
Definition Errorf_w (prefix : string) (err : error) : error :=
  wrapError (prefix +:+ ": " +:+ Error err) err.
End fmt.

Module errors.

(** [errors.Join(errs...)]: nil values are discarded; the result is nil
    when none is left. *)
Definition Join (errs : list (option error)) : option error :=
  match omap id errs with
  | [] => None
  | es => Some (joinError es)
  end.

(** [errors.Is(err, fs.ErrNotExist)] *)
Fixpoint Is_ErrNotExist (e : error) : bool :=
  match e with
  | errorString _ => false
  | PathError _ _ errno =>
      match errno with os.ENOENT => true | _ => false end
  | wrapError _ err => Is_ErrNotExist err
  | joinError errs =>
      (fix go (l : list error) : bool :=
         match l with
         | [] => false
         | x :: l' => (Is_ErrNotExist x || go l')%bool
         end) errs
  end.

(** The errors an error value directly wraps ([Unwrap]). *)
Definition Unwrap (e : error) : list error :=
  match e with
  | errorString _ | PathError _ _ _ => []
  | wrapError _ err => [err]
  | joinError errs => errs
  end.

End errors.

(* ===================================================================== *)
(** * Files as [os.Open] and [bufio.Scanner] show them *)
(* ===================================================================== *)

(** An opened file, as a [bufio.Scanner] with the default split function
    ([bufio.ScanLines]) shows it: the text of each line it yields, and the
    value of [sc.Err()] once [sc.Scan()] has returned false ([None] at a
    clean end of file). *)
Record File := { Lines : list string; ScanErr : option error }.

(** [os.Open(path)] either opens a file or fails with a [*PathError] whose
    operation is ["open"] and whose cause is an error number. *)
Inductive OpenResult :=
| Opened (f : File)
| OpenFailed (errno : os.Errno).

Definition FileSystem := string → OpenResult.

(* ===================================================================== *)
(** * Package [flag] *)
(* ===================================================================== *)

Module flag.

(** The interface [flag.Value].  [Value_Set] returns the value after the
    call (the method has a pointer receiver) and the error. *)
Class Value (V : Type) := {
  Value_String : V → string;
  Value_Set : V → string → V * option error;
}.

Inductive ErrorHandling := ContinueOnError | ExitOnError | PanicOnError.

Section flagset.
Context {V : Type}.

(** [flag.Flag] (the fields this package reads). *)
Record Flag := { Name : string; Flag_Value : V }.

(** [flag.FlagSet]: [formal] holds the defined flags by name, [actual]
    the names of the flags that were set through the flag set itself
    ([Parse], [Set]).  [output] is the text written so far to
    [fl.Output()]; [Usage] is the text the usage callback prints, [None]
    when the callback is nil. *)
Record FlagSet := {
  name : string;
  formal : gmap string V;
  actual : gset string;
  errorHandling : ErrorHandling;
  output : string;
  Usage : option string;
}.

(** [sortFlags(flags)]: the flags in lexicographical order of name.  Go
    returns a slice of pointers to the flags; here a flag is pointed to
    by its key in [formal]. *)
Definition sortFlags (flags : gset string) : list string :=
  merge_sort String.le (elements flags).

Definition set_formal (fl : FlagSet) (m : gmap string V) : FlagSet :=
  {| name := name fl; formal := m; actual := actual fl;
     errorHandling := errorHandling fl; output := output fl;
     Usage := Usage fl |}.

Definition write (fl : FlagSet) (text : string) : FlagSet :=
  {| name := name fl; formal := formal fl; actual := actual fl;
     errorHandling := errorHandling fl; output := output fl +:+ text;
     Usage := Usage fl |}.

(** One call [fn(flag)] of a visit: [fn] receives the flag [p] points
    to and the variables its closure captured ([S]); the flag as [fn]
    left it is the flag the set holds from then on. *)
Definition visit {S : Type} (fn : Flag → S → Flag * S)
    (fls : FlagSet * S) (p : string) : FlagSet * S :=
  let '(fl, s) := fls in
  match formal fl !! p with
  | Some v =>
      let '(f', s') := fn {| Name := p; Flag_Value := v |} s in
      (set_formal fl (<[p := Flag_Value f']> (formal fl)), s')
  | None => (fl, s)
  end.

(** [fl.VisitAll(fn)]: [fn] is called on every defined flag, in
    lexicographical order. *)
Definition VisitAll {S : Type} (fl : FlagSet)
    (fn : Flag → S → Flag * S) (s : S) : FlagSet * S :=
  foldl (visit fn) (fl, s) (sortFlags (dom (formal fl))).

(** [fl.Visit(fn)]: as [VisitAll], over the flags that have been set. *)
Definition Visit {S : Type} (fl : FlagSet)
    (fn : Flag → S → Flag * S) (s : S) : FlagSet * S :=
  foldl (visit fn) (fl, s) (sortFlags (actual fl)).

End flagset.
Arguments Flag : clear implicits.
Arguments FlagSet : clear implicits.

End flag.

(* ===================================================================== *)
(** * Package [flagconf] *)
(* ===================================================================== *)

(** How a call ends: it returns [err], or the deferred
    [mimicFlagSetError] ends the process ([os.Exit]) or panics. *)
Inductive outcome :=
| Return (err : option error)
| Exit (code : Z)
| Panic (err : error).

(** One call [f.Value.Set(v)], as logged: the flag, the argument and what
    the call returned. *)
Record call := {
  call_flag : string;
  call_arg : string;
  call_err : option error;
}.

(** [genEnvMap(env)] *)
Definition genEnvMap (env : list string) : gmap string string :=
  foldl (λ envMap en,
           let '(k, v, ok) := strings.Cut en "=" in
           if ok then <[k := v]> envMap else envMap)
        ∅ env.

(** [envKeyForFlag(prefix, name)] *)
Definition envKeyForFlag (prefix name : string) : string :=
  let name := strings.ReplaceAll name "-" "_" in
  let name := strings.ToUpper name in
  if String.eqb prefix "" then name
  else
    let prefix := strings.ReplaceAll prefix "-" "_" in
    let prefix := strings.ToUpper prefix in
    prefix +:+ "_" +:+ name.

(** [splitEscape(str, sep, esc)]; the nil slice is the empty list. *)
Definition splitEscape (str sep esc : string) : list string :=
  if String.eqb str "" then []
  else
    let str := strings.ReplaceAll str (esc +:+ sep) NUL in
    let tokens := strings.Split str sep in
    (λ token, strings.ReplaceAll token NUL sep) <$> tokens.

(** One iteration of the scanning loop of [ParseConfigSet]: the key and the
    value a line contributes, [None] when the loop [continue]s. *)
Definition parseLine (text : string) : option (string * string) :=
  let line := strings.TrimSpace text in
  if (String.eqb line "" || strings.HasPrefix line "#")%bool then None
  else
    let idx := strings.IndexAny line (tab +:+ " ") in
    if (idx <? 0)%Z then Some (line, "true")
    else Some (strings.take (Z.to_nat idx) line,
               strings.TrimSpace (strings.drop (Z.to_nat idx) line)).

(** The scanning loop of [ParseConfigSet] over the lines the scanner
    yields: [config[k] = append(config[k], v)]. *)
Definition scanConfig (lines : list string) : gmap string (list string) :=
  foldl (λ config text,
           match parseLine text with
           | None => config
           | Some (k, v) => <[k := (config !!! k) ++ [v]]> config
           end)
        ∅ lines.

(** [os.Expand(v, func(k string) string { return envMap[k] })] *)
Definition expandWith (envMap : gmap string string) (v : string) : string :=
  os.Expand v (λ k, envMap !!! k).

Section flagconf.
Context {V : Type} `{!flag.Value V}.

(** The package variable [ReadEnvPrefix]; [defaultReadEnvPrefix] below is
    the value the package gives it. *)
Variable ReadEnvPrefix : flag.FlagSet V → string.

(** [getSetFlags(fl)] *)
Definition getSetFlags (fl : flag.FlagSet V) : gset string :=
  (flag.Visit fl (λ f m, (f, {[flag.Name f]} ∪ m)) ∅).2.

(** [mimicFlagSetError(fl, err)], with how the caller goes on. *)
Definition mimicFlagSetError (fl : flag.FlagSet V) (err : option error)
  : flag.FlagSet V * outcome :=
  match err with
  | None => (fl, Return None)
  | Some e =>
      let fl := flag.write fl (Error e +:+ newline) in
      let fl := match flag.Usage fl with
                | Some text => flag.write fl text
                | None => fl
                end in
      match flag.errorHandling fl with
      | flag.ExitOnError => (fl, Exit 2)
      | flag.PanicOnError => (fl, Panic e)
      | flag.ContinueOnError => (fl, Return (Some e))
      end
  end.

(** What the closures passed to [VisitAll] capture: the slice [flagErrs],
    and the log of the calls of [Value.Set] made so far. *)
Record visitState := {
  flagErrs : list error;
  calls : list call;
}.

(** [if err := f.Value.Set(v); err != nil { flagErrs = append(flagErrs, err) }] *)
Definition setValue (fst : flag.Flag V * visitState) (v : string)
  : flag.Flag V * visitState :=
  let '(f, st) := fst in
  let '(val, err) := flag.Value_Set (flag.Flag_Value f) v in
  ({| flag.Name := flag.Name f; flag.Flag_Value := val |},
   {| flagErrs := match err with
                  | Some e => flagErrs st ++ [e]
                  | None => flagErrs st
                  end;
      calls := calls st ++ [{| call_flag := flag.Name f; call_arg := v;
                               call_err := err |}] |}).

(** What a call hands back: the flag set as the call left it, the calls
    of [Value.Set] it made, and how it ended. *)
Record result := {
  res_flags : flag.FlagSet V;
  res_calls : list call;
  res_outcome : outcome;
}.

(** [return err], with the deferred [mimicFlagSetError(fl, err)]. *)
Definition finish (fl : flag.FlagSet V) (log : list call)
    (err : option error) : result :=
  let '(fl, out) := mimicFlagSetError fl err in
  {| res_flags := fl; res_calls := log; res_outcome := out |}.

(** [ParseEnvSet(fl, env)] *)
Definition ParseEnvSet (fl : flag.FlagSet V) (env : list string) : result :=
  let prefix := ReadEnvPrefix fl in
  let envMap := genEnvMap env in
  let expand := expandWith envMap in
  let setFlags := getSetFlags fl in
  let '(fl, st) :=
    flag.VisitAll fl
      (λ f st,
         if decide (flag.Name f ∈ setFlags) then (f, st)
         else
           let key := envKeyForFlag prefix (flag.Name f) in
           foldl (λ fst v, let v := expand v in setValue fst v)
                 (f, st) (splitEscape (envMap !!! key) "," "\"))
      {| flagErrs := []; calls := [] |} in
  finish fl (calls st) (errors.Join (Some <$> flagErrs st)).

(** [ParseConfigSet(fl, env, path)], reading the file system [fs]. *)
Definition ParseConfigSet (fs : FileSystem) (fl : flag.FlagSet V)
    (env : list string) (path : string) : result :=
  if String.eqb path "" then
    {| res_flags := fl; res_calls := []; res_outcome := Return None |}
  else
    let envMap := genEnvMap env in
    let expand := expandWith envMap in
    let path := expand path in
    match fs path with
    | OpenFailed errno =>
        let err := PathError "open" path errno in
        if errors.Is_ErrNotExist err then finish fl [] None
        else finish fl [] (Some (fmt.Errorf_w "open config file" err))
    | Opened file =>
        let config := scanConfig (Lines file) in
        match ScanErr file with
        | Some err => finish fl [] (Some (fmt.Errorf_w "scan config" err))
        | None =>
            let setFlags := getSetFlags fl in
            let '(fl, st) :=
              flag.VisitAll fl
                (λ f st,
                   if decide (flag.Name f ∈ setFlags) then (f, st)
                   else
                     foldl (λ fst v, let v := expand v in setValue fst v)
                           (f, st) (config !!! flag.Name f))
                {| flagErrs := []; calls := [] |} in
            finish fl (calls st) (errors.Join (Some <$> flagErrs st))
        end
    end.

End flagconf.

(** The initial value of [ReadEnvPrefix]. *)
Definition defaultReadEnvPrefix {V : Type} (fl : flag.FlagSet V) : string :=
  filepath.Base (flag.name fl).

(* ===================================================================== *)
(** * The flag values of the package's test program *)
(* ===================================================================== *)

(** [flag.String] (a [*stringValue]), [flagArray] and [willErr] of
    [flagconf_test.go].  [fa.String()] formats every element with [%q];
    [Value_String] below puts the element between two double quotes, which
    is what [%q] gives for an element of printable ASCII bytes other than
    the double quote and the backslash (the elements of the test data are
    such); the escapes [%q] writes for other bytes are not modelled, and
    no statement below reads the text of a [flagArray] except on the test
    data. *)
Inductive testValue :=
| stringValue (s : string)
| flagArray (fa : list string)
| willErr.

#[global] Instance testValue_Value : flag.Value testValue := {
  Value_String v :=
    match v with
    | stringValue s => s
    | flagArray fa =>
        strings.Join ((λ f, quote +:+ f +:+ quote) <$> fa) ", "
    | willErr => ""
    end;
  Value_Set v value :=
    match v with
    | stringValue _ => (stringValue value, None)
    | flagArray fa => (flagArray (fa ++ [value]), None)
    | willErr => (willErr, Some (errorString "invalid option for will-err"))
    end;
}.

(** The flag set of the test program, named as the test binary is, after
    [flag.Parse] on a command line that set the flags [cmdline]. *)
Definition testFlags (cmdline : gmap string testValue) : flag.FlagSet testValue :=
  {| flag.name := "test";
     flag.formal :=
       cmdline ∪
       {[ "str" := stringValue ""; "config-path" := stringValue "";
          "arr" := flagArray []; "will-err" := willErr ]};
     flag.actual := dom cmdline;
     flag.errorHandling := flag.ContinueOnError;
     flag.output := "";
     flag.Usage := None |}.

(** The files of [testdata/config-file.txtar]. *)
Definition testFS : FileSystem :=
  λ path,
    if String.eqb path "conf" then
      Opened {| Lines := [ "str the str"; "arr value 1"; "# tabs are ok";
                           "arr" +:+ tab +:+ "value 2"; "# ignore comments";
                           "# and flags with no value"; "uh"; "" ];
                ScanErr := None |}
    else if String.eqb path "conf-unknown-option" then
      Opened {| Lines := [ "unknown-option hello" ]; ScanErr := None |}
    else if String.eqb path "some-dir" then
      Opened {| Lines := [];
                ScanErr := Some (PathError "read" "some-dir" os.EISDIR) |}
    else if String.eqb path "conf-no-perm" then OpenFailed os.EACCES
    else OpenFailed os.ENOENT.

(** [fa.String()] for a [flagArray] quotes with [%q]; the values of the
    test data are plain text, which [%q] puts between double quotes. *)
Definition printFlag (p : string) (v : testValue) : string :=
  p +:+ " " +:+ flag.Value_String v +:+ newline.

(** The test program [test] of [flagconf_test.go]: after [flag.Parse] has
    set the flags [cmdline] of [flag.CommandLine] (error handling
    [flag.ExitOnError]), it calls [ParseEnv], then [ParseConfig] with the
    value of [-config-path], then prints every flag.  [usage] is the text
    the usage callback of [flag.CommandLine] prints. *)
Record run := { stdout : string; stderr : string; status : Z }.

Definition commandLine (usage : string) (cmdline : gmap string testValue)
  : flag.FlagSet testValue :=
  {| flag.name := flag.name (testFlags cmdline);
     flag.formal := flag.formal (testFlags cmdline);
     flag.actual := flag.actual (testFlags cmdline);
     flag.errorHandling := flag.ExitOnError;
     flag.output := "";
     flag.Usage := Some usage |}.

Definition testMain (usage : string) (fs : FileSystem) (env : list string)
    (cmdline : gmap string testValue) : run :=
  let r1 := ParseEnvSet defaultReadEnvPrefix (commandLine usage cmdline) env in
  match res_outcome r1 with
  | Exit _ | Panic _ =>
      {| stdout := ""; stderr := flag.output (res_flags r1); status := 2 |}
  | Return _ =>
      let conf := match flag.formal (res_flags r1) !! "config-path" with
                  | Some v => flag.Value_String v
                  | None => ""
                  end in
      let r2 := ParseConfigSet fs (res_flags r1) env conf in
      match res_outcome r2 with
      | Exit _ | Panic _ =>
          {| stdout := ""; stderr := flag.output (res_flags r2); status := 2 |}
      | Return _ =>
          {| stdout :=
               (flag.VisitAll (res_flags r2)
                  (λ f out, (f, out +:+ printFlag (flag.Name f) (flag.Flag_Value f)))
                  "").2;
             stderr := flag.output (res_flags r2);
             status := 0 |}
      end
  end.

(** The first line of the usage text of the test program. *)
Definition usageLine : string := "Usage of test:" +:+ newline.

(* ===================================================================== *)
(** * The earlier revision of the package *)
(* ===================================================================== *)

(** The revision of [flagconf.go] before values were expanded; the
    functions below are those in which it differs from the current
    revision on the environment key, the lines of the config file and the
    keys that name no flag. *)
Module earlier.

(** [envKeyForFlag(prefix, name)] *)
Definition envKeyForFlag (prefix name : string) : string :=
  let prefix := strings.ReplaceAll prefix "-" "_" in
  let name := strings.ReplaceAll name "-" "_" in
  let k := strings.Join [prefix; name] "_" in
  strings.ToUpper k.

(** [splitEscape(string, sep, esc)]: no case for the empty string; the
    caller, [ParseEnvSet], calls it on non-empty values only. *)
Definition splitEscape (str sep esc : string) : list string :=
  let str := strings.ReplaceAll str (esc +:+ sep) NUL in
  let tokens := strings.Split str sep in
  (λ token, strings.ReplaceAll token NUL sep) <$> tokens.

(** One iteration of the scanning loop of [ParseConfigSet]: the loop
    [continue]s, returns the error [unknown config option], or appends a
    value. *)
Inductive lineResult :=
| Continue
| UnknownOption (k : string)
| Append (k v : string).

Definition scanLine (allFlags : gset string) (text : string) : lineResult :=
  let '(k, v, ok) := strings.Cut (strings.TrimSpace text) " " in
  if negb ok then Continue
  else if strings.HasPrefix k "#" then Continue
  else if decide (k ∈ allFlags) then
    let v := strings.TrimSpace v in
    if String.eqb v "" then Continue else Append k v
  else UnknownOption k.

(** The scanning loop: the key of the error it returns, or the table. *)
Fixpoint scanConfig (allFlags : gset string) (lines : list string)
    (config : gmap string (list string))
  : string + gmap string (list string) :=
  match lines with
  | [] => inr config
  | text :: lines' =>
      match scanLine allFlags text with
      | Continue => scanConfig allFlags lines' config
      | UnknownOption k => inl k
      | Append k v =>
          scanConfig allFlags lines' (<[k := (config !!! k) ++ [v]]> config)
      end
  end.

Section resolvers.
Context {V : Type} `{!flag.Value V}.

(** [strconv.Quote], by which the verb [%q] formats a key; the text it
    gives is not fixed here. *)
Variable Quote : string → string.

(** [getAllFlags(fl)] *)
Definition getAllFlags (fl : flag.FlagSet V) : gset string :=
  (flag.VisitAll fl (λ f m, (f, {[flag.Name f]} ∪ m)) ∅).2.

(** What the closures passed to [VisitAll] capture: [flagErrs] holds what
    every call of [Value.Set] returned, nil included. *)
Record visitState := {
  flagErrs : list (option error);
  calls : list call;
}.

(** [flagErrs = append(flagErrs, f.Value.Set(v))] *)
Definition setValue (fst : flag.Flag V * visitState) (v : string)
  : flag.Flag V * visitState :=
  let '(f, st) := fst in
  let '(val, err) := flag.Value_Set (flag.Flag_Value f) v in
  ({| flag.Name := flag.Name f; flag.Flag_Value := val |},
   {| flagErrs := flagErrs st ++ [err];
      calls := calls st ++ [{| call_flag := flag.Name f; call_arg := v;
                               call_err := err |}] |}).

(** [ParseEnvSet(fl, env)]; the loop that fills [envMap] is the one the
    current revision names [genEnvMap]. *)
Definition ParseEnvSet (fl : flag.FlagSet V) (env : list string) : result :=
  let envMap := genEnvMap env in
  let setFlags := getSetFlags fl in
  let prefix := filepath.Base (flag.name fl) in
  let '(fl, st) :=
    flag.VisitAll fl
      (λ f st,
         if decide (flag.Name f ∈ setFlags) then (f, st)
         else
           let vs := envMap !!! envKeyForFlag prefix (flag.Name f) in
           if String.eqb vs "" then (f, st)
           else foldl setValue (f, st) (splitEscape vs "," "\"))
      {| flagErrs := []; calls := [] |} in
  finish fl (calls st) (errors.Join (flagErrs st)).

(** [ParseConfigSet(fl, path)], reading the file system [fs]. *)
Definition ParseConfigSet (fs : FileSystem) (fl : flag.FlagSet V)
    (path : string) : result :=
  if String.eqb path "" then
    {| res_flags := fl; res_calls := []; res_outcome := Return None |}
  else
    match fs path with
    | OpenFailed errno =>
        let err := PathError "open" path errno in
        if errors.Is_ErrNotExist err then finish fl [] None
        else finish fl [] (Some (fmt.Errorf_w "open config file" err))
    | Opened file =>
        let allFlags := getAllFlags fl in
        match scanConfig allFlags (Lines file) ∅ with
        | inl k =>
            finish fl []
              (Some (errorString ("unknown config option " +:+ Quote k)))
        | inr config =>
            match ScanErr file with
            | Some err => finish fl [] (Some (fmt.Errorf_w "scan config" err))
            | None =>
                let setFlags := getSetFlags fl in
                let '(fl, st) :=
                  flag.VisitAll fl
                    (λ f st,
                       if decide (flag.Name f ∈ setFlags) then (f, st)
                       else foldl setValue (f, st) (config !!! flag.Name f))
                    {| flagErrs := []; calls := [] |} in
                finish fl (calls st) (errors.Join (flagErrs st))
            end
        end
    end.

End resolvers.

End earlier.

(* ===================================================================== *)
(** * Vocabulary of the statements *)
(* ===================================================================== *)

(** Definitions the lemmas and theorems below are stated with: functions
    that follow the spec's words, to be compared with the code, and the
    denotations of the loops of the two resolvers. *)

Section vocabulary.
Context {V : Type} `{!flag.Value V}.
Implicit Types (fl : flag.FlagSet V) (st : visitState) (p : string).

(** Byte-wise image of a string. *)
Fixpoint mapBytes (f : ascii → ascii) (s : string) : string :=
  match s with
  | EmptyString => EmptyString
  | String c s' => String (f c) (mapBytes f s')
  end.

(** The spec's words: a name "uppercased with all [-] converted to [_]". *)
Definition upperSnakeByte (c : ascii) : ascii :=
  if Ascii.eqb c "-" then "_"%char else strings.upper_byte c.

Definition upperSnake (s : string) : string := mapBytes upperSnakeByte s.

(** The test program's flag set, had the binary been [/usr/bin/my-app]. *)
Definition myAppFlags : flag.FlagSet testValue :=
  {| flag.name := "/usr/bin/my-app";
     flag.formal := {[ "some-string" := stringValue "" ]};
     flag.actual := ∅;
     flag.errorHandling := flag.ContinueOnError;
     flag.output := "";
     flag.Usage := None |}.

(** [hasByte s c]: the byte [c] occurs in [s]. *)
Definition hasByte (s : string) (c : ascii) : bool := strings.containsByte s c.

(** The loop body of [genEnvMap]. *)
Definition envEntry (envMap : gmap string string) (en : string)
  : gmap string string :=
  let '(k, v, ok) := strings.Cut en "=" in
  if ok then <[k := v]> envMap else envMap.

(** The spec's words, for the delimiter [,] and the escape marker [\]:
    split at every delimiter that no escape marker immediately precedes; an
    escape marker immediately before a delimiter yields a literal delimiter
    in the token; every other byte, escape markers included, is kept.  The
    function returns the token being read and the tokens after it. *)
Fixpoint unescapedFrom (s : string) : string * list string :=
  match s with
  | EmptyString => (EmptyString, [])
  | String c r =>
      if Ascii.eqb c "\" then
        match r with
        | String d r' =>
            if Ascii.eqb d "," then
              let '(t, ts) := unescapedFrom r' in (String "," t, ts)
            else
              let '(t, ts) := unescapedFrom r in (String c t, ts)
        | EmptyString => (String c EmptyString, [])
        end
      else if Ascii.eqb c "," then
        let '(t, ts) := unescapedFrom r in (EmptyString, t :: ts)
      else
        let '(t, ts) := unescapedFrom r in (String c t, ts)
  end.

Definition splitUnescaped (s : string) : list string :=
  if String.eqb s "" then []
  else let '(t, ts) := unescapedFrom s in t :: ts.

(** The three passes of [splitEscape], on the bytes. *)
Definition markEscapes (s : string) : string := strings.ReplaceAll s "\," NUL.

Definition unmark (t : string) : string := strings.ReplaceAll t NUL ",".

(** Tokens of a string without a NUL byte have none, and the unmarking
    pass leaves them as they are. *)
Definition noNUL (s : string) : Prop := hasByte s "000" = false.

(** The calls [f.Value.Set(v)] for the values [vs] in turn, on a flag
    named [p] that holds [val]: the value the flag ends with and the
    calls. *)
Fixpoint setAll (p : string) (val : V) (vs : list string) : V * list call :=
  match vs with
  | [] => (val, [])
  | v :: vs' =>
      let '(val', err) := flag.Value_Set val v in
      let '(val'', cs) := setAll p val' vs' in
      (val'', {| call_flag := p; call_arg := v; call_err := err |} :: cs)
  end.

(** Skip the flags in [setFlags]; apply to every other flag the values
    [values] holds under its name. *)
Definition applyValues (setFlags : gset string) (values : string → list string)
    (f : flag.Flag V) st : flag.Flag V * visitState :=
  if decide (flag.Name f ∈ setFlags) then (f, st)
  else foldl setValue (f, st) (values (flag.Name f)).

(** What [applyValues] does to the flag [p] holding [val]. *)
Definition flagFinal (setFlags : gset string) (values : string → list string)
    p (val : V) : V :=
  if decide (p ∈ setFlags) then val else (setAll p val (values p)).1.

Definition flagCalls (setFlags : gset string) (values : string → list string)
    (flags : gmap string V) p : list call :=
  match flags !! p with
  | Some val =>
      if decide (p ∈ setFlags) then [] else (setAll p val (values p)).2
  | None => []
  end.

Definition finalFlags (setFlags : gset string) (values : string → list string)
    (flags : gmap string V) (l : list string) (m : gmap string V)
  : gmap string V :=
  foldl (λ m p, match flags !! p with
                | Some val => <[p := flagFinal setFlags values p val]> m
                | None => m
                end) m l.

(** The values the environment holds for the flag named [p]: the tokens
    of its variable, each expanded. *)
Definition envValues (prefix : string) (envMap : gmap string string) p
  : list string :=
  expandWith envMap <$> splitEscape (envMap !!! envKeyForFlag prefix p) "," "\".

(** The values the config table holds for the flag named [p], each
    expanded. *)
Definition configValues (envMap : gmap string string)
    (config : gmap string (list string)) p : list string :=
  expandWith envMap <$> (config !!! p).

(** A pass that applies [values] to the flags not in [getSetFlags fl]. *)
Definition pass fl (values : string → list string) : result :=
  let SF := getSetFlags fl in
  let cs := concat (flagCalls SF values (flag.formal fl)
                      <$> flag.sortFlags (dom (flag.formal fl))) in
  finish (flag.set_formal fl
            (map_imap (λ p val, Some (flagFinal SF values p val))
                      (flag.formal fl)))
         cs (errors.Join (call_err <$> cs)).

(** How a call that reaches [return err] ends, by the error handling of
    the flag set. *)
Definition ending (eh : flag.ErrorHandling) (err : option error) : outcome :=
  match err with
  | None => Return None
  | Some e =>
      match eh with
      | flag.ContinueOnError => Return (Some e)
      | flag.ExitOnError => Exit 2
      | flag.PanicOnError => Panic e
      end
  end.

(** The flag and the argument of a logged call. *)
Definition callSite (c : call) : string * string := (call_flag c, call_arg c).

(** The calls a pass over the values [values] is to make, by the flags
    defined and the flags the registry reports as set: for every flag not
    set, in lexicographical order, every value in order. *)
Definition callPlan (defined set : gset string) (values : string → list string)
  : list (string * string) :=
  concat ((λ p, if decide (p ∈ set) then [] else (λ v, (p, v)) <$> values p)
            <$> flag.sortFlags defined).

(** What both resolvers leave of the registry's own records: the name, the
    set of defined flags and the set of flags reported as set. *)
Definition sameRegistry fl fl' : Prop :=
  flag.name fl' = flag.name fl
  ∧ dom (flag.formal fl') = dom (flag.formal fl)
  ∧ flag.actual fl' = flag.actual fl.

(** The calls [ParseConfigSet] makes, by the registry's records. *)
Definition configSites (fs : FileSystem) (defined set : gset string)
    (env : list string) (path : string) : list (string * string) :=
  if String.eqb path "" then []
  else
    match fs (expandWith (genEnvMap env) path) with
    | OpenFailed _ => []
    | Opened file =>
        match ScanErr file with
        | Some _ => []
        | None => callPlan defined set
                    (configValues (genEnvMap env) (scanConfig (Lines file)))
        end
    end.

(** The loop body of [scanConfig]. *)
Definition configLine (config : gmap string (list string)) (text : string)
  : gmap string (list string) :=
  match parseLine text with
  | None => config
  | Some (k, v) => <[k := (config !!! k) ++ [v]]> config
  end.

(** [s] is white space throughout; [s] begins, ends with white space. *)
Fixpoint allSpace (s : string) : bool :=
  match s with
  | EmptyString => true
  | String c s' => (strings.isSpace c && allSpace s')%bool
  end.

Definition startsSpace (s : string) : bool :=
  match s with
  | EmptyString => false
  | String c _ => strings.isSpace c
  end.

Fixpoint endsSpace (s : string) : bool :=
  match s with
  | EmptyString => false
  | String c s' =>
      match s' with
      | EmptyString => strings.isSpace c
      | String _ _ => endsSpace s'
      end
  end.

(** The two bytes [IndexAny(line, "\t ")] looks for. *)
Definition isBlank (c : ascii) : bool := strings.containsByte (tab +:+ " ") c.

Fixpoint hasBlank (s : string) : bool :=
  match s with
  | EmptyString => false
  | String c s' => (isBlank c || hasBlank s')%bool
  end.

Definition startsBlank (s : string) : bool :=
  match s with
  | EmptyString => false
  | String c _ => isBlank c
  end.

(** Number of bytes before the first tab or space. *)
Fixpoint spanNoBlank (s : string) : nat :=
  match s with
  | EmptyString => O
  | String c s' => if isBlank c then O else S (spanNoBlank s')
  end.

(** Names as [$NAME] takes them: ASCII letters, digits and underscores, the
    first of them no digit. *)
Fixpoint allAlphaNum (s : string) : bool :=
  match s with
  | EmptyString => true
  | String c s' => (os.isAlphaNum c && allAlphaNum s')%bool
  end.

Definition startsAlphaNum (s : string) : bool :=
  match s with
  | EmptyString => false
  | String c _ => os.isAlphaNum c
  end.

Definition isName (s : string) : bool :=
  match s with
  | EmptyString => false
  | String c _ => (allAlphaNum s && negb (os.isShellSpecialVar c))%bool
  end.

(** A string as the spec reads it: literal text, references [$NAME] and
    references [${NAME}]. *)
Inductive segment :=
| Lit (text : string)
| Ref (name : string)
| Braced (name : string).

Fixpoint render (segs : list segment) : string :=
  match segs with
  | [] => ""
  | Lit text :: segs' => text +:+ render segs'
  | Ref name :: segs' => "$" +:+ name +:+ render segs'
  | Braced name :: segs' => "${" +:+ name +:+ "}" +:+ render segs'
  end.

(** The spec's words: every reference replaced by the mapping of its name,
    the text and the values put in left as they are. *)
Fixpoint substitute (mapping : string → string) (segs : list segment) : string :=
  match segs with
  | [] => ""
  | Lit text :: segs' => text +:+ substitute mapping segs'
  | Ref name :: segs' => mapping name +:+ substitute mapping segs'
  | Braced name :: segs' => mapping name +:+ substitute mapping segs'
  end.

(** The segments read back from the rendered string as they were written:
    no dollar in literal text, a name after [$] that ends where the
    segment ends, a non-empty name without [}] between the braces. *)
Fixpoint readable (segs : list segment) : Prop :=
  match segs with
  | [] => True
  | Lit text :: segs' => hasByte text "$" = false ∧ readable segs'
  | Ref name :: segs' =>
      isName name = true ∧ startsAlphaNum (render segs') = false
      ∧ readable segs'
  | Braced name :: segs' =>
      name ≠ "" ∧ hasByte name "}" = false ∧ readable segs'
  end.

(** The value the entry [en] gives the variable [k]: what follows its
    first [=], when what precedes it is [k]. *)
Definition entryValue (k en : string) : option string :=
  let '(k', v, ok) := strings.Cut en "=" in
  if ok then (if decide (k' = k) then Some v else None) else None.

(** A token written for a list value: every delimiter [,] in it is given
    the escape marker [\]. *)
Definition escapeDelims (t : string) : string := strings.ReplaceAll t "," "\,".

(** [s] ends with the escape marker. *)
Fixpoint endsBackslash (s : string) : bool :=
  match s with
  | EmptyString => false
  | String c s' =>
      match s' with
      | EmptyString => Ascii.eqb c "\"
      | String _ _ => endsBackslash s'
      end
  end.

Definition startsComma (s : string) : bool :=
  match s with
  | EmptyString => false
  | String c _ => Ascii.eqb c ","
  end.

(** What [mimicFlagSetError] prints for the error [err]: the error on a
    line, then what the usage callback prints. *)
Definition report (usage : option string) (err : option error) : string :=
  match err with
  | None => ""
  | Some e => Error e +:+ newline +:+ default "" usage
  end.

(** The value the line [text] of a config file gives the key [k]. *)
Definition lineValue (k text : string) : option string :=
  match parseLine text with
  | Some (k', v) => if decide (k' = k) then Some v else None
  | None => None
  end.

(** The two revisions' records of a visit agree: the same calls, and the
    same errors once the nil values of the earlier revision are dropped. *)
Definition sameVisit (se : earlier.visitState) (st : visitState) : Prop :=
  earlier.calls se = calls st ∧ omap id (earlier.flagErrs se) = flagErrs st.

(** The tokens of the variable of the flag named [p], as they are. *)
Definition rawEnvValues (prefix : string) (envMap : gmap string string) p
  : list string :=
  splitEscape (envMap !!! envKeyForFlag prefix p) "," "\".

(** No line of [lines] has a key that names no flag of [allFlags]. *)
Definition knownLines (allFlags : gset string) (lines : list string) : Prop :=
  Forall (λ text, ∀ k, earlier.scanLine allFlags text ≠ earlier.UnknownOption k)
         lines.

(** One line per flag of [flags], in lexicographical order of the names:
    what the test program prints. *)
Definition listing (flags : gmap string testValue) : string :=
  foldl (λ out p, match flags !! p with
                  | Some v => out +:+ printFlag p v
                  | None => out
                  end)
        "" (flag.sortFlags (dom flags)).

(** Every byte of [s] is below [utf8.RuneSelf] (0x80).  On such strings
    [strings.ToUpper] and [strings.TrimSpace] take their ASCII paths, which
    are what [strings.ToUpper] and [strings.TrimSpace] above embed; a
    statement that reads their result byte by byte is made for such
    strings. *)
Fixpoint isASCII (s : string) : bool :=
  match s with
  | EmptyString => true
  | String c s' => (N.ltb (N_of_ascii c) 128 && isASCII s')%bool
  end.

(** The spec's words, with the functions of package [strings]: a text
    "uppercased with all [-] converted to [_]". *)
Definition upperThenSnake (s : string) : string :=
  strings.ReplaceAll (strings.ToUpper s) "-" "_".

(** The spec's words "split on the first whitespace run", for a line
    already trimmed: the key is what precedes the first white space, the
    value what follows the run. *)
Fixpoint spanNoSpace (s : string) : nat :=
  match s with
  | EmptyString => O
  | String c s' => if strings.isSpace c then O else S (spanNoSpace s')
  end.

Definition splitAtSpaceRun (line : string) : string * string :=
  (strings.take (spanNoSpace line) line,
   strings.trimLeft (strings.drop (spanNoSpace line) line)).

(** The errors the setters returned, in the order of the calls. *)
Definition setterErrors (cs : list call) : list error := omap call_err cs.

(** What [fmt.Fprintln] writes for the join of [errs]: the text of every
    error, one per line. *)
Definition errorLines (errs : list error) : string :=
  strings.Join (Error <$> errs) newline +:+ newline.

End vocabulary.

(* ===================================================================== *)
(** * Checks of the embedding on concrete inputs *)
(* ===================================================================== *)

Example Cut_ex1 : strings.Cut "K=v=w" "=" = ("K", "v=w", true).
Proof. reflexivity. Qed.
Example Cut_ex2 : strings.Cut "novalue" "=" = ("novalue", "", false).
Proof. reflexivity. Qed.
Example Split_ex1 : strings.Split "a,,b," "," = ["a"; ""; "b"; ""].
Proof. reflexivity. Qed.
Example Split_ex2 : strings.Split "" "," = [""].
Proof. reflexivity. Qed.
Example ReplaceAll_ex1 : strings.ReplaceAll "a\,b\\,c" "\," "0" = "a0b\0c".
Proof. reflexivity. Qed.
Example ToUpper_ex1 : strings.ToUpper "my_app-9z{`" = "MY_APP-9Z{`".
Proof. reflexivity. Qed.
Example TrimSpace_ex1 : strings.TrimSpace "  a b  " = "a b".
Proof. reflexivity. Qed.
Example IndexAny_ex1 : strings.IndexAny "arr value" " " = 3.
Proof. reflexivity. Qed.
Example IndexAny_ex2 : strings.IndexAny "uh" " " = -1.
Proof. reflexivity. Qed.
Example getShellName_ex1 : os.getShellName "HOME/dir" = ("HOME", 4%nat).
Proof. reflexivity. Qed.
Example getShellName_ex2 : os.getShellName "{HOME}/dir" = ("HOME", 6%nat).
Proof. reflexivity. Qed.
Example getShellName_ex3 : os.getShellName "{}x" = ("", 2%nat).
Proof. reflexivity. Qed.
Example getShellName_ex4 : os.getShellName "{abc" = ("", 1%nat).
Proof. reflexivity. Qed.
Example getShellName_ex5 : os.getShellName "{*}x" = ("*", 3%nat).
Proof. reflexivity. Qed.
Example getShellName_ex6 : os.getShellName "1abc" = ("1", 1%nat).
Proof. reflexivity. Qed.
Example getShellName_ex7 : os.getShellName "/x" = ("", 0%nat).
Proof. reflexivity. Qed.
Example Expand_ex1 :
  os.Expand "$HOME/dir-${USER}$" (λ k, if String.eqb k "HOME" then "/x" else "")
  = "/x/dir-$".
Proof. reflexivity. Qed.
Example Expand_ex2 : os.Expand "a$/b${}c${d" (λ _, "V") = "a$/bcd".
Proof. reflexivity. Qed.
Example getShellName_ex8 : os.getShellName "{}}" = ("", 2%nat).
Proof. reflexivity. Qed.
Example getShellName_ex9 : os.getShellName "{a}}" = ("a", 3%nat).
Proof. reflexivity. Qed.
Example Base_ex1 : filepath.Base "/usr/local/bin/my-app" = "my-app".
Proof. reflexivity. Qed.
Example Base_ex2 : filepath.Base "my-app" = "my-app".
Proof. reflexivity. Qed.
Example Base_ex3 : filepath.Base "" = ".".
Proof. reflexivity. Qed.
Example Base_ex4 : filepath.Base "a/b//" = "b".
Proof. reflexivity. Qed.
Example Base_ex5 : filepath.Base "///" = "/".
Proof. reflexivity. Qed.
Example Join_ex1 : errors.Join [None; None] = None.
Proof. reflexivity. Qed.
Example Join_ex2 :
  errors.Join [None; Some (errorString "a"); None; Some (errorString "b")]
  = Some (joinError [errorString "a"; errorString "b"]).
Proof. reflexivity. Qed.
Example Error_ex1 :
  Error (fmt.Errorf_w "open config file" (PathError "open" "conf-no-perm" os.EACCES))
  = "open config file: open conf-no-perm: permission denied".
Proof. reflexivity. Qed.
Example splitEscape_ex1 : splitEscape "a,b\,c,d" "," "\" = ["a"; "b,c"; "d"].
Proof. reflexivity. Qed.
Example splitEscape_ex2 : splitEscape "" "," "\" = [].
Proof. reflexivity. Qed.
Example splitEscape_ex3 : splitEscape "a\b,\\,c\" "," "\" = ["a\b"; "\,c\"].
Proof. reflexivity. Qed.
Example splitEscape_ex4 : splitEscape ",a," "," "\" = [""; "a"; ""].
Proof. reflexivity. Qed.
(** A NUL byte in the input comes out as a delimiter byte. *)
Example splitEscape_ex5 : splitEscape ("a" +:+ NUL +:+ "b") "," "\" = ["a,b"].
Proof. reflexivity. Qed.

(* ===================================================================== *)
(** * Byte strings: basic facts *)
(* ===================================================================== *)

Lemma app_String (c : ascii) (s t : string) :
  String c s +:+ t = String c (s +:+ t).
Proof. reflexivity. Qed.

Lemma app_empty_l (t : string) : "" +:+ t = t.
Proof. reflexivity. Qed.

Lemma app_empty_r (s : string) : s +:+ "" = s.
Proof. induction s as [|c s IH]; [done|]. by rewrite app_String, IH. Qed.

Lemma app_assoc_s (s t u : string) : (s +:+ t) +:+ u = s +:+ (t +:+ u).
Proof. induction s as [|c s IH]; [done|]. by rewrite !app_String, IH. Qed.

Lemma length_app_s (s t : string) :
  String.length (s +:+ t) = (String.length s + String.length t)%nat.
Proof. induction s as [|c s IH]; [done|]. rewrite app_String. simpl. by rewrite IH. Qed.

Lemma eqb_empty_iff (s : string) : String.eqb s "" = true ↔ s = "".
Proof. apply String.eqb_eq. Qed.

Lemma eqb_empty_false (s : string) : s ≠ "" → String.eqb s "" = false.
Proof. intros. by apply String.eqb_neq. Qed.

Lemma mapBytes_compose (f g : ascii → ascii) (s : string) :
  mapBytes f (mapBytes g s) = mapBytes (λ c, f (g c)) s.
Proof. induction s as [|c s IH]; simpl; [done|]. by rewrite IH. Qed.

Lemma mapBytes_ext (f g : ascii → ascii) (s : string) :
  (∀ c, f c = g c) → mapBytes f s = mapBytes g s.
Proof. intros E. induction s as [|c s IH]; simpl; [done|]. by rewrite E, IH. Qed.

Lemma length_mapBytes (f : ascii → ascii) (s : string) :
  String.length (mapBytes f s) = String.length s.
Proof. induction s as [|c s IH]; simpl; [done|]. by rewrite IH. Qed.

(** Replacing one byte by one byte is a byte-wise map. *)
Lemma ReplaceAll_byte (s : string) (a b : ascii) :
  strings.ReplaceAll s (String a "") (String b "")
  = mapBytes (λ c, if Ascii.eqb c a then b else c) s.
Proof.
  unfold strings.ReplaceAll.
  induction s as [|c s IH]; [done|].
  cbn [strings.replace_from strings.HasPrefix mapBytes String.length Nat.sub].
  destruct (Ascii.eqb c a).
  - destruct s; rewrite app_String, app_empty_l; by rewrite <- IH.
  - by rewrite IH.
Qed.

Lemma ToUpper_mapBytes (s : string) :
  strings.ToUpper s = mapBytes strings.upper_byte s.
Proof. induction s as [|c s IH]; simpl; [done|]. by rewrite IH. Qed.

(* ===================================================================== *)
(** * The environment key of a flag *)
(* ===================================================================== *)

Lemma ToUpper_ReplaceAll_dash (s : string) :
  strings.ToUpper (strings.ReplaceAll s "-" "_") = upperSnake s.
Proof.
  rewrite ReplaceAll_byte, ToUpper_mapBytes, mapBytes_compose.
  apply mapBytes_ext. intros c. unfold upperSnakeByte.
  by destruct (Ascii.eqb c "-").
Qed.

(** The two steps commute: upper-casing first and replacing second gives
    the same key part. *)
Lemma ReplaceAll_dash_ToUpper (s : string) :
  strings.ReplaceAll (strings.ToUpper s) "-" "_" = upperSnake s.
Proof.
  rewrite ReplaceAll_byte, ToUpper_mapBytes, mapBytes_compose.
  apply mapBytes_ext. intros c. unfold upperSnakeByte, strings.upper_byte.
  destruct (Ascii.eqb_spec c "-") as [->|Hne]; [done|].
  destruct (Ascii.leb "a" c && Ascii.leb c "z")%bool eqn:E; [|
    by destruct (Ascii.eqb_spec c "-")].
  destruct c as [[] [] [] [] [] [] [] []]; try discriminate E; done.
Qed.

Lemma envKeyForFlag_unfold (prefix name : string) :
  envKeyForFlag prefix name =
    if String.eqb prefix "" then upperSnake name
    else upperSnake prefix +:+ "_" +:+ upperSnake name.
Proof. unfold envKeyForFlag. by rewrite !ToUpper_ReplaceAll_dash. Qed.

(** No byte of a key part is a dash or a lower-case ASCII letter. *)
Lemma upperSnakeByte_range (c : ascii) :
  upperSnakeByte c ≠ "-"%char ∧
  (Ascii.leb "a" (upperSnakeByte c) && Ascii.leb (upperSnakeByte c) "z")%bool = false.
Proof. by destruct c as [[] [] [] [] [] [] [] []]. Qed.

(** C6. For every prefix and flag name the environment key is the prefix
    and the name, each upper-cased with every dash turned into an
    underscore ([upperThenSnake], with [strings.ToUpper] and
    [strings.ReplaceAll] in the order of the words), joined by one
    underscore; with an empty prefix it is the transformed name alone,
    with no leading underscore.  For a prefix and a name of ASCII bytes
    the transformation is byte by byte ([upperSnake]: a letter in upper
    case, a dash as an underscore, any other byte as it is), so that the
    key is as long as the prefix, the underscore and the name.  A flag set
    named [my-app] and the flag [some-string] give [MY_APP_SOME_STRING]. *)
Theorem C6_envKeyForFlag :
  (∀ prefix name, prefix ≠ "" →
     envKeyForFlag prefix name
     = upperThenSnake prefix +:+ "_" +:+ upperThenSnake name)
  ∧ (∀ name, envKeyForFlag "" name = upperThenSnake name)
  ∧ (∀ prefix name,
       isASCII prefix = true → isASCII name = true → prefix ≠ "" →
       envKeyForFlag prefix name = upperSnake prefix +:+ "_" +:+ upperSnake name
       ∧ String.length (envKeyForFlag prefix name)
         = (String.length prefix + 1 + String.length name)%nat)
  ∧ (∀ name, isASCII name = true →
             envKeyForFlag "" name = upperSnake name
             ∧ String.length (envKeyForFlag "" name) = String.length name)
  ∧ envKeyForFlag "my-app" "some-string" = "MY_APP_SOME_STRING"
  ∧ envKeyForFlag "" "some-string" = "SOME_STRING"
  ∧ (∀ (V : Type) (fl : flag.FlagSet V), flag.name fl = "/usr/bin/my-app" →
       envKeyForFlag (defaultReadEnvPrefix fl) "some-string"
       = "MY_APP_SOME_STRING").
Proof.
  split; [|split; [|split; [|split; [|split; [|split]]]]].
  - intros prefix name Hne. unfold upperThenSnake.
    by rewrite envKeyForFlag_unfold, eqb_empty_false, !ReplaceAll_dash_ToUpper.
  - intros name. unfold upperThenSnake.
    by rewrite envKeyForFlag_unfold, ReplaceAll_dash_ToUpper.
  - intros prefix name _ _ Hne.
    rewrite envKeyForFlag_unfold, eqb_empty_false by done.
    split; [done|].
    rewrite !length_app_s. unfold upperSnake. rewrite !length_mapBytes.
    simpl. lia.
  - intros name _. rewrite envKeyForFlag_unfold. simpl.
    split; [done|]. unfold upperSnake. by rewrite length_mapBytes.
  - reflexivity.
  - reflexivity.
  - intros V fl Hn. unfold defaultReadEnvPrefix. rewrite Hn. reflexivity.
Qed.

Lemma C6_envKeyForFlag_witness :
  envKeyForFlag "my-app" "some-flag"
  = upperThenSnake "my-app" +:+ "_" +:+ upperThenSnake "some-flag"
  ∧ envKeyForFlag "my-app" "some-flag" = "MY_APP" +:+ "_" +:+ "SOME_FLAG"
  ∧ String.length (envKeyForFlag "my-app" "some-flag") = 16%nat
  ∧ envKeyForFlag "" "Some_flag-2" = "SOME_FLAG_2"
  ∧ envKeyForFlag (defaultReadEnvPrefix myAppFlags) "some-string"
    = "MY_APP_SOME_STRING".
Proof.
  destruct C6_envKeyForFlag as (H1 & _ & H3 & H4 & _ & _ & H7).
  split; [exact (H1 "my-app" "some-flag" ltac:(discriminate))|].
  destruct (H3 "my-app" "some-flag" eq_refl eq_refl ltac:(discriminate))
    as [E L].
  split; [exact E|]. split; [exact L|].
  split; [exact (proj1 (H4 "Some_flag-2" eq_refl))|].
  apply H7. reflexivity.
Defined.

(* ===================================================================== *)
(** * The environment snapshot *)
(* ===================================================================== *)

Lemma HasPrefix_byte (c a : ascii) (s : string) :
  strings.HasPrefix (String c s) (String a "") = Ascii.eqb c a.
Proof. simpl. by destruct (Ascii.eqb c a), s. Qed.

(** Without the separator in it, an entry is not cut. *)
Lemma Cut_absent (s : string) (a : ascii) :
  hasByte s a = false → strings.Cut s (String a "") = (s, "", false).
Proof.
  induction s as [|c s IH]; [done|].
  unfold hasByte. cbn [strings.containsByte]. rewrite Ascii.eqb_sym.
  intros [Hc Hs]%orb_false_elim.
  change (strings.Cut (String c s) (String a ""))
    with (if strings.HasPrefix (String c s) (String a "")
          then ("", strings.drop 1 (String c s), true)
          else let '(before, after, found) := strings.Cut s (String a "") in
               if found then (String c before, after, true)
               else (String c s, "", false)).
  rewrite HasPrefix_byte, Hc, IH by done. done.
Qed.

(** The first separator of [k ++ sep ++ v] is the one after [k] when [k]
    holds none. *)
Lemma Cut_first (k v : string) (a : ascii) :
  hasByte k a = false →
  strings.Cut (k +:+ String a v) (String a "") = (k, v, true).
Proof.
  induction k as [|c k IH].
  - intros _. rewrite app_empty_l.
    change (strings.Cut (String a v) (String a ""))
      with (if strings.HasPrefix (String a v) (String a "")
            then ("", strings.drop 1 (String a v), true)
            else let '(before, after, found) := strings.Cut v (String a "") in
                 if found then (String a before, after, true)
                 else (String a v, "", false)).
    by rewrite HasPrefix_byte, Ascii.eqb_refl.
  - unfold hasByte. cbn [strings.containsByte]. rewrite Ascii.eqb_sym.
    intros [Hc Hs]%orb_false_elim. rewrite app_String.
    change (strings.Cut (String c (k +:+ String a v)) (String a ""))
      with (if strings.HasPrefix (String c (k +:+ String a v)) (String a "")
            then ("", strings.drop 1 (String c (k +:+ String a v)), true)
            else let '(before, after, found) :=
                   strings.Cut (k +:+ String a v) (String a "") in
                 if found then (String c before, after, true)
                 else (String c (k +:+ String a v), "", false)).
    rewrite HasPrefix_byte, Hc, IH by done. done.
Qed.

Lemma genEnvMap_foldl (env : list string) :
  genEnvMap env = foldl envEntry ∅ env.
Proof. reflexivity. Qed.

Lemma genEnvMap_skip (env1 env2 : list string) (en : string) :
  hasByte en "=" = false →
  genEnvMap (env1 ++ en :: env2) = genEnvMap (env1 ++ env2).
Proof.
  intros H.
  rewrite (genEnvMap_foldl (env1 ++ en :: env2)), (genEnvMap_foldl (env1 ++ env2)).
  rewrite (foldl_app _ env1 (en :: env2)), (foldl_app _ env1 env2).
  cbn [foldl]. f_equal.
  unfold envEntry at 1. by rewrite (Cut_absent en "=" H).
Qed.

Lemma genEnvMap_last (env : list string) (k v : string) :
  hasByte k "=" = false →
  genEnvMap (env ++ [k +:+ "=" +:+ v]) = <[k := v]> (genEnvMap env).
Proof.
  intros H.
  rewrite (genEnvMap_foldl (env ++ _)), (genEnvMap_foldl env), foldl_app.
  cbn [foldl]. unfold envEntry at 1.
  change (k +:+ "=" +:+ v) with (k +:+ String "=" v).
  by rewrite (Cut_first k v "=" H).
Qed.

(** C10. An entry of the environment list with no [=] in it is ignored: the
    snapshot is the one built without the entry, so the entry creates no
    key, and both resolvers behave as if it were not there (it supplies no
    flag value and no expansion).  An entry [K=] maps [K] to the empty
    string. *)
Theorem C10_genEnvMap_entries :
  (∀ env1 env2 en, hasByte en "=" = false →
     genEnvMap (env1 ++ en :: env2) = genEnvMap (env1 ++ env2)
     ∧ (∀ s, expandWith (genEnvMap (env1 ++ en :: env2)) s
             = expandWith (genEnvMap (env1 ++ env2)) s)
     ∧ (∀ (V : Type) (HV : flag.Value V) ReadEnvPrefix (fl : flag.FlagSet V),
          ParseEnvSet ReadEnvPrefix fl (env1 ++ en :: env2)
          = ParseEnvSet ReadEnvPrefix fl (env1 ++ env2))
     ∧ (∀ (V : Type) (HV : flag.Value V) fs (fl : flag.FlagSet V) path,
          ParseConfigSet fs fl (env1 ++ en :: env2) path
          = ParseConfigSet fs fl (env1 ++ env2) path))
  ∧ (∀ en, hasByte en "=" = false → genEnvMap [en] = ∅)
  ∧ (∀ env K, hasByte K "=" = false →
       genEnvMap (env ++ [K +:+ "="]) !! K = Some "").
Proof.
  split; [|split].
  - intros env1 env2 en H. pose proof (genEnvMap_skip env1 env2 en H) as E.
    split; [exact E|]. split; [|split].
    + intros s. by rewrite E.
    + intros V HV R fl. unfold ParseEnvSet. by rewrite E.
    + intros V HV fs fl path. unfold ParseConfigSet. by rewrite E.
  - intros en H. apply (genEnvMap_skip [] [] en H).
  - intros env K H.
    replace (K +:+ "=") with (K +:+ "=" +:+ "") by (by rewrite app_empty_r).
    rewrite genEnvMap_last by done. apply lookup_insert_eq.
Qed.

Lemma C10_genEnvMap_entries_witness :
  genEnvMap (["A=1"] ++ "JUNK" :: ["B=2"]) = genEnvMap (["A=1"] ++ ["B=2"])
  ∧ genEnvMap ["JUNK"] = ∅
  ∧ genEnvMap (["K=v"] ++ ["K" +:+ "="]) !! "K" = Some "".
Proof.
  destruct C10_genEnvMap_entries as (H1 & H2 & H3).
  split; [|split].
  - apply (H1 ["A=1"] ["B=2"] "JUNK"). reflexivity.
  - apply (H2 "JUNK"). reflexivity.
  - apply (H3 ["K=v"] "K"). reflexivity.
Defined.

(* ===================================================================== *)
(** * The list splitter *)
(* ===================================================================== *)

Lemma markEscapes_cons (c : ascii) (r : string) :
  markEscapes (String c r) =
    if Ascii.eqb c "\" then
      match r with
      | String d r' =>
          if Ascii.eqb d "," then String "000" (markEscapes r')
          else String c (markEscapes r)
      | EmptyString => String c EmptyString
      end
    else String c (markEscapes r).
Proof.
  unfold markEscapes, strings.ReplaceAll.
  cbn [strings.replace_from strings.HasPrefix String.length Nat.sub].
  destruct (Ascii.eqb c "\"); [|done].
  destruct r as [|d r']; [reflexivity|].
  rewrite HasPrefix_byte.
  destruct (Ascii.eqb d ","); [|done].
  reflexivity.
Qed.

Lemma split_comma_cons (c : ascii) (x : string) :
  strings.split_from "," 0 (String c x) =
    if Ascii.eqb c "," then
      let '(t, ts) := strings.split_from "," 0 x in (EmptyString, t :: ts)
    else
      let '(t, ts) := strings.split_from "," 0 x in (String c t, ts).
Proof.
  cbn [strings.split_from String.length Nat.sub]. rewrite HasPrefix_byte.
  by destruct (Ascii.eqb c ",").
Qed.

Lemma unmark_mapBytes (t : string) :
  unmark t = mapBytes (λ c, if Ascii.eqb c "000" then ","%char else c) t.
Proof. apply ReplaceAll_byte. Qed.

Lemma unmark_cons (c : ascii) (t : string) :
  unmark (String c t) = String (if Ascii.eqb c "000" then ","%char else c) (unmark t).
Proof. by rewrite !unmark_mapBytes. Qed.

(** The marked and split string has the tokens of [unescapedFrom], up to
    the unmarking pass. *)
Lemma split_markEscapes (n : nat) : ∀ s, (String.length s ≤ n)%nat →
  let '(t, ts) := strings.split_from "," 0 (markEscapes s) in
  let '(t', ts') := unescapedFrom s in
  unmark t = unmark t' ∧ unmark <$> ts = unmark <$> ts'.
Proof.
  induction n as [|n IH]; intros [|c r] Hlen; simpl in Hlen; try lia; [done|done|].
  rewrite markEscapes_cons. cbn [unescapedFrom].
  destruct (Ascii.eqb_spec c "\") as [->|Hc].
  - destruct r as [|d r']; [done|].
    destruct (Ascii.eqb_spec d ",") as [->|Hd].
    + rewrite split_comma_cons. simpl in Hlen.
      specialize (IH r' ltac:(lia)).
      change (Ascii.eqb "000" ",") with false. cbv iota.
      destruct (strings.split_from "," 0 (markEscapes r')) as [t ts].
      destruct (unescapedFrom r') as [t' ts'].
      destruct IH as [E1 E2]. rewrite !unmark_cons, E1. by split.
    + rewrite split_comma_cons.
      specialize (IH (String d r') ltac:(lia)).
      change (Ascii.eqb "\" ",") with false. cbv iota.
      destruct (strings.split_from "," 0 (markEscapes (String d r'))) as [t ts].
      destruct (unescapedFrom (String d r')) as [t' ts'].
      destruct IH as [E1 E2]. rewrite !unmark_cons, E1. by split.
  - rewrite split_comma_cons. specialize (IH r ltac:(lia)).
    destruct (strings.split_from "," 0 (markEscapes r)) as [t ts].
    destruct (unescapedFrom r) as [t' ts'].
    destruct IH as [E1 E2].
    destruct (Ascii.eqb c ",").
    + split; [done|]. by rewrite !fmap_cons, E1, E2.
    + by rewrite !unmark_cons, E1.
Qed.

(** [splitEscape] on the call site's delimiter and escape marker. *)
Lemma splitEscape_unescaped (s : string) :
  s ≠ "" →
  splitEscape s "," "\" =
    unmark <$> (let '(t, ts) := unescapedFrom s in t :: ts).
Proof.
  intros Hne. unfold splitEscape. rewrite eqb_empty_false by done.
  unfold strings.Split.
  change (strings.ReplaceAll s ("\" +:+ ",") NUL) with (markEscapes s).
  pose proof (split_markEscapes (String.length s) s ltac:(lia)) as H.
  destruct (strings.split_from "," 0 (markEscapes s)) as [t ts].
  destruct (unescapedFrom s) as [t' ts']. destruct H as [E1 E2].
  rewrite !fmap_cons. fold (unmark t). rewrite E1. f_equal. exact E2.
Qed.

Lemma noNUL_cons (c : ascii) (s : string) :
  noNUL (String c s) ↔ c ≠ "000"%char ∧ noNUL s.
Proof.
  unfold noNUL, hasByte. cbn [strings.containsByte].
  rewrite orb_false_iff, Ascii.eqb_sym.
  split; intros [H1 H2]; (split; [|done]).
  - by apply Ascii.eqb_neq.
  - by apply Ascii.eqb_neq.
Qed.

Lemma unmark_noNUL (t : string) : noNUL t → unmark t = t.
Proof.
  induction t as [|c t IH]; [done|].
  intros [Hc Ht]%noNUL_cons. rewrite unmark_cons, IH by done.
  by apply Ascii.eqb_neq in Hc as ->.
Qed.

Lemma unescapedFrom_noNUL (n : nat) : ∀ s, (String.length s ≤ n)%nat →
  noNUL s →
  noNUL (unescapedFrom s).1 ∧ Forall noNUL (unescapedFrom s).2.
Proof.
  induction n as [|n IH]; intros [|c r] Hlen Hs; simpl in Hlen; try lia;
    [by split|by split|].
  apply noNUL_cons in Hs as [Hc Hr]. cbn [unescapedFrom].
  destruct (Ascii.eqb_spec c "\") as [->|Hc'].
  - destruct r as [|d r']; [split; [by apply noNUL_cons|constructor]|].
    destruct (Ascii.eqb_spec d ",") as [->|Hd].
    + apply noNUL_cons in Hr as [_ Hr']. simpl in Hlen.
      destruct (IH r' ltac:(lia) Hr') as [H1 H2].
      destruct (unescapedFrom r') as [t ts]. split; [|done].
      by apply noNUL_cons.
    + destruct (IH (String d r') ltac:(lia) Hr) as [H1 H2].
      destruct (unescapedFrom (String d r')) as [t ts]. split; [|done].
      by apply noNUL_cons.
  - destruct (IH r ltac:(lia) Hr) as [H1 H2].
    destruct (unescapedFrom r) as [t ts].
    destruct (Ascii.eqb c ",").
    + split; [done|]. by constructor.
    + split; [|done]. by apply noNUL_cons.
Qed.

Lemma splitEscape_spec (s : string) :
  noNUL s → splitEscape s "," "\" = splitUnescaped s.
Proof.
  intros Hs. unfold splitUnescaped.
  destruct (String.eqb_spec s "") as [->|Hne]; [done|].
  rewrite splitEscape_unescaped by done.
  destruct (unescapedFrom_noNUL (String.length s) s ltac:(lia) Hs) as [H1 H2].
  destruct (unescapedFrom s) as [t ts]. simpl in H1, H2.
  rewrite fmap_cons, unmark_noNUL by done. f_equal.
  induction H2 as [|x l Hx Hl IH]; [done|].
  by rewrite fmap_cons, unmark_noNUL, IH.
Qed.

(** A string with no delimiter in it is one token, whatever escape markers
    it holds. *)
Lemma unescapedFrom_no_delim (n : nat) : ∀ s, (String.length s ≤ n)%nat →
  hasByte s "," = false → unescapedFrom s = (s, []).
Proof.
  induction n as [|n IH]; intros [|c r] Hlen Hs; simpl in Hlen; try lia;
    [done|done|].
  unfold hasByte in Hs. cbn [strings.containsByte] in Hs.
  apply orb_false_elim in Hs as [Hc Hr]. rewrite Ascii.eqb_sym in Hc.
  cbn [unescapedFrom]. rewrite Hc.
  destruct (Ascii.eqb c "\").
  - destruct r as [|d r']; [done|].
    assert (Ascii.eqb d "," = false) as ->.
    { cbn [strings.containsByte] in Hr. apply orb_false_elim in Hr as [Hd _].
      by rewrite Ascii.eqb_sym. }
    by rewrite (IH (String d r')) by (done || lia).
  - by rewrite (IH r) by (done || lia).
Qed.

(* ===================================================================== *)
(** * Visiting a flag set *)
(* ===================================================================== *)

Lemma elem_of_sortFlags (X : gset string) (p : string) :
  p ∈ flag.sortFlags X ↔ p ∈ X.
Proof.
  unfold flag.sortFlags. rewrite merge_sort_Permutation. apply elem_of_elements.
Qed.

Lemma NoDup_sortFlags (X : gset string) : NoDup (flag.sortFlags X).
Proof.
  unfold flag.sortFlags. rewrite merge_sort_Permutation. apply NoDup_elements.
Qed.

Lemma Join_Some (errs : list error) :
  errors.Join (Some <$> errs) =
    match errs with [] => None | _ => Some (joinError errs) end.
Proof.
  unfold errors.Join.
  assert (omap id (Some <$> errs) = errs) as ->; [|by destruct errs].
  induction errs as [|e errs IH]; [done|]. rewrite fmap_cons. simpl.
  f_equal. exact IH.
Qed.

Lemma Join_omap {A} (f : A → option error) (l : list A) :
  errors.Join (Some <$> omap f l) = errors.Join (f <$> l).
Proof.
  unfold errors.Join.
  assert (omap id (Some <$> omap f l) = omap id (f <$> l)) as ->; [|done].
  induction l as [|x l IH]; [done|]. rewrite fmap_cons.
  change (omap f (x :: l)) with (match f x with Some y => y :: omap f l | None => omap f l end).
  change (omap id (f x :: (f <$> l))) with (match f x with Some y => y :: omap id (f <$> l) | None => omap id (f <$> l) end).
  destruct (f x); [|done]. rewrite fmap_cons. 
  change (omap id (Some e :: (Some <$> omap f l))) with (e :: omap id (Some <$> omap f l)).
  by rewrite IH.
Qed.

Section visiting.
Context {V : Type} `{!flag.Value V}.
Implicit Types (fl : flag.FlagSet V) (st : visitState) (p : string).

Lemma set_formal_id fl : flag.set_formal fl (flag.formal fl) = fl.
Proof. by destruct fl. Qed.

(** ** [getSetFlags] *)

Lemma getSetFlags_foldl fl (l : list string) (m : gset string) :
  foldl (flag.visit (λ (f : flag.Flag V) (m : gset string),
                       (f, {[flag.Name f]} ∪ m))) (fl, m) l
  = (fl, m ∪ list_to_set (filter (λ p, p ∈ dom (flag.formal fl)) l)).
Proof.
  revert m. induction l as [|p l IH]; intros m.
  - simpl. f_equal. set_solver.
  - cbn [foldl]. unfold flag.visit at 2.
    destruct (flag.formal fl !! p) as [v|] eqn:E.
    + cbn [flag.Flag_Value flag.Name]. rewrite insert_id, set_formal_id by done.
      rewrite IH. f_equal. rewrite filter_cons_True by (by apply elem_of_dom).
      set_solver.
    + rewrite IH. f_equal.
      rewrite filter_cons_False; [done|].
      intros Hd%elem_of_dom. rewrite E in Hd. by apply is_Some_None in Hd.
Qed.

(** The names [getSetFlags] collects are those of the flags that the
    registry's own tracking reports as set. *)
Lemma elem_of_getSetFlags fl p :
  p ∈ getSetFlags fl ↔ p ∈ flag.actual fl ∧ p ∈ dom (flag.formal fl).
Proof.
  unfold getSetFlags, flag.Visit. rewrite getSetFlags_foldl. simpl.
  rewrite elem_of_union, elem_of_list_to_set, list_elem_of_filter,
    elem_of_sortFlags.
  set_solver.
Qed.

(** ** Applying a list of values to one flag *)

Lemma foldl_setValue (vs : list string) : ∀ (f : flag.Flag V) st,
  foldl setValue (f, st) vs =
    ({| flag.Name := flag.Name f;
        flag.Flag_Value := (setAll (flag.Name f) (flag.Flag_Value f) vs).1 |},
     {| flagErrs := flagErrs st
                    ++ omap call_err (setAll (flag.Name f) (flag.Flag_Value f) vs).2;
        calls := calls st ++ (setAll (flag.Name f) (flag.Flag_Value f) vs).2 |}).
Proof.
  induction vs as [|v vs IH]; intros f st.
  - simpl. rewrite !app_nil_r. by destruct f, st.
  - cbn [foldl setAll]. unfold setValue at 2.
    destruct (flag.Value_Set (flag.Flag_Value f) v) as [val err] eqn:E.
    rewrite IH. cbn [flag.Name flag.Flag_Value flagErrs calls].
    destruct (setAll (flag.Name f) val vs) as [val'' cs] eqn:E'.
    cbn [fst snd]. f_equal. f_equal.
    + destruct err; simpl; by rewrite <- ?app_assoc.
    + by rewrite <- app_assoc.
Qed.

Lemma setAll_flag p val vs :
  Forall (λ c, call_flag c = p) (setAll p val vs).2.
Proof.
  revert val. induction vs as [|v vs IH]; intros val; simpl; [constructor|].
  destruct (flag.Value_Set val v) as [val' err].
  specialize (IH val'). destruct (setAll p val' vs) as [val'' cs].
  simpl in *. by constructor.
Qed.

Lemma setAll_args p val vs : call_arg <$> (setAll p val vs).2 = vs.
Proof.
  revert val. induction vs as [|v vs IH]; intros val; cbn [setAll]; [done|].
  destruct (flag.Value_Set val v) as [val' err].
  specialize (IH val'). destruct (setAll p val' vs) as [val'' cs].
  cbn [snd] in *. by rewrite fmap_cons, IH.
Qed.

(** ** The callback both resolvers pass to [VisitAll] *)

Lemma visit_applyValues SF values (flags : gmap string V) (l : list string) :
  NoDup l → ∀ fl st,
  (∀ p, p ∈ l → flag.formal fl !! p = flags !! p) →
  foldl (flag.visit (applyValues SF values)) (fl, st) l =
    (flag.set_formal fl (finalFlags SF values flags l (flag.formal fl)),
     {| flagErrs := flagErrs st
                    ++ omap call_err (concat (flagCalls SF values flags <$> l));
        calls := calls st ++ concat (flagCalls SF values flags <$> l) |}).
Proof.
  induction 1 as [|p l Hp Hl IH]; intros fl st Hfl.
  - simpl. rewrite !app_nil_r, set_formal_id. by destruct st.
  - cbn [foldl]. unfold flag.visit at 2.
    rewrite fmap_cons. cbn [concat finalFlags foldl].
    assert (flag.formal fl !! p = flags !! p) as Ep by (apply Hfl; left).
    unfold flagCalls at 1 3. rewrite Ep.
    destruct (flags !! p) as [val|] eqn:E.
    + unfold applyValues. cbn [flag.Name]. unfold flagFinal.
      destruct (decide (p ∈ SF)) as [Hin|Hin].
      * cbn [flag.Flag_Value]. rewrite IH.
        -- by destruct fl.
        -- intros q Hq. cbn [flag.set_formal flag.formal].
           rewrite lookup_insert_ne by (intros ->; done).
           apply Hfl. by right.
      * rewrite foldl_setValue. cbn [flag.Name flag.Flag_Value].
        rewrite IH.
        -- cbn [flagErrs calls]. rewrite omap_app, <- !app_assoc. by destruct fl.
        -- intros q Hq. cbn [flag.set_formal flag.formal].
           rewrite lookup_insert_ne by (intros ->; done).
           apply Hfl. by right.
    + rewrite IH; [done|]. intros q Hq. apply Hfl. by right.
Qed.

Lemma finalFlags_cons SF values (flags : gmap string V) p (l : list string) m :
  finalFlags SF values flags (p :: l) m =
    finalFlags SF values flags l
      (match flags !! p with
       | Some val => <[p := flagFinal SF values p val]> m
       | None => m
       end).
Proof. reflexivity. Qed.

Lemma finalFlags_lookup SF values (flags : gmap string V) (l : list string) :
  NoDup l → ∀ (m : gmap string V) q,
  finalFlags SF values flags l m !! q =
    if decide (q ∈ l) then
      match flags !! q with
      | Some val => Some (flagFinal SF values q val)
      | None => m !! q
      end
    else m !! q.
Proof.
  induction 1 as [|p l Hp Hl IH]; intros m q.
  - simpl. destruct (decide (q ∈ [])) as [Hq|_]; [by apply elem_of_nil in Hq|done].
  - rewrite finalFlags_cons, IH. destruct (decide (q = p)) as [->|Hne].
    + rewrite decide_False by done. rewrite decide_True by left.
      destruct (flags !! p); [by rewrite lookup_insert_eq|done].
    + destruct (decide (q ∈ l)) as [Hq|Hq].
      * rewrite decide_True by (by right).
        destruct (flags !! q); [done|].
        destruct (flags !! p); [by rewrite lookup_insert_ne|done].
      * rewrite decide_False by (by intros [?|?]%elem_of_cons).
        destruct (flags !! p); [by rewrite lookup_insert_ne|done].
Qed.

(** [VisitAll] with [applyValues]: every defined flag ends with
    [flagFinal] of what it held, and the calls are those of the flags in
    lexicographical order. *)
Lemma VisitAll_applyValues SF values fl st :
  flag.VisitAll fl (applyValues SF values) st =
    (flag.set_formal fl (map_imap (λ p val, Some (flagFinal SF values p val))
                                  (flag.formal fl)),
     {| flagErrs := flagErrs st
          ++ omap call_err
               (concat (flagCalls SF values (flag.formal fl)
                          <$> flag.sortFlags (dom (flag.formal fl))));
        calls := calls st
          ++ concat (flagCalls SF values (flag.formal fl)
                       <$> flag.sortFlags (dom (flag.formal fl))) |}).
Proof.
  unfold flag.VisitAll.
  rewrite (visit_applyValues SF values (flag.formal fl)) by
    (done || apply NoDup_sortFlags).
  f_equal. f_equal. apply map_eq. intros q.
  rewrite finalFlags_lookup by apply NoDup_sortFlags.
  rewrite map_lookup_imap.
  destruct (decide (q ∈ flag.sortFlags (dom (flag.formal fl)))) as [Hq|Hq].
  - by destruct (flag.formal fl !! q).
  - rewrite elem_of_sortFlags, not_elem_of_dom in Hq. by rewrite Hq.
Qed.

End visiting.

(* ===================================================================== *)
(** * The two resolvers, flag by flag *)
(* ===================================================================== *)

Lemma foldl_ext_in {A B} (f g : A → B → A) (l : list B) :
  (∀ a x, x ∈ l → f a x = g a x) → ∀ a, foldl f a l = foldl g a l.
Proof.
  induction l as [|x l IH]; intros E a; [done|].
  cbn [foldl]. rewrite E by left. apply IH. intros ???. apply E. by right.
Qed.

Lemma list_fmap_ext_in {A B} (f g : A → B) (l : list A) :
  (∀ x, x ∈ l → f x = g x) → f <$> l = g <$> l.
Proof. intros E. apply Forall_fmap_ext_1, Forall_forall, E. Qed.

Lemma elem_of_concat {A} (x : A) (ls : list (list A)) :
  x ∈ concat ls ↔ ∃ l, x ∈ l ∧ l ∈ ls.
Proof.
  induction ls as [|l0 ls IH]; cbn [concat].
  - split; [by intros ?%elem_of_nil|]. by intros (l & _ & ?%elem_of_nil).
  - rewrite elem_of_app, IH. split.
    + intros [H|(l & H1 & H2)]; [exists l0; split; [done|left]|].
      exists l. split; [done|by right].
    + intros (l & H1 & [->|H2]%elem_of_cons); [by left|]. right. eauto.
Qed.

Section resolvers.
Context {V : Type} `{!flag.Value V}.
Implicit Types (fl : flag.FlagSet V) (p : string).

(** Callbacks that agree on the defined flags are visited alike. *)
Lemma VisitAll_ext {S} fl (fn1 fn2 : flag.Flag V → S → flag.Flag V * S) s :
  (∀ f s, flag.Name f ∈ dom (flag.formal fl) → fn1 f s = fn2 f s) →
  flag.VisitAll fl fn1 s = flag.VisitAll fl fn2 s.
Proof.
  intros E. unfold flag.VisitAll. apply foldl_ext_in.
  intros [fl' s'] p Hp%elem_of_sortFlags. unfold flag.visit.
  destruct (flag.formal fl' !! p); [|done]. by rewrite E.
Qed.

Lemma VisitAll_pass fl (values : string → list string)
    (fn : flag.Flag V → visitState → flag.Flag V * visitState) :
  (∀ f st, fn f st = applyValues (getSetFlags fl) values f st) →
  (let '(fl', st) := flag.VisitAll fl fn {| flagErrs := []; calls := [] |} in
   finish fl' (calls st) (errors.Join (Some <$> flagErrs st)))
  = pass fl values.
Proof.
  intros E.
  rewrite (VisitAll_ext fl fn (applyValues (getSetFlags fl) values)) by auto.
  rewrite VisitAll_applyValues. cbn [flagErrs calls app].
  by rewrite Join_omap.
Qed.

Lemma ParseEnvSet_pass ReadEnvPrefix fl env :
  ParseEnvSet ReadEnvPrefix fl env
  = pass fl (envValues (ReadEnvPrefix fl) (genEnvMap env)).
Proof.
  unfold ParseEnvSet. apply VisitAll_pass.
  intros f st. unfold applyValues, envValues.
  destruct (decide (flag.Name f ∈ getSetFlags fl)); [done|].
  by rewrite foldl_fmap.
Qed.

Lemma ParseConfigSet_pass fs fl env path file :
  path ≠ "" →
  fs (expandWith (genEnvMap env) path) = Opened file →
  ScanErr file = None →
  ParseConfigSet fs fl env path
  = pass fl (configValues (genEnvMap env) (scanConfig (Lines file))).
Proof.
  intros Hp Hopen Hscan. unfold ParseConfigSet.
  rewrite eqb_empty_false, Hopen, Hscan by done.
  apply VisitAll_pass.
  intros f st. unfold applyValues, configValues.
  destruct (decide (flag.Name f ∈ getSetFlags fl)); [done|].
  by rewrite foldl_fmap.
Qed.

(** ** What [finish] leaves *)

Lemma finish_calls fl log err : res_calls (finish fl log err) = log.
Proof.
  unfold finish, mimicFlagSetError. destruct err as [e|]; [|done].
  by destruct (flag.Usage _), (flag.errorHandling _).
Qed.

Lemma finish_formal fl log err :
  flag.formal (res_flags (finish fl log err)) = flag.formal fl.
Proof.
  unfold finish, mimicFlagSetError. destruct err as [e|]; [|done].
  destruct fl as [n fo ac eh out us]. by destruct us, eh.
Qed.

Lemma finish_actual fl log err :
  flag.actual (res_flags (finish fl log err)) = flag.actual fl.
Proof.
  unfold finish, mimicFlagSetError. destruct err as [e|]; [|done].
  destruct fl as [n fo ac eh out us]. by destruct us, eh.
Qed.

Lemma finish_name fl log err :
  flag.name (res_flags (finish fl log err)) = flag.name fl.
Proof.
  unfold finish, mimicFlagSetError. destruct err as [e|]; [|done].
  destruct fl as [n fo ac eh out us]. by destruct us, eh.
Qed.

Lemma finish_outcome fl log err :
  res_outcome (finish fl log err) = ending (flag.errorHandling fl) err.
Proof.
  unfold finish, mimicFlagSetError, ending. destruct err as [e|]; [|done].
  destruct fl as [n fo ac eh out us]. by destruct us, eh.
Qed.

Lemma finish_None fl log :
  finish fl log None
  = {| res_flags := fl; res_calls := log; res_outcome := Return None |}.
Proof. reflexivity. Qed.

(** ** What a pass leaves *)

Lemma pass_calls fl values :
  res_calls (pass fl values)
  = concat (flagCalls (getSetFlags fl) values (flag.formal fl)
              <$> flag.sortFlags (dom (flag.formal fl))).
Proof. unfold pass. by rewrite finish_calls. Qed.

Lemma pass_formal fl values p :
  flag.formal (res_flags (pass fl values)) !! p
  = flagFinal (getSetFlags fl) values p <$> flag.formal fl !! p.
Proof.
  unfold pass. rewrite finish_formal. cbn [flag.set_formal flag.formal].
  rewrite map_lookup_imap. by destruct (flag.formal fl !! p).
Qed.

Lemma pass_actual fl values :
  flag.actual (res_flags (pass fl values)) = flag.actual fl.
Proof. unfold pass. by rewrite finish_actual. Qed.

Lemma pass_dom fl values :
  dom (flag.formal (res_flags (pass fl values))) = dom (flag.formal fl).
Proof.
  apply set_eq. intros p. rewrite !elem_of_dom, pass_formal.
  by rewrite fmap_is_Some.
Qed.

Lemma pass_outcome fl values :
  res_outcome (pass fl values)
  = ending (flag.errorHandling fl)
           (errors.Join (call_err <$> res_calls (pass fl values))).
Proof. rewrite pass_calls. unfold pass. by rewrite finish_outcome. Qed.

(** A call in the log of a pass is one of the calls for its flag. *)
Lemma elem_of_pass_calls fl values (c : call) :
  c ∈ res_calls (pass fl values) ↔
  ∃ val, flag.formal fl !! call_flag c = Some val
         ∧ (call_flag c ∉ getSetFlags fl)
         ∧ c ∈ (setAll (call_flag c) val (values (call_flag c))).2.
Proof.
  rewrite pass_calls, elem_of_concat. split.
  - intros (cs & Hc & (p & -> & Hp)%list_elem_of_fmap).
    unfold flagCalls in Hc.
    destruct (flag.formal fl !! p) as [val|] eqn:E; [|by apply elem_of_nil in Hc].
    destruct (decide (p ∈ getSetFlags fl)); [by apply elem_of_nil in Hc|].
    pose proof (setAll_flag p val (values p)) as HF.
    rewrite Forall_forall in HF. specialize (HF c Hc). subst p. eauto.
  - intros (val & E & Hn & Hc).
    exists (flagCalls (getSetFlags fl) values (flag.formal fl) (call_flag c)).
    split.
    + unfold flagCalls. rewrite E. by rewrite decide_False.
    + apply list_elem_of_fmap. eexists; split; [done|].
      apply elem_of_sortFlags, elem_of_dom. eauto.
Qed.

End resolvers.

Section plans.
Context {V : Type} `{!flag.Value V}.
Implicit Types (fl : flag.FlagSet V) (p : string).

Lemma setAll_sites p (val : V) vs :
  callSite <$> (setAll p val vs).2 = (λ v, (p, v)) <$> vs.
Proof.
  revert val. induction vs as [|v vs IH]; intros val; cbn [setAll]; [done|].
  destruct (flag.Value_Set val v) as [val' err].
  specialize (IH val'). destruct (setAll p val' vs) as [val'' cs].
  cbn [snd] in *. by rewrite !fmap_cons, IH.
Qed.

Lemma fmap_concat {A B} (f : A → B) (ls : list (list A)) :
  f <$> concat ls = concat ((λ l : list A, f <$> l) <$> ls).
Proof.
  induction ls as [|l ls IH]; [done|].
  rewrite fmap_cons. cbn [concat]. by rewrite fmap_app, IH.
Qed.

(** The calls of a pass are the planned ones, whatever the setters
    return. *)
Lemma pass_plan fl values :
  callSite <$> res_calls (pass fl values)
  = callPlan (dom (flag.formal fl)) (flag.actual fl) values.
Proof.
  rewrite pass_calls, fmap_concat. unfold callPlan. f_equal.
  rewrite <- list_fmap_compose. apply list_fmap_ext_in.
  intros p Hp%elem_of_sortFlags. cbn [compose].
  unfold flagCalls. pose proof Hp as [val E]%elem_of_dom. rewrite E.
  destruct (decide (p ∈ getSetFlags fl)) as [Hs|Hs].
  - apply elem_of_getSetFlags in Hs as [Hs _]. by rewrite decide_True.
  - rewrite decide_False; [apply setAll_sites|].
    intros Ha. apply Hs, elem_of_getSetFlags. done.
Qed.

(** Passes over values that agree on the defined flags are the same. *)
Lemma pass_ext fl values1 values2 :
  (∀ p, p ∈ dom (flag.formal fl) → values1 p = values2 p) →
  pass fl values1 = pass fl values2.
Proof.
  intros E. unfold pass.
  assert (concat (flagCalls (getSetFlags fl) values1 (flag.formal fl)
                    <$> flag.sortFlags (dom (flag.formal fl)))
          = concat (flagCalls (getSetFlags fl) values2 (flag.formal fl)
                      <$> flag.sortFlags (dom (flag.formal fl)))) as ->.
  { f_equal. apply list_fmap_ext_in. intros p Hp%elem_of_sortFlags.
    unfold flagCalls. by rewrite E. }
  f_equal. f_equal. apply map_eq. intros p. rewrite !map_lookup_imap.
  destruct (flag.formal fl !! p) as [val|] eqn:Ep; [|done].
  cbn. unfold flagFinal. rewrite E; [done|]. apply elem_of_dom. eauto.
Qed.

(** Every call of [ParseConfigSet] is either one that only [finish]es,
    with no call of a setter, or a pass. *)
Lemma ParseConfigSet_cases fs fl env path :
  (∃ err, ParseConfigSet fs fl env path = finish fl [] err)
  ∨ (∃ file, path ≠ ""
       ∧ fs (expandWith (genEnvMap env) path) = Opened file
       ∧ ScanErr file = None
       ∧ ParseConfigSet fs fl env path
         = pass fl (configValues (genEnvMap env) (scanConfig (Lines file)))).
Proof.
  destruct (String.eqb_spec path "") as [->|Hne].
  { left. exists None. reflexivity. }
  destruct (fs (expandWith (genEnvMap env) path)) as [file|errno] eqn:Hopen.
  - destruct (ScanErr file) as [err|] eqn:Hscan.
    + left. eexists. unfold ParseConfigSet.
      rewrite eqb_empty_false, Hopen, Hscan by done. reflexivity.
    + right. exists file. repeat split; try done.
      by apply ParseConfigSet_pass.
  - left. unfold ParseConfigSet. rewrite eqb_empty_false, Hopen by done.
    destruct (errors.Is_ErrNotExist _); eauto.
Qed.

(** A pass calls no setter of a flag the registry reports as set, and
    leaves the flag as it was. *)
Lemma pass_set_flag fl values p :
  p ∈ flag.actual fl →
  (∀ c, c ∈ res_calls (pass fl values) → call_flag c ≠ p)
  ∧ flag.formal (res_flags (pass fl values)) !! p = flag.formal fl !! p.
Proof.
  intros Hp. split.
  - intros c (val & E & Hn & _)%elem_of_pass_calls <-.
    apply Hn, elem_of_getSetFlags. split; [done|]. apply elem_of_dom. eauto.
  - rewrite pass_formal. destruct (flag.formal fl !! p) as [val|] eqn:E; [|done].
    cbn. unfold flagFinal. rewrite decide_True; [done|].
    apply elem_of_getSetFlags. split; [done|]. apply elem_of_dom. eauto.
Qed.

Lemma finish_set_flag fl err p :
  (∀ c, c ∈ res_calls (finish fl [] err) → call_flag c ≠ p)
  ∧ flag.formal (res_flags (finish fl [] err)) !! p = flag.formal fl !! p.
Proof.
  rewrite finish_calls, finish_formal. split; [|done].
  by intros c ?%elem_of_nil.
Qed.

End plans.

(** C1. A flag the registry reports as set before the call ([p] is among
    the flags [Visit] enumerates) has its setter called neither by
    [ParseEnvSet] nor by [ParseConfigSet], and holds after the call the
    value it held before; a setter that is called is thus that of a flag
    that was not set. *)
Theorem C1_set_flags_untouched :
  ∀ (V : Type) (HV : flag.Value V) (fl : flag.FlagSet V) (p : string),
    p ∈ flag.actual fl →
    (∀ ReadEnvPrefix env,
       (∀ c, c ∈ res_calls (ParseEnvSet ReadEnvPrefix fl env) → call_flag c ≠ p)
       ∧ flag.formal (res_flags (ParseEnvSet ReadEnvPrefix fl env)) !! p
         = flag.formal fl !! p)
    ∧ (∀ fs env path,
       (∀ c, c ∈ res_calls (ParseConfigSet fs fl env path) → call_flag c ≠ p)
       ∧ flag.formal (res_flags (ParseConfigSet fs fl env path)) !! p
         = flag.formal fl !! p).
Proof.
  intros V HV fl p Hp. split.
  - intros R env. rewrite ParseEnvSet_pass. by apply pass_set_flag.
  - intros fs env path.
    destruct (ParseConfigSet_cases fs fl env path)
      as [[err ->]|(file & _ & _ & _ & ->)].
    + apply finish_set_flag.
    + by apply pass_set_flag.
Qed.

Lemma C1_set_flags_untouched_witness :
  let fl := testFlags {[ "str" := stringValue "other" ]} in
  ((∀ c, c ∈ res_calls (ParseEnvSet defaultReadEnvPrefix fl ["TEST_STR=a"])
         → call_flag c ≠ "str")
   ∧ flag.formal (res_flags (ParseEnvSet defaultReadEnvPrefix fl ["TEST_STR=a"]))
       !! "str" = flag.formal fl !! "str")
  ∧ ((∀ c, c ∈ res_calls (ParseConfigSet testFS fl [] "conf")
           → call_flag c ≠ "str")
     ∧ flag.formal (res_flags (ParseConfigSet testFS fl [] "conf")) !! "str"
       = flag.formal fl !! "str").
Proof.
  intros fl.
  assert ("str" ∈ flag.actual fl) as Hset by (by vm_compute).
  destruct (C1_set_flags_untouched testValue _ fl "str" Hset) as [He Hc].
  split; [apply He|apply Hc].
Defined.

(* ===================================================================== *)
(** * Setter errors are collected *)
(* ===================================================================== *)

Lemma Join_None_iff (errs : list (option error)) :
  errors.Join errs = None ↔ Forall (λ e, e = None) errs.
Proof.
  unfold errors.Join. split.
  - intros H. induction errs as [|[e|] errs IH]; [constructor|done|].
    constructor; [done|]. apply IH. exact H.
  - intros H. assert (omap id errs = []) as ->; [|done].
    induction H as [|e errs -> _ IH]; [done|]. exact IH.
Qed.

Lemma Join_Some_inv (errs : list (option error)) (e : error) :
  errors.Join errs = Some e →
  e = joinError (omap id errs) ∧ errors.Unwrap e = omap id errs.
Proof.
  unfold errors.Join. destruct (omap id errs) as [|e0 es]; [done|].
  intros [= <-]. by split.
Qed.

(** C4. A setter that fails does not stop the pass.  The calls
    [ParseEnvSet] and [ParseConfigSet] make are the planned ones (every
    value of every flag that is not set, in order), whatever the setters
    return; the error the pass ends with is [errors.Join] of what the
    calls returned, in order: nil when no setter failed, and otherwise a
    [joinError] whose [Unwrap] lists the setter errors.  With
    [flag.ContinueOnError] that error is returned to the caller; with the
    other two policies the deferred handler exits or panics with it. *)
Theorem C4_setter_errors_collected :
  ∀ (V : Type) (HV : flag.Value V) (fl : flag.FlagSet V),
    (∀ ReadEnvPrefix env,
       callSite <$> res_calls (ParseEnvSet ReadEnvPrefix fl env)
       = callPlan (dom (flag.formal fl)) (flag.actual fl)
                  (envValues (ReadEnvPrefix fl) (genEnvMap env))
       ∧ res_outcome (ParseEnvSet ReadEnvPrefix fl env)
         = ending (flag.errorHandling fl)
             (errors.Join (call_err <$> res_calls (ParseEnvSet ReadEnvPrefix fl env)))
       ∧ (flag.errorHandling fl = flag.ContinueOnError →
          res_outcome (ParseEnvSet ReadEnvPrefix fl env)
          = Return (errors.Join
                      (call_err <$> res_calls (ParseEnvSet ReadEnvPrefix fl env)))))
    ∧ (∀ fs env path file,
         path ≠ "" →
         fs (expandWith (genEnvMap env) path) = Opened file →
         ScanErr file = None →
         callSite <$> res_calls (ParseConfigSet fs fl env path)
         = callPlan (dom (flag.formal fl)) (flag.actual fl)
                    (configValues (genEnvMap env) (scanConfig (Lines file)))
         ∧ res_outcome (ParseConfigSet fs fl env path)
           = ending (flag.errorHandling fl)
               (errors.Join (call_err <$> res_calls (ParseConfigSet fs fl env path)))
         ∧ (flag.errorHandling fl = flag.ContinueOnError →
            res_outcome (ParseConfigSet fs fl env path)
            = Return (errors.Join
                        (call_err <$> res_calls (ParseConfigSet fs fl env path)))))
    ∧ (∀ errs : list (option error),
         (errors.Join errs = None ↔ Forall (λ e, e = None) errs)
         ∧ (∀ e, errors.Join errs = Some e →
                 e = joinError (omap id errs)
                 ∧ errors.Unwrap e = omap id errs)).
Proof.
  intros V HV fl. split; [|split].
  - intros R env. rewrite ParseEnvSet_pass.
    split; [apply pass_plan|]. split; [apply pass_outcome|].
    intros Hc. rewrite pass_outcome, Hc. unfold ending.
    by destruct (errors.Join _).
  - intros fs env path file Hp Hopen Hscan.
    rewrite (ParseConfigSet_pass fs fl env path file) by done.
    split; [apply pass_plan|]. split; [apply pass_outcome|].
    intros Hc. rewrite pass_outcome, Hc. unfold ending.
    by destruct (errors.Join _).
  - intros errs. split; [apply Join_None_iff|apply Join_Some_inv].
Qed.

(** The test program's flags with all four given in the environment: the
    two calls for [will-err] fail, the calls for the other flags are made
    all the same. *)
Lemma C4_setter_errors_collected_witness :
  let fl := testFlags ∅ in
  let env := ["TEST_WILL_ERR=1,2"; "TEST_STR=s"; "TEST_ARR=x,y"] in
  (callSite <$> res_calls (ParseEnvSet defaultReadEnvPrefix fl env)
   = [("arr", "x"); ("arr", "y"); ("str", "s"); ("will-err", "1"); ("will-err", "2")]
   ∧ res_outcome (ParseEnvSet defaultReadEnvPrefix fl env)
     = Return (Some (joinError [errorString "invalid option for will-err";
                                errorString "invalid option for will-err"])))
  ∧ (callSite <$> res_calls (ParseConfigSet testFS fl env "conf")
     = [("arr", "value 1"); ("arr", "value 2"); ("str", "the str")]
     ∧ res_outcome (ParseConfigSet testFS fl env "conf") = Return None).
Proof.
  intros fl env.
  destruct (C4_setter_errors_collected testValue _ fl) as (He & Hc & _).
  split.
  - destruct (He defaultReadEnvPrefix env) as (H1 & _ & H3).
    split; [rewrite H1; by vm_compute|].
    rewrite H3 by reflexivity. by vm_compute.
  - destruct (Hc testFS env "conf"
                {| Lines := [ "str the str"; "arr value 1"; "# tabs are ok";
                              "arr" +:+ tab +:+ "value 2"; "# ignore comments";
                              "# and flags with no value"; "uh"; "" ];
                   ScanErr := None |}) as (H1 & _ & H3);
      [discriminate|reflexivity|reflexivity|].
    split; [rewrite H1; by vm_compute|].
    rewrite H3 by reflexivity. by vm_compute.
Defined.

(* ===================================================================== *)
(** * Empty and absent environment values *)
(* ===================================================================== *)

Lemma envValues_empty (prefix : string) (envMap : gmap string string) (p : string) :
  envMap !! envKeyForFlag prefix p = None
  ∨ envMap !! envKeyForFlag prefix p = Some "" →
  envValues prefix envMap p = [].
Proof.
  intros H. unfold envValues.
  assert (envMap !!! envKeyForFlag prefix p = "") as ->; [|done].
  rewrite lookup_total_alt. by destruct H as [-> | ->].
Qed.

(** C5. The list splitter on the delimiter [,] and the escape marker [\]:
    [a,b\,c,d] gives exactly [a], [b,c], [d]; the empty string gives no
    token; a string (without a NUL byte) is split at the delimiters that no
    escape marker immediately precedes, an escape marker before a delimiter
    giving a literal delimiter and every other escape marker staying in
    its token ([splitUnescaped]); so a string with no delimiter is one
    token, escape markers included.  (On any string the tokens are those
    of [splitUnescaped] with each NUL byte turned into a delimiter byte.)  Hence a flag whose environment
    variable is absent or empty receives no setter call. *)
Theorem C5_splitEscape :
  splitEscape "a,b\,c,d" "," "\" = ["a"; "b,c"; "d"]
  ∧ splitEscape "" "," "\" = []
  ∧ (∀ s, splitEscape s "," "\" = unmark <$> splitUnescaped s)
  ∧ (∀ s, noNUL s → splitEscape s "," "\" = splitUnescaped s)
  ∧ (∀ s, s ≠ "" → noNUL s → hasByte s "," = false →
          splitEscape s "," "\" = [s])
  ∧ (∀ (V : Type) (HV : flag.Value V) ReadEnvPrefix (fl : flag.FlagSet V) env p,
       genEnvMap env !! envKeyForFlag (ReadEnvPrefix fl) p = None
       ∨ genEnvMap env !! envKeyForFlag (ReadEnvPrefix fl) p = Some "" →
       ∀ c, c ∈ res_calls (ParseEnvSet ReadEnvPrefix fl env) → call_flag c ≠ p).
Proof.
  split; [reflexivity|]. split; [reflexivity|]. split; [|split; [|split]].
  - intros s. unfold splitUnescaped.
    destruct (String.eqb_spec s "") as [->|Hne]; [done|].
    by apply splitEscape_unescaped.
  - apply splitEscape_spec.
  - intros s Hne Hnul Hdelim. rewrite splitEscape_spec by done.
    unfold splitUnescaped. rewrite eqb_empty_false by done.
    by rewrite (unescapedFrom_no_delim (String.length s)) by (done || lia).
  - intros V HV R fl env p Hempty c Hc <-.
    rewrite ParseEnvSet_pass in Hc.
    apply elem_of_pass_calls in Hc as (val & _ & _ & Hc).
    rewrite envValues_empty in Hc by done. by apply elem_of_nil in Hc.
Qed.

Lemma C5_splitEscape_witness :
  splitEscape "x\y,\,z\" "," "\" = splitUnescaped "x\y,\,z\"
  ∧ splitEscape "x\y\" "," "\" = ["x\y\"]
  ∧ (∀ c, c ∈ res_calls (ParseEnvSet defaultReadEnvPrefix (testFlags ∅)
                           ["TEST_STR="; "TEST_ARR=a"])
          → call_flag c ≠ "str")
  ∧ (∀ c, c ∈ res_calls (ParseEnvSet defaultReadEnvPrefix (testFlags ∅)
                           ["TEST_STR="; "TEST_ARR=a"])
          → call_flag c ≠ "config-path").
Proof.
  destruct C5_splitEscape as (_ & _ & _ & H3 & H4 & H5).
  split; [apply H3; reflexivity|].
  split; [apply H4; [discriminate|reflexivity|reflexivity]|].
  split.
  - apply (H5 testValue _ defaultReadEnvPrefix (testFlags ∅)). right. by vm_compute.
  - apply (H5 testValue _ defaultReadEnvPrefix (testFlags ∅)). left. by vm_compute.
Defined.

(* ===================================================================== *)
(** * The outcomes of [ParseConfigSet] that call no setter *)
(* ===================================================================== *)

Section config_outcomes.
Context {V : Type} `{!flag.Value V}.
Implicit Types (fl : flag.FlagSet V).

Lemma ParseConfigSet_empty_path fs fl env :
  ParseConfigSet fs fl env ""
  = {| res_flags := fl; res_calls := []; res_outcome := Return None |}.
Proof. reflexivity. Qed.

Lemma ParseConfigSet_open_failed fs fl env path errno :
  path ≠ "" →
  fs (expandWith (genEnvMap env) path) = OpenFailed errno →
  ParseConfigSet fs fl env path =
    if decide (errno = os.ENOENT) then
      {| res_flags := fl; res_calls := []; res_outcome := Return None |}
    else
      finish fl []
        (Some (fmt.Errorf_w "open config file"
                 (PathError "open" (expandWith (genEnvMap env) path) errno))).
Proof.
  intros Hp Hopen. unfold ParseConfigSet.
  rewrite eqb_empty_false, Hopen by done.
  destruct errno; by simpl.
Qed.

Lemma ParseConfigSet_scan_failed fs fl env path file cause :
  path ≠ "" →
  fs (expandWith (genEnvMap env) path) = Opened file →
  ScanErr file = Some cause →
  ParseConfigSet fs fl env path
  = finish fl [] (Some (fmt.Errorf_w "scan config" cause)).
Proof.
  intros Hp Hopen Hscan. unfold ParseConfigSet.
  by rewrite eqb_empty_false, Hopen, Hscan by done.
Qed.

End config_outcomes.

Lemma HasPrefix_app (p s : string) : strings.HasPrefix (p +:+ s) p = true.
Proof.
  induction p as [|c p IH]; [by destruct s|].
  rewrite app_String. cbn [strings.HasPrefix]. by rewrite Ascii.eqb_refl.
Qed.

(** C3, as stated, fails on the label of a scan failure: scanning the
    directory [some-dir] of the test data ends with the error
    [scan config: read some-dir: is a directory], in which the text
    [scan config file] does not occur. *)
Lemma C3_scan_label_counterexample :
  ∃ e, res_outcome (ParseConfigSet testFS (testFlags ∅) [] "some-dir")
       = Return (Some e)
       ∧ Error e = "scan config: read some-dir: is a directory"
       ∧ strings.Contains (Error e) "scan config file" = false.
Proof. eexists. split; [by vm_compute|]. split; by vm_compute. Qed.

(** C3, amended.  [ParseConfigSet] ends with no error, having touched
    nothing, when the path is empty or the expanded path names no existing
    file; another failure to open the file gives the error
    [open config file: ...] wrapping the cause; a failure while scanning
    gives the error [scan config: ...] wrapping the cause; in all four
    cases no setter has been called and the flags hold what they held.
    (An error is returned under [flag.ContinueOnError]; under the other
    two policies the deferred handler exits or panics with it.) *)
Theorem C3_config_file_outcomes :
  ∀ (V : Type) (HV : flag.Value V) (fs : FileSystem) (fl : flag.FlagSet V)
    (env : list string) (path : string),
    (path = "" →
       ParseConfigSet fs fl env path
       = {| res_flags := fl; res_calls := []; res_outcome := Return None |})
    ∧ (path ≠ "" →
       fs (expandWith (genEnvMap env) path) = OpenFailed os.ENOENT →
       ParseConfigSet fs fl env path
       = {| res_flags := fl; res_calls := []; res_outcome := Return None |})
    ∧ (∀ errno,
         path ≠ "" →
         fs (expandWith (genEnvMap env) path) = OpenFailed errno →
         errno ≠ os.ENOENT →
         ∃ err,
           res_outcome (ParseConfigSet fs fl env path)
             = ending (flag.errorHandling fl) (Some err)
           ∧ err = wrapError
                     ("open config file: "
                      +:+ Error (PathError "open" (expandWith (genEnvMap env) path) errno))
                     (PathError "open" (expandWith (genEnvMap env) path) errno)
           ∧ strings.HasPrefix (Error err) "open config file: " = true
           ∧ errors.Unwrap err
             = [PathError "open" (expandWith (genEnvMap env) path) errno]
           ∧ res_calls (ParseConfigSet fs fl env path) = []
           ∧ flag.formal (res_flags (ParseConfigSet fs fl env path))
             = flag.formal fl)
    ∧ (∀ file cause,
         path ≠ "" →
         fs (expandWith (genEnvMap env) path) = Opened file →
         ScanErr file = Some cause →
         ∃ err,
           res_outcome (ParseConfigSet fs fl env path)
             = ending (flag.errorHandling fl) (Some err)
           ∧ err = wrapError ("scan config: " +:+ Error cause) cause
           ∧ strings.HasPrefix (Error err) "scan config: " = true
           ∧ errors.Unwrap err = [cause]
           ∧ res_calls (ParseConfigSet fs fl env path) = []
           ∧ flag.formal (res_flags (ParseConfigSet fs fl env path))
             = flag.formal fl).
Proof.
  intros V HV fs fl env path. split; [|split; [|split]].
  - intros ->. reflexivity.
  - intros Hp Hopen.
    by rewrite (ParseConfigSet_open_failed fs fl env path os.ENOENT).
  - intros errno Hp Hopen Hne.
    rewrite (ParseConfigSet_open_failed fs fl env path errno) by done.
    rewrite decide_False by done.
    eexists. rewrite finish_outcome, finish_calls, finish_formal.
    split; [reflexivity|]. split; [reflexivity|].
    split; [|by repeat split].
    exact (HasPrefix_app "open config file: "
             (Error (PathError "open" (expandWith (genEnvMap env) path) errno))).
  - intros file cause Hp Hopen Hscan.
    rewrite (ParseConfigSet_scan_failed fs fl env path file cause) by done.
    eexists. rewrite finish_outcome, finish_calls, finish_formal.
    split; [reflexivity|]. split; [reflexivity|].
    split; [|by repeat split].
    exact (HasPrefix_app "scan config: " (Error cause)).
Qed.

Lemma C3_config_file_outcomes_witness :
  let fl := testFlags ∅ in
  ParseConfigSet testFS fl [] ""
    = {| res_flags := fl; res_calls := []; res_outcome := Return None |}
  ∧ ParseConfigSet testFS fl [] "missing"
    = {| res_flags := fl; res_calls := []; res_outcome := Return None |}
  ∧ (∃ err, res_outcome (ParseConfigSet testFS fl [] "conf-no-perm")
            = ending flag.ContinueOnError (Some err)
            ∧ Error err = "open config file: open conf-no-perm: permission denied"
            ∧ res_calls (ParseConfigSet testFS fl [] "conf-no-perm") = []
            ∧ flag.formal (res_flags (ParseConfigSet testFS fl [] "conf-no-perm"))
              = flag.formal fl)
  ∧ (∃ err, res_outcome (ParseConfigSet testFS fl [] "some-dir")
            = ending flag.ContinueOnError (Some err)
            ∧ Error err = "scan config: read some-dir: is a directory"
            ∧ res_calls (ParseConfigSet testFS fl [] "some-dir") = []
            ∧ flag.formal (res_flags (ParseConfigSet testFS fl [] "some-dir"))
              = flag.formal fl).
Proof.
  intros fl.
  split; [|split; [|split]].
  - destruct (C3_config_file_outcomes testValue _ testFS fl [] "") as (H1 & _).
    apply H1. reflexivity.
  - destruct (C3_config_file_outcomes testValue _ testFS fl [] "missing")
      as (_ & H2 & _).
    apply H2; [discriminate|reflexivity].
  - destruct (C3_config_file_outcomes testValue _ testFS fl [] "conf-no-perm")
      as (_ & _ & H3 & _).
    destruct (H3 os.EACCES) as (err & Ho & -> & _ & _ & Hc & Hf);
      [discriminate|reflexivity|discriminate|].
    eexists. split; [exact Ho|]. split; [reflexivity|]. by split.
  - destruct (C3_config_file_outcomes testValue _ testFS fl [] "some-dir")
      as (_ & _ & _ & H4).
    destruct (H4 {| Lines := [];
                    ScanErr := Some (PathError "read" "some-dir" os.EISDIR) |}
                 (PathError "read" "some-dir" os.EISDIR))
      as (err & Ho & -> & _ & _ & Hc & Hf);
      [discriminate|reflexivity|reflexivity|].
    eexists. split; [exact Ho|]. split; [reflexivity|]. by split.
Defined.

(* ===================================================================== *)
(** * One resolver after the other *)
(* ===================================================================== *)

Section both_resolvers.
Context {V : Type} `{!flag.Value V}.
Implicit Types (fl : flag.FlagSet V).

Lemma pass_name fl values :
  flag.name (res_flags (pass fl values)) = flag.name fl.
Proof. unfold pass. by rewrite finish_name. Qed.

Lemma finish_dom fl log err :
  dom (flag.formal (res_flags (finish fl log err))) = dom (flag.formal fl).
Proof. by rewrite finish_formal. Qed.

Lemma ParseEnvSet_sameRegistry ReadEnvPrefix fl env :
  sameRegistry fl (res_flags (ParseEnvSet ReadEnvPrefix fl env)).
Proof.
  rewrite ParseEnvSet_pass. split; [apply pass_name|].
  split; [apply pass_dom|apply pass_actual].
Qed.

Lemma ParseConfigSet_sameRegistry fs fl env path :
  sameRegistry fl (res_flags (ParseConfigSet fs fl env path)).
Proof.
  destruct (ParseConfigSet_cases fs fl env path)
    as [[err ->]|(file & _ & _ & _ & ->)].
  - split; [apply finish_name|]. split; [apply finish_dom|apply finish_actual].
  - split; [apply pass_name|]. split; [apply pass_dom|apply pass_actual].
Qed.

Lemma getSetFlags_sameRegistry fl fl' :
  sameRegistry fl fl' → getSetFlags fl' = getSetFlags fl.
Proof.
  intros (_ & Hd & Ha). apply set_eq. intros p.
  by rewrite !elem_of_getSetFlags, Hd, Ha.
Qed.

Lemma ParseConfigSet_sites fs fl env path :
  callSite <$> res_calls (ParseConfigSet fs fl env path)
  = configSites fs (dom (flag.formal fl)) (flag.actual fl) env path.
Proof.
  unfold configSites.
  destruct (String.eqb_spec path "") as [->|Hne]; [done|].
  destruct (fs (expandWith (genEnvMap env) path)) as [file|errno] eqn:Hopen.
  - destruct (ScanErr file) as [cause|] eqn:Hscan.
    + rewrite (ParseConfigSet_scan_failed fs fl env path file cause) by done.
      by rewrite finish_calls.
    + rewrite (ParseConfigSet_pass fs fl env path file) by done.
      apply pass_plan.
  - rewrite (ParseConfigSet_open_failed fs fl env path errno) by done.
    destruct (decide _); [done|]. by rewrite finish_calls.
Qed.

Lemma ParseEnvSet_sites ReadEnvPrefix fl env :
  callSite <$> res_calls (ParseEnvSet ReadEnvPrefix fl env)
  = callPlan (dom (flag.formal fl)) (flag.actual fl)
             (envValues (ReadEnvPrefix fl) (genEnvMap env)).
Proof. rewrite ParseEnvSet_pass. apply pass_plan. Qed.

End both_resolvers.

(** C2.  The code does not keep what the claim, and the doc comments of
    both resolvers ("visits flags from fl that have not been provided
    yet"), say: a value one resolver applied is overwritten by the other.
    With [TEST_STR] in the environment and a [str] line in the config
    file, [ParseEnvSet] applies the environment's value to the flag [str]
    and the [ParseConfigSet] that follows calls the setter again and
    replaces it; in the other order the environment's value replaces the
    file's.  The skip both resolvers attempt reads [getSetFlags], that is
    [fl.Visit], and a call of [f.Value.Set] does not enter the flag among
    the flags [fl.Visit] visits. *)
Lemma C2_counterexample :
  let fl := testFlags ∅ in
  let env := ["TEST_STR=from env"] in
  let r1 := ParseEnvSet defaultReadEnvPrefix fl env in
  let r2 := ParseConfigSet testFS (res_flags r1) env "conf" in
  let q1 := ParseConfigSet testFS fl env "conf" in
  let q2 := ParseEnvSet defaultReadEnvPrefix (res_flags q1) env in
  (callSite <$> res_calls r1 = [("str", "from env")]
   ∧ flag.formal (res_flags r1) !! "str" = Some (stringValue "from env")
   ∧ callSite <$> res_calls r2
     = [("arr", "value 1"); ("arr", "value 2"); ("str", "the str")]
   ∧ flag.formal (res_flags r2) !! "str" = Some (stringValue "the str"))
  ∧ (flag.formal (res_flags q1) !! "str" = Some (stringValue "the str")
     ∧ callSite <$> res_calls q2 = [("str", "from env")]
     ∧ flag.formal (res_flags q2) !! "str" = Some (stringValue "from env")).
Proof. by vm_compute. Qed.

(** X21. Neither resolver changes what the registry reports as set
    ([fl.Visit], [getSetFlags]): a resolver leaves no record of the flags
    it supplied.  So the resolver invoked second skips the flags that were
    set before the first and no others, and its setter calls (flags and
    arguments) are those it makes when the first resolver has not run, in
    either order, for a [ReadEnvPrefix] that reads the name of the flag
    set only. *)
Theorem X21_no_record_of_supplied_flags :
  ∀ (V : Type) (HV : flag.Value V) (fl : flag.FlagSet V)
    (ReadEnvPrefix : flag.FlagSet V → string) (fs : FileSystem)
    (env env' : list string) (path : string),
    (∀ fl1 fl2 : flag.FlagSet V,
       flag.name fl1 = flag.name fl2 → ReadEnvPrefix fl1 = ReadEnvPrefix fl2) →
    (flag.actual (res_flags (ParseEnvSet ReadEnvPrefix fl env)) = flag.actual fl
     ∧ getSetFlags (res_flags (ParseEnvSet ReadEnvPrefix fl env)) = getSetFlags fl
     ∧ callSite <$> res_calls
         (ParseConfigSet fs (res_flags (ParseEnvSet ReadEnvPrefix fl env)) env' path)
       = callSite <$> res_calls (ParseConfigSet fs fl env' path))
    ∧ (flag.actual (res_flags (ParseConfigSet fs fl env' path)) = flag.actual fl
       ∧ getSetFlags (res_flags (ParseConfigSet fs fl env' path)) = getSetFlags fl
       ∧ callSite <$> res_calls
           (ParseEnvSet ReadEnvPrefix (res_flags (ParseConfigSet fs fl env' path)) env)
         = callSite <$> res_calls (ParseEnvSet ReadEnvPrefix fl env)).
Proof.
  intros V HV fl R fs env env' path HR. split.
  - pose proof (ParseEnvSet_sameRegistry R fl env) as HS.
    split; [apply HS|]. split; [by apply getSetFlags_sameRegistry|].
    destruct HS as (_ & Hd & Ha). by rewrite !ParseConfigSet_sites, Hd, Ha.
  - pose proof (ParseConfigSet_sameRegistry fs fl env' path) as HS.
    split; [apply HS|]. split; [by apply getSetFlags_sameRegistry|].
    destruct HS as (Hn & Hd & Ha).
    by rewrite !ParseEnvSet_sites, Hd, Ha, (HR _ fl Hn).
Qed.

Lemma X21_no_record_of_supplied_flags_witness :
  let fl := testFlags {[ "arr" := flagArray ["cli"] ]} in
  let env := ["TEST_STR=from env"; "TEST_ARR=e"] in
  callSite <$> res_calls
    (ParseConfigSet testFS (res_flags (ParseEnvSet defaultReadEnvPrefix fl env))
       env "conf")
  = callSite <$> res_calls (ParseConfigSet testFS fl env "conf")
  ∧ callSite <$> res_calls
      (ParseEnvSet defaultReadEnvPrefix
         (res_flags (ParseConfigSet testFS fl env "conf")) env)
    = callSite <$> res_calls (ParseEnvSet defaultReadEnvPrefix fl env).
Proof.
  intros fl env.
  assert (∀ fl1 fl2 : flag.FlagSet testValue,
            flag.name fl1 = flag.name fl2 →
            defaultReadEnvPrefix fl1 = defaultReadEnvPrefix fl2) as HR.
  { intros fl1 fl2 E. unfold defaultReadEnvPrefix. by rewrite E. }
  destruct (X21_no_record_of_supplied_flags testValue _ fl defaultReadEnvPrefix
              testFS
              env env "conf" HR) as ((_ & _ & H1) & (_ & _ & H2)).
  split; [exact H1|exact H2].
Defined.

(* ===================================================================== *)
(** * Keys of the config file that name no flag *)
(* ===================================================================== *)

Lemma scanConfig_foldl (lines : list string) :
  scanConfig lines = foldl configLine ∅ lines.
Proof. reflexivity. Qed.

(** Tables that agree off the key [k] still do after one more line. *)
Lemma configLine_agree (k : string) (m1 m2 : gmap string (list string))
    (text : string) :
  (∀ n, n ≠ k → m1 !!! n = m2 !!! n) →
  ∀ n, n ≠ k → configLine m1 text !!! n = configLine m2 text !!! n.
Proof.
  intros Hm n Hn. unfold configLine.
  destruct (parseLine text) as [[k' v']|]; [|by apply Hm].
  destruct (decide (k' = n)) as [->|Hk].
  - by rewrite !lookup_total_insert_eq, Hm.
  - rewrite !lookup_total_insert_ne by done. by apply Hm.
Qed.

Lemma foldl_configLine_agree (k : string) (lines : list string) :
  ∀ m1 m2 : gmap string (list string),
  (∀ n, n ≠ k → m1 !!! n = m2 !!! n) →
  ∀ n, n ≠ k → foldl configLine m1 lines !!! n = foldl configLine m2 lines !!! n.
Proof.
  induction lines as [|text lines IH]; intros m1 m2 Hm; [done|].
  cbn [foldl]. apply IH. by apply (configLine_agree k).
Qed.

(** A line with the key [k] changes the table at [k] only. *)
Lemma scanConfig_skip (lines1 lines2 : list string) (u k v : string) :
  parseLine u = Some (k, v) →
  ∀ n, n ≠ k →
  scanConfig (lines1 ++ u :: lines2) !!! n = scanConfig (lines1 ++ lines2) !!! n.
Proof.
  intros Hu n Hn.
  rewrite (scanConfig_foldl (lines1 ++ u :: lines2)),
    (scanConfig_foldl (lines1 ++ lines2)).
  rewrite (foldl_app _ lines1 (u :: lines2)), (foldl_app _ lines1 lines2).
  cbn [foldl]. apply (foldl_configLine_agree k); [|done].
  intros n' Hn'. unfold configLine at 1. rewrite Hu.
  by rewrite lookup_total_insert_ne.
Qed.

(** C9. A line of the config file whose key is the name of no defined flag
    is ignored: with the line or without it, [ParseConfigSet] ends the
    same way, makes the same setter calls and leaves the same flag set; no
    error comes from it. *)
Theorem C9_unknown_key_ignored :
  ∀ (V : Type) (HV : flag.Value V) (fs fs' : FileSystem) (fl : flag.FlagSet V)
    (env : list string) (path : string)
    (lines1 lines2 : list string) (u k v : string) (scanErr : option error),
    parseLine u = Some (k, v) →
    k ∉ dom (flag.formal fl) →
    fs (expandWith (genEnvMap env) path)
      = Opened {| Lines := lines1 ++ u :: lines2; ScanErr := scanErr |} →
    fs' (expandWith (genEnvMap env) path)
      = Opened {| Lines := lines1 ++ lines2; ScanErr := scanErr |} →
    ParseConfigSet fs fl env path = ParseConfigSet fs' fl env path.
Proof.
  intros V HV fs fs' fl env path lines1 lines2 u k v scanErr Hu Hk Hfs Hfs'.
  destruct (String.eqb_spec path "") as [->|Hne]; [done|].
  destruct scanErr as [cause|].
  - by rewrite (ParseConfigSet_scan_failed fs fl env path _ cause Hne Hfs),
      (ParseConfigSet_scan_failed fs' fl env path _ cause Hne Hfs').
  - rewrite (ParseConfigSet_pass fs fl env path _ Hne Hfs) by done.
    rewrite (ParseConfigSet_pass fs' fl env path _ Hne Hfs') by done.
    apply pass_ext. intros p Hp. unfold configValues. cbn [Lines].
    rewrite (scanConfig_skip lines1 lines2 u k v Hu); [done|].
    by intros ->.
Qed.

(** The file [conf-unknown-option] of the test data, against the same file
    without its line: no error, no call, nothing changed. *)
Lemma C9_unknown_key_ignored_witness :
  ParseConfigSet testFS (testFlags ∅) [] "conf-unknown-option"
  = ParseConfigSet (λ _, Opened {| Lines := []; ScanErr := None |})
      (testFlags ∅) [] "conf-unknown-option"
  ∧ ParseConfigSet (λ _, Opened {| Lines := []; ScanErr := None |})
      (testFlags ∅) [] "conf-unknown-option"
    = {| res_flags := testFlags ∅; res_calls := []; res_outcome := Return None |}.
Proof.
  split.
  - apply (C9_unknown_key_ignored testValue _ testFS
             (λ _, Opened {| Lines := []; ScanErr := None |})
             (testFlags ∅) [] "conf-unknown-option"
             [] [] "unknown-option hello" "unknown-option" "hello" None).
    + reflexivity.
    + by vm_compute.
    + reflexivity.
    + reflexivity.
  - by vm_compute.
Defined.

(* ===================================================================== *)
(** * Lines of the config file *)
(* ===================================================================== *)

Lemma isBlank_isSpace (c : ascii) : isBlank c = true → strings.isSpace c = true.
Proof.
  destruct c as [[] [] [] [] [] [] [] []]; vm_compute; congruence.
Qed.

Lemma take_drop_s (n : nat) (s : string) :
  strings.take n s +:+ strings.drop n s = s.
Proof.
  revert s. induction n as [|n IH]; intros [|c s]; try done.
  cbn [strings.take strings.drop]. by rewrite app_String, IH.
Qed.

Lemma trimLeft_split (s : string) :
  ∃ ws, s = ws +:+ strings.trimLeft s ∧ allSpace ws = true.
Proof.
  induction s as [|c s (ws & E & Hws)]; [by exists ""|].
  cbn [strings.trimLeft]. destruct (strings.isSpace c) eqn:Hc.
  - exists (String c ws). rewrite app_String, <- E. split; [done|].
    cbn [allSpace]. by rewrite Hc, Hws.
  - by exists "".
Qed.

Lemma trimLeft_starts (s : string) : startsSpace (strings.trimLeft s) = false.
Proof.
  induction s as [|c s IH]; [done|].
  cbn [strings.trimLeft]. by destruct (strings.isSpace c) eqn:Hc.
Qed.

Lemma trimLeft_ends (s : string) :
  endsSpace s = false → endsSpace (strings.trimLeft s) = false.
Proof.
  induction s as [|c s IH]; [done|].
  cbn [strings.trimLeft]. destruct (strings.isSpace c) eqn:Hc; [|done].
  cbn [endsSpace]. destruct s as [|d s]; [congruence|]. exact IH.
Qed.

Lemma trimLeft_nonempty (s : string) :
  s ≠ "" → endsSpace s = false → strings.trimLeft s ≠ "".
Proof.
  induction s as [|c s IH]; [done|]. intros _.
  cbn [strings.trimLeft]. destruct (strings.isSpace c) eqn:Hc; [|done].
  cbn [endsSpace]. destruct s as [|d s]; [congruence|]. by apply IH.
Qed.

Lemma trimRight_cons (c : ascii) (s : string) :
  strings.trimRight (String c s) =
    match strings.trimRight s with
    | EmptyString => if strings.isSpace c then EmptyString else String c EmptyString
    | String d r => String c (String d r)
    end.
Proof. reflexivity. Qed.

Lemma trimRight_split (s : string) :
  ∃ ws, s = strings.trimRight s +:+ ws ∧ allSpace ws = true.
Proof.
  induction s as [|c s (ws & E & Hws)]; [by exists ""|].
  rewrite trimRight_cons. destruct (strings.trimRight s) as [|d r].
  - rewrite app_empty_l in E. subst ws.
    destruct (strings.isSpace c) eqn:Hc.
    + exists (String c s). split; [done|]. cbn [allSpace]. by rewrite Hc, Hws.
    + exists s. by split.
  - exists ws. by rewrite app_String, <- E.
Qed.

Lemma trimRight_ends (s : string) : endsSpace (strings.trimRight s) = false.
Proof.
  induction s as [|c s IH]; [done|].
  rewrite trimRight_cons. destruct (strings.trimRight s) as [|d r].
  - by destruct (strings.isSpace c) eqn:Hc; cbn; rewrite ?Hc.
  - exact IH.
Qed.

Lemma trimRight_starts (s : string) :
  startsSpace s = false → startsSpace (strings.trimRight s) = false.
Proof.
  destruct s as [|c s]; [done|]. cbn [startsSpace]. intros Hc.
  rewrite trimRight_cons. destruct (strings.trimRight s); by rewrite ?Hc.
Qed.

Lemma trimRight_id (s : string) :
  endsSpace s = false → strings.trimRight s = s.
Proof.
  induction s as [|c s IH]; [done|].
  cbn [endsSpace]. rewrite trimRight_cons. destruct s as [|d s].
  - intros ->. done.
  - intros H. by rewrite (IH H).
Qed.

(** [strings.TrimSpace] takes off the white space around the text. *)
Lemma TrimSpace_spec (text : string) :
  ∃ l r, text = l +:+ strings.TrimSpace text +:+ r
         ∧ allSpace l = true ∧ allSpace r = true
         ∧ startsSpace (strings.TrimSpace text) = false
         ∧ endsSpace (strings.TrimSpace text) = false.
Proof.
  unfold strings.TrimSpace.
  destruct (trimLeft_split text) as (l & El & Hl).
  destruct (trimRight_split (strings.trimLeft text)) as (r & Er & Hr).
  exists l, r. rewrite <- Er, <- El.
  split; [done|]. split; [done|]. split; [done|]. split.
  - apply trimRight_starts, trimLeft_starts.
  - apply trimRight_ends.
Qed.

Lemma IndexAny_blank (s : string) :
  strings.IndexAny s (tab +:+ " ")
  = if hasBlank s then Z.of_nat (spanNoBlank s) else (-1)%Z.
Proof.
  induction s as [|c s IH]; [done|].
  cbn [strings.IndexAny hasBlank spanNoBlank]. fold (isBlank c).
  destruct (isBlank c); [done|]. rewrite IH. cbn [orb].
  destruct (hasBlank s); [|done].
  destruct (Z.ltb_spec (Z.of_nat (spanNoBlank s)) 0); lia.
Qed.

Lemma take_spanNoBlank (s : string) :
  hasBlank (strings.take (spanNoBlank s) s) = false.
Proof.
  induction s as [|c s IH]; [done|].
  cbn [spanNoBlank]. destruct (isBlank c) eqn:Hc; [done|].
  cbn [strings.take hasBlank]. by rewrite Hc, IH.
Qed.

Lemma drop_spanNoBlank (s : string) :
  hasBlank s = true → startsBlank (strings.drop (spanNoBlank s) s) = true.
Proof.
  induction s as [|c s IH]; [done|].
  cbn [spanNoBlank hasBlank]. destruct (isBlank c) eqn:Hc; [done|].
  cbn [orb strings.drop]. exact IH.
Qed.

Lemma endsSpace_drop (n : nat) (s : string) :
  strings.drop n s ≠ "" → endsSpace (strings.drop n s) = endsSpace s.
Proof.
  revert s. induction n as [|n IH]; intros [|c s]; try done.
  cbn [strings.drop]. intros H. rewrite (IH s H).
  cbn [endsSpace]. destruct s; [by destruct n|done].
Qed.

(** What [parseLine] makes of a trimmed line with a tab or space in it. *)
Lemma parseLine_key_value (line : string) :
  hasBlank line = true → endsSpace line = false →
  ∃ k ws v,
    line = k +:+ ws +:+ v
    ∧ strings.take (spanNoBlank line) line = k
    ∧ strings.TrimSpace (strings.drop (spanNoBlank line) line) = v
    ∧ hasBlank k = false
    ∧ startsBlank ws = true ∧ allSpace ws = true
    ∧ v ≠ "" ∧ startsSpace v = false ∧ endsSpace v = false.
Proof.
  intros Hb He.
  set (rest := strings.drop (spanNoBlank line) line).
  pose proof (drop_spanNoBlank line Hb) as Hrest. fold rest in Hrest.
  assert (rest ≠ "") as Hne by (by destruct rest).
  assert (endsSpace rest = false) as Her.
  { unfold rest. rewrite endsSpace_drop; done. }
  destruct (trimLeft_split rest) as (ws & Ews & Hws).
  assert (strings.TrimSpace rest = strings.trimLeft rest) as Ev.
  { unfold strings.TrimSpace. apply trimRight_id. by apply trimLeft_ends. }
  exists (strings.take (spanNoBlank line) line), ws, (strings.trimLeft rest).
  split; [by rewrite <- Ews; unfold rest; rewrite take_drop_s|].
  split; [done|]. split; [done|]. split; [apply take_spanNoBlank|].
  split.
  { destruct ws as [|c ws].
    - rewrite app_empty_l in Ews. pose proof (trimLeft_starts rest) as Hs.
      rewrite <- Ews in Hs. destruct rest as [|c rest']; [done|].
      cbn in Hrest, Hs. apply isBlank_isSpace in Hrest. congruence.
    - rewrite Ews in Hrest. by rewrite app_String in Hrest. }
  split; [done|]. split; [by apply trimLeft_nonempty|].
  split; [apply trimLeft_starts|by apply trimLeft_ends].
Qed.

(** C7, as stated, fails: a line is not split at its first run of white
    space.  In the line [a<VT>b c] (a vertical tab after the [a]) the
    first run of white space is the vertical tab, which would end the key
    after [a]; [ParseConfigSet] looks for a tab or a space only and takes
    [a<VT>b] as the key and [c] as the value.  The line [a<VT>b], which
    holds white space, is not split at all and gets the value [true]. *)
Lemma C7_whitespace_run_counterexample :
  let line := "a" +:+ String "011" "b c" in
  let line' := "a" +:+ String "011" "b" in
  (strings.TrimSpace line = line
   ∧ splitAtSpaceRun line = ("a", "b c")
   ∧ parseLine line = Some ("a" +:+ String "011" "b", "c")
   ∧ parseLine line ≠ Some (splitAtSpaceRun line))
  ∧ (strings.TrimSpace line' = line'
     ∧ splitAtSpaceRun line' = ("a", "b")
     ∧ parseLine line' = Some (line', "true")).
Proof. by vm_compute. Qed.

(** C7, amended.  Parsing a line of the config file: the white space
    around the text is trimmed; a line then empty or beginning with [#] is
    skipped; any other line is split at its first tab or space: the key
    is the text before it and the value the rest of the line, trimmed; a
    line with no tab or space is its own key, with the value [true].  For
    a line of ASCII bytes, what is trimmed is the white space at both ends
    of the line, and the value is the rest without the run of white space
    that begins with the tab or space: it is not empty and has no
    white space around it.  The line [arr<TAB>value 2] gives the key
    [arr] and the value [value 2]; the line [uh] gives [uh] and [true]. *)
Theorem C7_parseLine :
  (∀ text, isASCII text = true →
           ∃ l r, text = l +:+ strings.TrimSpace text +:+ r
                  ∧ allSpace l = true ∧ allSpace r = true
                  ∧ startsSpace (strings.TrimSpace text) = false
                  ∧ endsSpace (strings.TrimSpace text) = false)
  ∧ (∀ text, strings.TrimSpace text = ""
             ∨ strings.HasPrefix (strings.TrimSpace text) "#" = true →
             parseLine text = None)
  ∧ (∀ text, strings.TrimSpace text ≠ "" →
             strings.HasPrefix (strings.TrimSpace text) "#" = false →
             hasBlank (strings.TrimSpace text) = false →
             parseLine text = Some (strings.TrimSpace text, "true"))
  ∧ (∀ text, strings.TrimSpace text ≠ "" →
             strings.HasPrefix (strings.TrimSpace text) "#" = false →
             hasBlank (strings.TrimSpace text) = true →
             ∃ k rest,
               strings.TrimSpace text = k +:+ rest
               ∧ hasBlank k = false ∧ startsBlank rest = true
               ∧ parseLine text = Some (k, strings.TrimSpace rest))
  ∧ (∀ text, isASCII text = true →
             strings.TrimSpace text ≠ "" →
             strings.HasPrefix (strings.TrimSpace text) "#" = false →
             hasBlank (strings.TrimSpace text) = true →
             ∃ k ws v,
               strings.TrimSpace text = k +:+ ws +:+ v
               ∧ parseLine text = Some (k, v)
               ∧ hasBlank k = false
               ∧ startsBlank ws = true ∧ allSpace ws = true
               ∧ v ≠ "" ∧ startsSpace v = false ∧ endsSpace v = false)
  ∧ parseLine ("arr" +:+ tab +:+ "value 2") = Some ("arr", "value 2")
  ∧ parseLine "uh" = Some ("uh", "true")
  ∧ parseLine "# comment" = None
  ∧ parseLine "" = None.
Proof.
  split; [intros text _; apply TrimSpace_spec|].
  split; [|split; [|split; [|split; [|by repeat split]]]].
  - intros text H. unfold parseLine.
    destruct H as [-> | ->]; [done|]. by rewrite orb_true_r.
  - intros text Hne Hc Hb. unfold parseLine.
    rewrite eqb_empty_false, Hc, IndexAny_blank, Hb by done. done.
  - intros text Hne Hc Hb. unfold parseLine.
    rewrite eqb_empty_false, Hc, IndexAny_blank, Hb by done.
    cbn [orb]. rewrite Nat2Z.id.
    destruct (Z.ltb_spec (Z.of_nat (spanNoBlank (strings.TrimSpace text))) 0);
      [lia|].
    exists (strings.take (spanNoBlank (strings.TrimSpace text))
                         (strings.TrimSpace text)),
           (strings.drop (spanNoBlank (strings.TrimSpace text))
                         (strings.TrimSpace text)).
    split; [by rewrite take_drop_s|]. split; [apply take_spanNoBlank|].
    split; [by apply drop_spanNoBlank|done].
  - intros text _ Hne Hc Hb. unfold parseLine.
    rewrite eqb_empty_false, Hc, IndexAny_blank, Hb by done.
    cbn [orb]. rewrite Nat2Z.id.
    destruct (TrimSpace_spec text) as (_ & _ & _ & _ & _ & _ & He).
    destruct (parseLine_key_value _ Hb He)
      as (k & ws & v & E & Ek & Ev & Hk & Hws1 & Hws2 & Hv1 & Hv2 & Hv3).
    exists k, ws, v. rewrite Ek, Ev.
    destruct (Z.ltb_spec (Z.of_nat (spanNoBlank (strings.TrimSpace text))) 0);
      [lia|].
    by repeat split.
Qed.

Lemma C7_parseLine_witness :
  parseLine "  # note" = None
  ∧ parseLine (" uh" +:+ tab) = Some ("uh", "true")
  ∧ (∃ k rest, strings.TrimSpace "str  the str " = k +:+ rest
               ∧ hasBlank k = false ∧ startsBlank rest = true
               ∧ parseLine "str  the str " = Some (k, strings.TrimSpace rest))
  ∧ (∃ k ws v, strings.TrimSpace "str  the str " = k +:+ ws +:+ v
               ∧ parseLine "str  the str " = Some (k, v)
               ∧ hasBlank k = false ∧ startsBlank ws = true
               ∧ allSpace ws = true ∧ v ≠ "")
  ∧ (∃ l r, "  uh " = l +:+ strings.TrimSpace "  uh " +:+ r
            ∧ allSpace l = true ∧ allSpace r = true).
Proof.
  destruct C7_parseLine as (H1 & H2 & H3 & H4 & H5 & _).
  split; [apply H2; right; reflexivity|].
  split; [apply (H3 (" uh" +:+ tab)); [discriminate|reflexivity|reflexivity]|].
  split; [apply (H4 "str  the str "); [discriminate|reflexivity|reflexivity]|].
  split.
  - destruct (H5 "str  the str ")
      as (k & ws & v & E & Hp & Hk & Hw1 & Hw2 & Hv & _);
      [reflexivity|discriminate|reflexivity|reflexivity|].
    exists k, ws, v. by repeat split.
  - destruct (H1 "  uh " eq_refl) as (l & r & E & Hl & Hr & _).
    exists l, r. by repeat split.
Defined.

(* ===================================================================== *)
(** * The value expander *)
(* ===================================================================== *)

Lemma length_drop_s (n : nat) (s : string) :
  (String.length (strings.drop n s) ≤ String.length s)%nat.
Proof.
  revert s. induction n as [|n IH]; intros [|c s]; cbn; try lia.
  specialize (IH s). lia.
Qed.

(** The loop does not depend on its fuel once there is enough of it. *)
Lemma expand_loop_fuel (mapping : string → string) (n1 : nat) :
  ∀ n2 s, (String.length s ≤ n1)%nat → (String.length s ≤ n2)%nat →
  os.expand_loop n1 mapping s = os.expand_loop n2 mapping s.
Proof.
  induction n1 as [|n1 IH]; intros [|n2] [|c rest] H1 H2;
    cbn in H1, H2; try lia; try done.
  cbn [os.expand_loop].
  destruct (Ascii.eqb c "$" && negb (String.eqb rest ""))%bool.
  - destruct (os.getShellName rest) as [name w]. f_equal.
    pose proof (length_drop_s w rest). apply IH; lia.
  - f_equal. apply IH; lia.
Qed.

Lemma Expand_empty (mapping : string → string) : os.Expand "" mapping = "".
Proof. reflexivity. Qed.

(** One iteration of [Expand]. *)
Lemma Expand_cons (mapping : string → string) (c : ascii) (rest : string) :
  os.Expand (String c rest) mapping =
    if (Ascii.eqb c "$" && negb (String.eqb rest ""))%bool then
      let '(name, w) := os.getShellName rest in
      (if String.eqb name ""
       then if (0 <? w)%nat then "" else "$"
       else mapping name)
      +:+ os.Expand (strings.drop w rest) mapping
    else String c (os.Expand rest mapping).
Proof.
  unfold os.Expand. cbn [String.length os.expand_loop].
  destruct (Ascii.eqb c "$" && negb (String.eqb rest ""))%bool; [|done].
  destruct (os.getShellName rest) as [name w]. f_equal.
  pose proof (length_drop_s w rest). apply expand_loop_fuel; lia.
Qed.

(** Text without a dollar is copied. *)
Lemma Expand_literal (mapping : string → string) (lit rest : string) :
  hasByte lit "$" = false →
  os.Expand (lit +:+ rest) mapping = lit +:+ os.Expand rest mapping.
Proof.
  induction lit as [|c lit IH]; [done|].
  unfold hasByte. cbn [strings.containsByte].
  intros [Hc Hl]%orb_false_elim. rewrite Ascii.eqb_sym in Hc.
  rewrite !app_String, Expand_cons, Hc. cbn [andb]. by rewrite IH.
Qed.

Lemma spanAlphaNum_app (name rest : string) :
  allAlphaNum name = true → startsAlphaNum rest = false →
  os.spanAlphaNum (name +:+ rest) = String.length name.
Proof.
  intros Hn Hr. induction name as [|c name IH].
  - rewrite app_empty_l. destruct rest as [|d rest]; [done|].
    cbn in Hr. cbn. by rewrite Hr.
  - cbn in Hn. apply andb_true_iff in Hn as [Hc Hn].
    rewrite app_String. cbn. by rewrite Hc, IH.
Qed.

Lemma take_app_length (s t : string) :
  strings.take (String.length s) (s +:+ t) = s.
Proof.
  induction s as [|c s IH]; [by destruct t|].
  rewrite app_String. cbn. by rewrite IH.
Qed.

Lemma drop_app_length (s t : string) :
  strings.drop (String.length s) (s +:+ t) = t.
Proof. induction s as [|c s IH]; [done|]. by rewrite app_String. Qed.

Lemma isAlphaNum_not_brace (c : ascii) :
  os.isAlphaNum c = true → Ascii.eqb c "{" = false.
Proof. destruct c as [[] [] [] [] [] [] [] []]; vm_compute; congruence. Qed.

Lemma getShellName_name (name rest : string) :
  isName name = true → startsAlphaNum rest = false →
  os.getShellName (name +:+ rest) = (name, String.length name).
Proof.
  intros Hn Hr. destruct name as [|c name]; [done|].
  cbn [isName] in Hn. apply andb_true_iff in Hn as [Ha Hs].
  apply negb_true_iff in Hs.
  pose proof Ha as Ha'. cbn [allAlphaNum] in Ha'.
  apply andb_true_iff in Ha' as [Hc _].
  rewrite app_String. cbn [os.getShellName].
  rewrite (isAlphaNum_not_brace c Hc), Hs. rewrite <- app_String.
  by rewrite spanAlphaNum_app, take_app_length.
Qed.

(** [$NAME] is replaced by the mapping of [NAME]. *)
Lemma Expand_ref (mapping : string → string) (name rest : string) :
  isName name = true → startsAlphaNum rest = false →
  os.Expand ("$" +:+ name +:+ rest) mapping
  = mapping name +:+ os.Expand rest mapping.
Proof.
  intros Hn Hr.
  change ("$" +:+ name +:+ rest) with (String "$" (name +:+ rest)).
  rewrite Expand_cons. cbn [Ascii.eqb Bool.eqb andb].
  assert (name ≠ "") as Hne by (by destruct name).
  assert (String.eqb (name +:+ rest) "" = false) as ->.
  { apply eqb_empty_false. destruct name; [done|]. by rewrite app_String. }
  cbn [negb]. rewrite getShellName_name by done.
  by rewrite eqb_empty_false, drop_app_length by done.
Qed.

Lemma indexBrace_app (name rest : string) :
  hasByte name "}" = false →
  os.indexBrace (name +:+ String "}" rest) = Some (String.length name).
Proof.
  induction name as [|c name IH]; [done|].
  unfold hasByte. cbn [strings.containsByte].
  intros [Hc Hn]%orb_false_elim. rewrite Ascii.eqb_sym in Hc.
  rewrite app_String. cbn [os.indexBrace String.length].
  by rewrite Hc, IH.
Qed.

Lemma getShellName_braced (name rest : string) :
  name ≠ "" → hasByte name "}" = false →
  os.getShellName (String "{" (name +:+ String "}" rest))
  = (name, (String.length name + 2)%nat).
Proof.
  intros Hne Hn. cbn [os.getShellName Ascii.eqb Bool.eqb].
  destruct (os.bracedSpecial (name +:+ String "}" rest)) eqn:Hsp.
  - destruct name as [|c1 name]; [done|].
    destruct name as [|c2 name]; [done|].
    exfalso. rewrite !app_String in Hsp. cbn [os.bracedSpecial] in Hsp.
    apply andb_true_iff in Hsp as [_ Hc2]. apply Ascii.eqb_eq in Hc2 as ->.
    unfold hasByte in Hn. cbn [strings.containsByte] in Hn.
    by rewrite Ascii.eqb_refl, orb_true_r in Hn.
  - unfold os.scanToBrace. rewrite indexBrace_app by done.
    destruct name as [|c name]; [done|]. cbn [String.length].
    by rewrite <- (take_app_length (String c name) (String "}" rest)) at 2.
Qed.

(** [${NAME}] is replaced by the mapping of [NAME]. *)
Lemma Expand_braced (mapping : string → string) (name rest : string) :
  name ≠ "" → hasByte name "}" = false →
  os.Expand ("${" +:+ name +:+ "}" +:+ rest) mapping
  = mapping name +:+ os.Expand rest mapping.
Proof.
  intros Hne Hn.
  change ("${" +:+ name +:+ "}" +:+ rest)
    with (String "$" (String "{" (name +:+ String "}" rest))).
  rewrite Expand_cons. cbn [Ascii.eqb Bool.eqb andb String.eqb negb].
  rewrite getShellName_braced by done.
  rewrite eqb_empty_false by done. f_equal.
  replace (String.length name + 2)%nat
    with (S (String.length (name +:+ "}"))) by (rewrite length_app_s; cbn; lia).
  cbn [strings.drop].
  change (name +:+ String "}" rest) with (name +:+ "}" +:+ rest).
  by rewrite <- app_assoc_s, drop_app_length.
Qed.

Lemma Expand_segments (mapping : string → string) (segs : list segment) :
  readable segs → os.Expand (render segs) mapping = substitute mapping segs.
Proof.
  induction segs as [|[text|name|name] segs IH]; cbn [readable render substitute].
  - done.
  - intros [Ht Hr]. by rewrite Expand_literal, IH.
  - intros (Hn & Hs & Hr). by rewrite Expand_ref, IH.
  - intros (Hne & Hn & Hr). by rewrite Expand_braced, IH.
Qed.

Lemma ParseConfigSet_path {V : Type} `{!flag.Value V}
    (fs fs' : FileSystem) (fl : flag.FlagSet V) (env : list string)
    (path : string) :
  fs (expandWith (genEnvMap env) path) = fs' (expandWith (genEnvMap env) path) →
  ParseConfigSet fs fl env path = ParseConfigSet fs' fl env path.
Proof. intros E. unfold ParseConfigSet. by rewrite E. Qed.

(** C8. The value expander replaces every reference [$NAME] and [${NAME}]
    by the snapshot's value for [NAME], the empty string when the snapshot
    has no [NAME], and leaves the text and the values put in as they are
    (no second expansion).  [ParseEnvSet] passes to the setters the
    expansion of each token of the environment value; [ParseConfigSet]
    passes the expansion of each value of the file, and opens the file at
    the expansion of the path.  The value [$HOME/dir] with [HOME=/x] is
    [/x/dir]. *)
Theorem C8_expansion :
  (∀ (envMap : gmap string string) (segs : list segment),
     readable segs →
     expandWith envMap (render segs) = substitute (λ k, envMap !!! k) segs)
  ∧ (∀ (envMap : gmap string string) (name : string),
       envMap !! name = None → envMap !!! name = "")
  ∧ (∀ (V : Type) (HV : flag.Value V) ReadEnvPrefix (fl : flag.FlagSet V) env,
       callSite <$> res_calls (ParseEnvSet ReadEnvPrefix fl env)
       = callPlan (dom (flag.formal fl)) (flag.actual fl)
           (λ p, expandWith (genEnvMap env)
                   <$> splitEscape
                         (genEnvMap env !!! envKeyForFlag (ReadEnvPrefix fl) p)
                         "," "\"))
  ∧ (∀ (V : Type) (HV : flag.Value V) fs (fl : flag.FlagSet V) env path file,
       path ≠ "" →
       fs (expandWith (genEnvMap env) path) = Opened file →
       ScanErr file = None →
       callSite <$> res_calls (ParseConfigSet fs fl env path)
       = callPlan (dom (flag.formal fl)) (flag.actual fl)
           (λ p, expandWith (genEnvMap env) <$> (scanConfig (Lines file) !!! p)))
  ∧ (∀ (V : Type) (HV : flag.Value V) fs fs' (fl : flag.FlagSet V) env path,
       fs (expandWith (genEnvMap env) path)
         = fs' (expandWith (genEnvMap env) path) →
       ParseConfigSet fs fl env path = ParseConfigSet fs' fl env path)
  ∧ expandWith (genEnvMap ["HOME=/x"]) "$HOME/dir" = "/x/dir"
  ∧ expandWith (genEnvMap ["HOME=/x"]) "${HOME}/dir$UNSET" = "/x/dir"
  ∧ expandWith (genEnvMap ["A=$B"; "B=x"]) "$A" = "$B".
Proof.
  split; [|split; [|split; [|split; [|split]]]].
  - intros envMap segs Hr. by apply Expand_segments.
  - intros envMap name H. by rewrite lookup_total_alt, H.
  - intros V HV R fl env. apply ParseEnvSet_sites.
  - intros V HV fs fl env path file Hp Hopen Hscan.
    rewrite (ParseConfigSet_pass fs fl env path file) by done.
    apply pass_plan.
  - intros V HV fs fs' fl env path. apply ParseConfigSet_path.
  - by vm_compute.
Qed.

(** The config file [str $HOME/dir], found at [$PWD/conf], with [HOME=/x]
    and [PWD=/etc]: the file at [/etc/conf] is opened and the flag [str] is
    set to [/x/dir]. *)
Lemma C8_expansion_witness :
  let env := ["HOME=/x"; "PWD=/etc"] in
  let fs : FileSystem :=
    λ path, if String.eqb path "/etc/conf"
            then Opened {| Lines := ["str $HOME/dir"]; ScanErr := None |}
            else OpenFailed os.ENOENT in
  expandWith (genEnvMap env) (render [Ref "HOME"; Lit "/dir-"; Braced "PWD"])
    = "/x" +:+ "/dir-" +:+ "/etc" +:+ ""
  ∧ expandWith (genEnvMap env) "$UNSET" = ""
  ∧ callSite <$> res_calls (ParseConfigSet fs (testFlags ∅) env "$PWD/conf")
    = [("str", "/x/dir")]
  ∧ ParseConfigSet fs (testFlags ∅) env "$PWD/conf"
    = ParseConfigSet
        (λ _, Opened {| Lines := ["str $HOME/dir"]; ScanErr := None |})
        (testFlags ∅) env "$PWD/conf".
Proof.
  intros env fs.
  destruct C8_expansion as (H1 & H2 & _ & H4 & H5 & _).
  split; [|split; [|split]].
  - rewrite (H1 (genEnvMap env) [Ref "HOME"; Lit "/dir-"; Braced "PWD"]);
      [by vm_compute|]. cbn. by repeat split.
  - change "$UNSET" with (render [Ref "UNSET"]).
    rewrite (H1 (genEnvMap env) [Ref "UNSET"]) by (cbn; by repeat split).
    cbn [substitute]. rewrite (H2 (genEnvMap env) "UNSET") by (by vm_compute).
    reflexivity.
  - rewrite (H4 testValue _ fs (testFlags ∅) env "$PWD/conf"
               {| Lines := ["str $HOME/dir"]; ScanErr := None |});
      [by vm_compute|discriminate|by vm_compute|reflexivity].
  - apply (H5 testValue _). by vm_compute.
Defined.

(* ===================================================================== *)
(** * The package's test script *)
(* ===================================================================== *)

(** The runs of [testdata/config-file.txtar]. *)

(** [exec test -config-path conf] *)
Lemma script_config_file :
  let r := testMain usageLine testFS [] {[ "config-path" := stringValue "conf" ]} in
  status r = 0
  ∧ strings.Contains (stdout r) "str the str" = true
  ∧ strings.Contains (stdout r)
      ("arr " +:+ quote +:+ "value 1" +:+ quote +:+ ", "
       +:+ quote +:+ "value 2" +:+ quote) = true.
Proof. by vm_compute. Qed.

(** [exec test -config-path conf -str other]: the command line has the
    higher priority. *)
Lemma script_cli_priority :
  let r := testMain usageLine testFS []
             {[ "config-path" := stringValue "conf"; "str" := stringValue "other" ]} in
  status r = 0
  ∧ strings.Contains (stdout r) "str other" = true
  ∧ strings.Contains (stdout r)
      ("arr " +:+ quote +:+ "value 1" +:+ quote +:+ ", "
       +:+ quote +:+ "value 2" +:+ quote) = true.
Proof. by vm_compute. Qed.

(** [exec test -config-path conf-unknown-option], [! stderr .] and
    [exec test -config-path missing]. *)
Lemma script_unknown_and_missing :
  let r := testMain usageLine testFS []
             {[ "config-path" := stringValue "conf-unknown-option" ]} in
  let r' := testMain usageLine testFS []
              {[ "config-path" := stringValue "missing" ]} in
  (status r = 0 ∧ stderr r = "") ∧ status r' = 0.
Proof. by vm_compute. Qed.

(** [! exec test -config-path some-dir] and
    [! exec test -config-path conf-no-perm]. *)
Lemma script_fatal :
  let r := testMain usageLine testFS []
             {[ "config-path" := stringValue "some-dir" ]} in
  let r' := testMain usageLine testFS []
              {[ "config-path" := stringValue "conf-no-perm" ]} in
  (status r ≠ 0 ∧ stdout r = ""
   ∧ strings.Contains (stderr r) "read some-dir: is a directory" = true)
  ∧ (status r' ≠ 0 ∧ stdout r' = ""
     ∧ strings.Contains (stderr r')
         "open config file: open conf-no-perm: permission denied" = true).
Proof. by vm_compute. Qed.

(* ===================================================================== *)
(** * The earlier revision *)
(* ===================================================================== *)

Lemma ToUpper_app (a b : string) :
  strings.ToUpper (a +:+ b) = strings.ToUpper a +:+ strings.ToUpper b.
Proof.
  induction a as [|c a IH]; [done|].
  rewrite app_String. cbn [strings.ToUpper]. by rewrite app_String, IH.
Qed.

Lemma ReplaceAll_dash_app (a b : string) :
  strings.ReplaceAll (a +:+ b) "-" "_"
  = strings.ReplaceAll a "-" "_" +:+ strings.ReplaceAll b "-" "_".
Proof.
  rewrite !ReplaceAll_byte.
  induction a as [|c a IH]; [done|].
  rewrite app_String. cbn [mapBytes]. by rewrite app_String, IH.
Qed.

(** With a prefix, the two revisions give the same key. *)
Lemma earlier_envKeyForFlag_prefix (prefix name : string) :
  prefix ≠ "" →
  earlier.envKeyForFlag prefix name = envKeyForFlag prefix name.
Proof.
  intros Hne. unfold earlier.envKeyForFlag, envKeyForFlag.
  rewrite eqb_empty_false by done. cbn [strings.Join].
  by rewrite !ToUpper_app.
Qed.

(** Without a prefix, the earlier revision left an underscore in front. *)
Lemma earlier_envKeyForFlag_no_prefix (name : string) :
  earlier.envKeyForFlag "" name = "_" +:+ envKeyForFlag "" name.
Proof.
  unfold earlier.envKeyForFlag, envKeyForFlag. cbn [strings.Join String.eqb].
  by rewrite !ToUpper_app.
Qed.

(** The earlier revision split lines at the first space only, skipped keys
    without a value and returned an error for a key that is no flag. *)
Lemma earlier_scanLine_examples :
  let allFlags : gset string := dom (flag.formal (testFlags ∅)) in
  earlier.scanLine allFlags "arr value 1" = earlier.Append "arr" "value 1"
  ∧ earlier.scanLine allFlags ("arr" +:+ tab +:+ "value 2")
    = earlier.UnknownOption ("arr" +:+ tab +:+ "value")
  ∧ earlier.scanLine allFlags "uh" = earlier.Continue
  ∧ earlier.scanLine allFlags "# a comment" = earlier.Continue
  ∧ earlier.scanConfig allFlags ["str a"; "unknown-option hello"; "str b"] ∅
    = inl "unknown-option".
Proof. by vm_compute. Qed.

(** A line of the current revision that is split at a tab or a space is
    not split at other white space: a vertical tab stays in the key. *)
Lemma parseLine_vertical_tab :
  parseLine ("a" +:+ String "011" "b") = Some ("a" +:+ String "011" "b", "true")
  ∧ parseLine ("a" +:+ String "011" "b c") = Some ("a" +:+ String "011" "b", "c").
Proof. by vm_compute. Qed.

(* ===================================================================== *)
(** * Further properties: the environment snapshot *)
(* ===================================================================== *)

Lemma Cut_byte_cons (c a : ascii) (s : string) :
  strings.Cut (String c s) (String a "") =
    if Ascii.eqb c a then ("", s, true)
    else let '(before, after, found) := strings.Cut s (String a "") in
         if found then (String c before, after, true)
         else (String c s, "", false).
Proof.
  change (strings.Cut (String c s) (String a ""))
    with (if strings.HasPrefix (String c s) (String a "")
          then ("", strings.drop 1 (String c s), true)
          else let '(before, after, found) := strings.Cut s (String a "") in
               if found then (String c before, after, true)
               else (String c s, "", false)).
  by rewrite HasPrefix_byte.
Qed.

(** What [strings.Cut] finds is the first separator. *)
Lemma Cut_byte_found (a : ascii) (s : string) : ∀ k v,
  strings.Cut s (String a "") = (k, v, true) →
  s = k +:+ String a v ∧ hasByte k a = false.
Proof.
  induction s as [|c s IH]; intros k v; [done|].
  rewrite Cut_byte_cons. destruct (Ascii.eqb_spec c a) as [->|Hne].
  - intros [= <- <-]. by split.
  - destruct (strings.Cut s (String a "")) as [[b af] found].
    destruct found; [|done]. intros [= <- <-].
    destruct (IH b af eq_refl) as [-> Hb]. split; [done|].
    unfold hasByte in *. cbn [strings.containsByte]. rewrite Hb, orb_false_r.
    apply Ascii.eqb_neq. congruence.
Qed.

Lemma genEnvMap_snoc (env : list string) (en : string) :
  genEnvMap (env ++ [en]) = envEntry (genEnvMap env) en.
Proof.
  rewrite (genEnvMap_foldl (env ++ [en])), (genEnvMap_foldl env).
  by rewrite foldl_app.
Qed.

Lemma genEnvMap_lookup_last (env : list string) (k : string) :
  genEnvMap env !! k = last (omap (entryValue k) env).
Proof.
  induction env as [|en env IH] using rev_ind; [done|].
  rewrite genEnvMap_snoc, omap_app. unfold envEntry. cbn [omap list_omap].
  unfold entryValue at 2.
  destruct (strings.Cut en "=") as [[k' v] ok]. destruct ok.
  - destruct (decide (k' = k)) as [->|Hne].
    + by rewrite lookup_insert_eq, last_snoc.
    + by rewrite lookup_insert_ne, app_nil_r.
  - by rewrite app_nil_r.
Qed.

(** X1. The snapshot is last-write-wins, and cuts an entry at its first
    [=]: the variable [k] holds the value of the last entry of the form
    [k=v], with everything after the first [=] in [v]; it is absent when
    the list has no such entry. *)
Theorem X1_genEnvMap_last_wins :
  ∀ (env1 env2 : list string) (k v : string),
    hasByte k "=" = false →
    (∀ en v', en ∈ env2 → en ≠ k +:+ "=" +:+ v') →
    genEnvMap (env1 ++ (k +:+ "=" +:+ v) :: env2) !! k = Some v.
Proof.
  intros env1 env2 k v Hk Hlater.
  rewrite genEnvMap_lookup_last, omap_app. cbn [omap list_omap].
  unfold entryValue at 2.
  change (k +:+ "=" +:+ v) with (k +:+ String "=" v).
  rewrite (Cut_first k v "=" Hk), decide_True by done.
  assert (omap (entryValue k) env2 = []) as ->.
  { induction env2 as [|en env2 IH]; [done|].
    cbn [omap list_omap]. unfold entryValue at 1.
    destruct (strings.Cut en "=") as [[k' v'] ok] eqn:Hcut.
    assert (∀ en0 v0, en0 ∈ env2 → en0 ≠ k +:+ "=" +:+ v0) as Hrest.
    { intros en0 v0 Hin. apply Hlater. by right. }
    destruct ok; [|by apply IH].
    destruct (decide (k' = k)) as [->|Hne]; [|by apply IH].
    apply Cut_byte_found in Hcut as [-> _].
    exfalso. by apply (Hlater (k +:+ String "=" v') v'); [left|]. }
  apply last_snoc.
Qed.

Lemma X1_genEnvMap_last_wins_witness :
  genEnvMap (["A=1"; "B=x"] ++ ("A" +:+ "=" +:+ "2=3") :: ["C=A=4"]) !! "A"
  = Some "2=3".
Proof.
  apply (X1_genEnvMap_last_wins ["A=1"; "B=x"] ["C=A=4"] "A" "2=3").
  - reflexivity.
  - intros en v' [->|[]%elem_of_nil]%elem_of_cons. discriminate.
Defined.

(** X2. The snapshot holds nothing but what the entries give: a variable
    [k] bound to [v] comes from an entry [k=v] of the list, and [k] has no
    [=] in it (it may be empty). *)
Theorem X2_genEnvMap_bindings :
  ∀ (env : list string) (k v : string),
    genEnvMap env !! k = Some v →
    hasByte k "=" = false ∧ (k +:+ "=" +:+ v) ∈ env.
Proof.
  intros env k v. rewrite genEnvMap_lookup_last.
  intros Hlast. apply last_Some_elem_of in Hlast.
  apply list_elem_of_omap in Hlast as (en & Hen & Hv).
  unfold entryValue in Hv.
  destruct (strings.Cut en "=") as [[k' v'] ok] eqn:Hcut.
  destruct ok; [|done]. destruct (decide (k' = k)) as [->|]; [|done].
  injection Hv as ->. apply Cut_byte_found in Hcut as [-> Hk]. by split.
Qed.

Lemma X2_genEnvMap_bindings_witness :
  hasByte "HOME" "=" = false
  ∧ ("HOME" +:+ "=" +:+ "/x") ∈ ["JUNK"; "HOME=/x"; "=v"].
Proof.
  apply (X2_genEnvMap_bindings ["JUNK"; "HOME=/x"; "=v"] "HOME" "/x").
  reflexivity.
Defined.

(* ===================================================================== *)
(** * Further properties: writing and splitting a list value *)
(* ===================================================================== *)

Lemma escapeDelims_cons (c : ascii) (t : string) :
  escapeDelims (String c t) =
    if Ascii.eqb c "," then String "\" (String "," (escapeDelims t))
    else String c (escapeDelims t).
Proof.
  unfold escapeDelims, strings.ReplaceAll.
  cbn [strings.replace_from String.length Nat.sub]. rewrite HasPrefix_byte.
  by destruct (Ascii.eqb c ",").
Qed.

Lemma escapeDelims_starts (t : string) : startsComma (escapeDelims t) = false.
Proof.
  destruct t as [|c t]; [done|]. rewrite escapeDelims_cons.
  by destruct (Ascii.eqb c ",") eqn:E.
Qed.

Lemma escapeDelims_empty (t : string) : escapeDelims t = "" → t = "".
Proof.
  destruct t as [|c t]; [done|]. rewrite escapeDelims_cons.
  by destruct (Ascii.eqb c ",").
Qed.

Lemma unescapedFrom_backslash (r : string) :
  startsComma r = false → r ≠ "" →
  unescapedFrom (String "\" r)
  = let '(t, ts) := unescapedFrom r in (String "\" t, ts).
Proof.
  destruct r as [|d r]; [done|]. cbn [startsComma]. intros Hd _.
  cbn [unescapedFrom]. change (Ascii.eqb "\" "\") with true. cbv iota.
  by rewrite Hd.
Qed.

(** Reading an escaped token back, up to the end of the string or to the
    delimiter that follows it. *)
Lemma unescapedFrom_escapeDelims (t : string) : ∀ rest,
  rest = "" ∨ (endsBackslash t = false ∧ startsComma rest = true) →
  unescapedFrom (escapeDelims t +:+ rest)
  = let '(a, b) := unescapedFrom rest in (t +:+ a, b).
Proof.
  induction t as [|c t IH]; intros rest Hrest.
  - rewrite app_empty_l. by destruct (unescapedFrom rest).
  - assert (rest = "" ∨ (endsBackslash t = false ∧ startsComma rest = true))
      as Hrest'.
    { destruct Hrest as [->|[He Hs]]; [by left|]. right. split; [|done].
      destruct t; [done|]. exact He. }
    specialize (IH rest Hrest').
    rewrite escapeDelims_cons.
    destruct (Ascii.eqb_spec c ",") as [->|Hc].
    + rewrite !app_String. cbn [unescapedFrom].
      change (Ascii.eqb "\" "\") with true.
      change (Ascii.eqb "," ",") with true. cbv iota.
      rewrite IH. by destruct (unescapedFrom rest).
    + rewrite app_String.
      destruct (Ascii.eqb_spec c "\") as [->|Hb].
      * destruct (escapeDelims t +:+ rest) as [|d r] eqn:Er.
        -- destruct (escapeDelims t) eqn:Et; [|by rewrite app_String in Er].
           rewrite app_empty_l in Er. subst rest.
           apply escapeDelims_empty in Et as ->. reflexivity.
        -- rewrite unescapedFrom_backslash, IH; [by destruct (unescapedFrom rest)| |done].
           destruct t as [|c' t'].
           ++ cbn in Er. rewrite app_empty_l in Er. subst rest.
              destruct Hrest as [?|[He _]]; [done|]. by cbn in He.
           ++ pose proof (escapeDelims_starts (String c' t')) as Hs.
              destruct (escapeDelims (String c' t')) as [|e et] eqn:Ee;
                [by apply escapeDelims_empty in Ee|].
              rewrite app_String in Er. injection Er as <- _. exact Hs.
      * cbn [unescapedFrom].
        apply Ascii.eqb_neq in Hc, Hb. rewrite Hb, Hc, IH.
        by destruct (unescapedFrom rest).
Qed.

Lemma unescapedFrom_Join (ts : list string) : ∀ t,
  Forall (λ t, endsBackslash t = false) (t :: ts) →
  unescapedFrom (strings.Join (escapeDelims <$> t :: ts) ",") = (t, ts).
Proof.
  induction ts as [|t2 ts IH]; intros t Hts.
  - cbn [fmap list_fmap strings.Join].
    rewrite <- (app_empty_r (escapeDelims t)).
    rewrite unescapedFrom_escapeDelims by (by left).
    cbn. by rewrite app_empty_r.
  - apply Forall_cons in Hts as [Ht Hts].
    rewrite fmap_cons.
    change (strings.Join (escapeDelims t :: (escapeDelims <$> t2 :: ts)) ",")
      with (match escapeDelims <$> t2 :: ts with
            | [] => escapeDelims t
            | _ => escapeDelims t +:+ ","
                   +:+ strings.Join (escapeDelims <$> t2 :: ts) ","
            end).
    rewrite fmap_cons.
    change ("," +:+ strings.Join (escapeDelims t2 :: (escapeDelims <$> ts)) ",")
      with (String "," (strings.Join (escapeDelims t2 :: (escapeDelims <$> ts)) ",")).
    rewrite unescapedFrom_escapeDelims by (by right).
    cbn [unescapedFrom]. change (Ascii.eqb "," "\") with false.
    change (Ascii.eqb "," ",") with true. cbv iota.
    rewrite <- fmap_cons, (IH t2 Hts). by rewrite app_empty_r.
Qed.

(** X3. Writing a list and splitting it is a round trip: tokens that hold
    no NUL byte and do not end with the escape marker, each written with
    its delimiters escaped and joined by the delimiter, are what
    [splitEscape] returns, in order; the one exception is the empty
    string, which is no token at all. *)
Theorem X3_splitEscape_round_trip :
  ∀ ts : list string,
    Forall (λ t, noNUL t ∧ endsBackslash t = false) ts →
    strings.Join (escapeDelims <$> ts) "," ≠ "" →
    splitEscape (strings.Join (escapeDelims <$> ts) ",") "," "\" = ts.
Proof.
  intros [|t ts] Hts Hne; [done|].
  rewrite splitEscape_unescaped by done.
  rewrite unescapedFrom_Join.
  - clear Hne. induction Hts as [|x l [Hx _] _ IH]; [done|].
    by rewrite fmap_cons, unmark_noNUL, IH.
  - eapply Forall_impl; [exact Hts|]. by intros x [_ ?].
Qed.

Lemma X3_splitEscape_round_trip_witness :
  splitEscape (strings.Join (escapeDelims <$> ["a,b"; ""; "c\,d"; "\e"]) ",") "," "\"
  = ["a,b"; ""; "c\,d"; "\e"].
Proof.
  apply X3_splitEscape_round_trip.
  - repeat constructor.
  - by vm_compute.
Defined.

(* ===================================================================== *)
(** * Further properties: the environment key *)
(* ===================================================================== *)

Lemma mapBytes_app (f : ascii → ascii) (s t : string) :
  mapBytes f (s +:+ t) = mapBytes f s +:+ mapBytes f t.
Proof.
  induction s as [|c s IH]; [done|].
  rewrite app_String. cbn [mapBytes]. by rewrite app_String, IH.
Qed.

Lemma mapBytes_empty (f : ascii → ascii) (s : string) :
  String.eqb (mapBytes f s) "" = String.eqb s "".
Proof. by destruct s. Qed.

Lemma hasByte_app (s t : string) (a : ascii) :
  hasByte (s +:+ t) a = (hasByte s a || hasByte t a)%bool.
Proof.
  unfold hasByte. induction s as [|c s IH]; [done|].
  rewrite app_String. cbn [strings.containsByte]. by rewrite IH, orb_assoc.
Qed.

Lemma hasByte_mapBytes (g : ascii → ascii) (s : string) (a : ascii) :
  (∀ c, g c ≠ a) → hasByte (mapBytes g s) a = false.
Proof.
  intros Hg. unfold hasByte. induction s as [|c s IH]; [done|].
  cbn [mapBytes strings.containsByte]. rewrite IH, orb_false_r.
  apply Ascii.eqb_neq. intros E. by apply (Hg c).
Qed.

Lemma upperSnakeByte_upper (c : ascii) :
  strings.upper_byte (upperSnakeByte c) = upperSnakeByte c
  ∧ upperSnakeByte (strings.upper_byte c) = upperSnakeByte c
  ∧ upperSnakeByte (if Ascii.eqb c "-" then "_"%char else c) = upperSnakeByte c
  ∧ (if Ascii.eqb (upperSnakeByte c) "-" then "_"%char else upperSnakeByte c)
    = upperSnakeByte c.
Proof. by destruct c as [[] [] [] [] [] [] [] []]. Qed.

Lemma upperSnake_ToUpper (s : string) :
  upperSnake (strings.ToUpper s) = upperSnake s.
Proof.
  unfold upperSnake. rewrite ToUpper_mapBytes, mapBytes_compose.
  apply mapBytes_ext. intros c. apply upperSnakeByte_upper.
Qed.

Lemma upperSnake_ReplaceAll (s : string) :
  upperSnake (strings.ReplaceAll s "-" "_") = upperSnake s.
Proof.
  unfold upperSnake. rewrite ReplaceAll_byte, mapBytes_compose.
  apply mapBytes_ext. intros c. apply upperSnakeByte_upper.
Qed.

Lemma ToUpper_upperSnake (s : string) :
  strings.ToUpper (upperSnake s) = upperSnake s.
Proof.
  unfold upperSnake. rewrite ToUpper_mapBytes, mapBytes_compose.
  apply mapBytes_ext. intros c. apply upperSnakeByte_upper.
Qed.

Lemma ReplaceAll_upperSnake (s : string) :
  strings.ReplaceAll (upperSnake s) "-" "_" = upperSnake s.
Proof.
  unfold upperSnake. rewrite ReplaceAll_byte, mapBytes_compose.
  apply mapBytes_ext. intros c. apply upperSnakeByte_upper.
Qed.

(** X4. An environment key is in upper case and has no dash: upper-casing
    it or replacing its dashes changes nothing.  The key does not tell
    names apart that differ only in the case of ASCII letters or in dash
    against underscore: such flags read the same variable. *)
Theorem X4_envKeyForFlag_alphabet :
  ∀ prefix name : string,
    strings.ToUpper (envKeyForFlag prefix name) = envKeyForFlag prefix name
    ∧ strings.ReplaceAll (envKeyForFlag prefix name) "-" "_"
      = envKeyForFlag prefix name
    ∧ hasByte (envKeyForFlag prefix name) "-" = false
    ∧ envKeyForFlag prefix (strings.ToUpper name) = envKeyForFlag prefix name
    ∧ envKeyForFlag prefix (strings.ReplaceAll name "-" "_")
      = envKeyForFlag prefix name
    ∧ envKeyForFlag (strings.ToUpper prefix) name = envKeyForFlag prefix name
    ∧ envKeyForFlag (strings.ReplaceAll prefix "-" "_") name
      = envKeyForFlag prefix name.
Proof.
  intros prefix name.
  assert (∀ c, upperSnakeByte c ≠ "-"%char) as Hd
    by (intros c; apply upperSnakeByte_range).
  assert (String.eqb (strings.ToUpper prefix) "" = String.eqb prefix "") as E1
    by (by rewrite ToUpper_mapBytes, mapBytes_empty).
  assert (String.eqb (strings.ReplaceAll prefix "-" "_") "" = String.eqb prefix "")
    as E2 by (by rewrite ReplaceAll_byte, mapBytes_empty).
  rewrite !envKeyForFlag_unfold, E1, E2.
  rewrite !upperSnake_ToUpper, !upperSnake_ReplaceAll.
  assert (∀ s, hasByte (upperSnake s) "-" = false) as Hh
    by (intros s0; by apply hasByte_mapBytes).
  destruct (String.eqb prefix "").
  - by rewrite ToUpper_upperSnake, ReplaceAll_upperSnake, Hh.
  - rewrite !ToUpper_app, !ReplaceAll_dash_app.
    rewrite !ToUpper_upperSnake, !ReplaceAll_upperSnake, !hasByte_app, !Hh.
    done.
Qed.

Lemma Base_nonempty (path : string) : filepath.Base path ≠ "".
Proof.
  unfold filepath.Base. destruct (String.eqb path ""); [done|].
  destruct (String.eqb_spec
              (filepath.lastElement (filepath.stripTrailingSlashes path)) "");
    done.
Qed.

Lemma stripTrailingSlashes_cons (c : ascii) (s : string) :
  filepath.stripTrailingSlashes (String c s) =
    match filepath.stripTrailingSlashes s with
    | EmptyString => if Ascii.eqb c "/" then "" else String c ""
    | String d r => String c (String d r)
    end.
Proof. reflexivity. Qed.

Lemma stripTrailingSlashes_base (x b : string) :
  b ≠ "" → hasByte b "/" = false →
  filepath.stripTrailingSlashes (x +:+ b) = x +:+ b.
Proof.
  intros Hb Hs. induction x as [|c x IH].
  - rewrite app_empty_l. clear Hb. induction b as [|c b IH]; [done|].
    unfold hasByte in Hs. cbn [strings.containsByte] in Hs.
    apply orb_false_elim in Hs as [Hc Hs]. rewrite Ascii.eqb_sym in Hc.
    rewrite stripTrailingSlashes_cons, (IH Hs), Hc. by destruct b.
  - rewrite app_String, stripTrailingSlashes_cons, IH.
    destruct (x +:+ b) eqn:E; [|done].
    destruct x; [by rewrite app_empty_l in E|by rewrite app_String in E].
Qed.

Lemma lastElement_base (dir b : string) :
  hasByte b "/" = false →
  filepath.lastElement (dir +:+ "/" +:+ b) = b.
Proof.
  intros Hs. induction dir as [|c dir IH].
  - change ("" +:+ "/" +:+ b) with (String "/" b).
    cbn [filepath.lastElement]. fold (hasByte b "/"). by rewrite Hs.
  - rewrite app_String. cbn [filepath.lastElement].
    fold (hasByte (dir +:+ "/" +:+ b) "/").
    rewrite hasByte_app, hasByte_app, orb_true_r. exact IH.
Qed.

Lemma Base_of_path (dir b : string) :
  b ≠ "" → hasByte b "/" = false →
  filepath.Base (dir +:+ "/" +:+ b) = b.
Proof.
  intros Hb Hs. unfold filepath.Base.
  assert (dir +:+ "/" +:+ b ≠ "") as Hne.
  { destruct dir; [done|]. by rewrite app_String. }
  rewrite eqb_empty_false by done.
  rewrite <- app_assoc_s, stripTrailingSlashes_base by done.
  rewrite app_assoc_s, lastElement_base by done.
  by rewrite eqb_empty_false.
Qed.

(** X5. With the package's own [ReadEnvPrefix] the prefix is never empty,
    so the key always has a prefix part and the branch of
    [envKeyForFlag] for the empty prefix is not taken: a flag set with no
    name reads [._NAME].  Of a name that is a path only the last element
    enters the key.  ([NAME] is the name of the flag upper-cased with its
    dashes replaced, [upperThenSnake].) *)
Theorem X5_default_prefix :
  ∀ (V : Type) (fl : flag.FlagSet V) (name : string),
    defaultReadEnvPrefix fl ≠ ""
    ∧ envKeyForFlag (defaultReadEnvPrefix fl) name
      = upperThenSnake (defaultReadEnvPrefix fl) +:+ "_" +:+ upperThenSnake name
    ∧ (flag.name fl = "" →
       envKeyForFlag (defaultReadEnvPrefix fl) name
       = "._" +:+ upperThenSnake name)
    ∧ (∀ dir b, flag.name fl = dir +:+ "/" +:+ b →
         b ≠ "" → hasByte b "/" = false →
         envKeyForFlag (defaultReadEnvPrefix fl) name
         = upperThenSnake b +:+ "_" +:+ upperThenSnake name).
Proof.
  intros V fl name. unfold defaultReadEnvPrefix, upperThenSnake.
  pose proof (Base_nonempty (flag.name fl)) as Hne.
  split; [done|].
  rewrite envKeyForFlag_unfold, eqb_empty_false, !ReplaceAll_dash_ToUpper
    by done.
  split; [done|]. split.
  - intros ->. reflexivity.
  - intros dir b -> Hb Hs. by rewrite Base_of_path, ReplaceAll_dash_ToUpper.
Qed.

Lemma X5_default_prefix_witness :
  envKeyForFlag (defaultReadEnvPrefix myAppFlags) "some-string"
  = upperThenSnake "my-app" +:+ "_" +:+ upperThenSnake "some-string".
Proof.
  destruct (X5_default_prefix testValue myAppFlags "some-string")
    as (_ & _ & _ & H).
  apply (H "/usr/bin" "my-app"); [reflexivity|discriminate|reflexivity].
Defined.

(* ===================================================================== *)
(** * Further properties: the config table *)
(* ===================================================================== *)

Lemma foldl_configLine_values (k : string) (lines : list string) :
  ∀ m : gmap string (list string),
  foldl configLine m lines !!! k = m !!! k ++ omap (lineValue k) lines.
Proof.
  induction lines as [|text lines IH]; intros m.
  - by rewrite app_nil_r.
  - cbn [foldl omap list_omap]. rewrite IH. unfold configLine, lineValue.
    destruct (parseLine text) as [[k' v]|]; [|done].
    destruct (decide (k' = k)) as [->|Hne].
    + by rewrite lookup_total_insert_eq, <- app_assoc.
    + by rewrite lookup_total_insert_ne.
Qed.

Lemma scanConfig_values (lines : list string) (k : string) :
  scanConfig lines !!! k = omap (lineValue k) lines.
Proof.
  rewrite scanConfig_foldl, foldl_configLine_values.
  by rewrite lookup_total_empty.
Qed.

(** X7. The config table keeps the order of the file: under a key it holds
    the values of the lines with that key, in the order of the lines, and
    nothing else; the table of two files one after the other holds, under
    every key, the values of the first followed by those of the second. *)
Theorem X7_scanConfig_file_order :
  (∀ (lines : list string) (k : string),
     scanConfig lines !!! k = omap (lineValue k) lines)
  ∧ (∀ (lines1 lines2 : list string) (k : string),
       scanConfig (lines1 ++ lines2) !!! k
       = scanConfig lines1 !!! k ++ scanConfig lines2 !!! k)
  ∧ (∀ (lines : list string) (k : string),
       k ∈ dom (scanConfig lines) ↔ omap (lineValue k) lines ≠ []).
Proof.
  split; [apply scanConfig_values|]. split.
  - intros lines1 lines2 k. by rewrite !scanConfig_values, omap_app.
  - intros lines k. rewrite scanConfig_foldl.
    assert (∀ m : gmap string (list string),
              k ∈ dom (foldl configLine m lines)
              ↔ k ∈ dom m ∨ omap (lineValue k) lines ≠ []) as H.
    { induction lines as [|text lines IH]; intros m.
      - cbn. naive_solver.
      - cbn [foldl omap list_omap]. rewrite IH. unfold configLine, lineValue.
        destruct (parseLine text) as [[k' v]|]; [|done].
        rewrite dom_insert_L, elem_of_union, elem_of_singleton.
        destruct (decide (k' = k)) as [->|Hne]; [|naive_solver].
        split; [intros _; by right|]. intros _. left. by left. }
    rewrite H, dom_empty_L. set_solver.
Qed.

Lemma isSpace_not_blank (c : ascii) : strings.isSpace c = false → isBlank c = false.
Proof.
  intros H. destruct (isBlank c) eqn:E; [|done].
  apply isBlank_isSpace in E. congruence.
Qed.

Lemma take_spanNoBlank_head (c : ascii) (s : string) :
  strings.isSpace c = false →
  ∃ k', strings.take (spanNoBlank (String c s)) (String c s) = String c k'.
Proof.
  intros Hc. cbn [spanNoBlank]. rewrite (isSpace_not_blank c Hc).
  cbn [strings.take]. eauto.
Qed.

(** What a line contributes is a well-formed key and value. *)
Lemma parseLine_Some (text k v : string) :
  parseLine text = Some (k, v) →
  (k ≠ "" ∧ hasBlank k = false ∧ startsSpace k = false
   ∧ strings.HasPrefix k "#" = false)
  ∧ (v ≠ "" ∧ startsSpace v = false ∧ endsSpace v = false).
Proof.
  unfold parseLine.
  destruct (TrimSpace_spec text) as (_ & _ & _ & _ & _ & Hs & He).
  remember (strings.TrimSpace text) as line eqn:El. clear El.
  destruct (String.eqb_spec line "") as [|Hne]; [done|].
  destruct (strings.HasPrefix line "#") eqn:Hc; [done|]. cbn [orb].
  rewrite IndexAny_blank. destruct (hasBlank line) eqn:Hb.
  - destruct (Z.ltb_spec (Z.of_nat (spanNoBlank line)) 0); [lia|].
    rewrite Nat2Z.id. intros [= <- <-].
    destruct (parseLine_key_value line Hb He)
      as (k & ws & v & _ & Ek & Ev & Hk & _ & _ & Hv1 & Hv2 & Hv3).
    rewrite Ek, Ev. split; [|done].
    destruct line as [|c rest]; [done|]. cbn [startsSpace] in Hs.
    destruct (take_spanNoBlank_head c rest Hs) as [k' Ek'].
    rewrite Ek' in Ek. subst k. split; [done|]. split; [done|]. split; [done|].
    rewrite HasPrefix_byte in Hc |- *. exact Hc.
  - change (-1 <? 0)%Z with true. cbv iota. intros [= <- <-].
    by repeat split.
Qed.

(** X8. Every key of the config table is non-empty, holds no tab or space
    and does not begin with [#] or white space; every key has at least one
    value, and every value is non-empty with no white space around it.
    So a flag whose name is empty, holds a tab or a space, or begins with
    [#] receives no setter call from [ParseConfigSet], whatever the
    file. *)
Theorem X8_config_table_well_formed :
  (∀ (lines : list string) (k : string) (vs : list string),
     scanConfig lines !! k = Some vs →
     (k ≠ "" ∧ hasBlank k = false ∧ startsSpace k = false
      ∧ strings.HasPrefix k "#" = false)
     ∧ vs ≠ []
     ∧ Forall (λ v, v ≠ "" ∧ startsSpace v = false ∧ endsSpace v = false) vs)
  ∧ (∀ (V : Type) (HV : flag.Value V) fs (fl : flag.FlagSet V) env path p,
       p = "" ∨ hasBlank p = true ∨ strings.HasPrefix p "#" = true →
       ∀ c, c ∈ res_calls (ParseConfigSet fs fl env path) → call_flag c ≠ p).
Proof.
  assert (∀ (lines : list string) (m : gmap string (list string)),
            (∀ k vs, m !! k = Some vs →
               (k ≠ "" ∧ hasBlank k = false ∧ startsSpace k = false
                ∧ strings.HasPrefix k "#" = false)
               ∧ vs ≠ []
               ∧ Forall (λ v, v ≠ "" ∧ startsSpace v = false
                              ∧ endsSpace v = false) vs) →
            ∀ k vs, foldl configLine m lines !! k = Some vs →
               (k ≠ "" ∧ hasBlank k = false ∧ startsSpace k = false
                ∧ strings.HasPrefix k "#" = false)
               ∧ vs ≠ []
               ∧ Forall (λ v, v ≠ "" ∧ startsSpace v = false
                              ∧ endsSpace v = false) vs) as Hinv.
  { induction lines as [|text lines IH]; intros m Hm; [exact Hm|].
    cbn [foldl]. apply IH. intros k vs. unfold configLine.
    destruct (parseLine text) as [[k' v]|] eqn:Hp; [|apply Hm].
    apply parseLine_Some in Hp as [Hk Hv].
    destruct (decide (k' = k)) as [->|Hne].
    - rewrite lookup_insert_eq. intros [= <-]. split; [done|].
      split; [by destruct (m !!! k)|].
      apply Forall_app. split; [|by constructor].
      rewrite lookup_total_alt. destruct (m !! k) as [old|] eqn:E; [|constructor].
      by destruct (Hm k old E) as (_ & _ & ?).
    - rewrite lookup_insert_ne by done. apply Hm. }
  assert (∀ (lines : list string) (k : string) (vs : list string),
            scanConfig lines !! k = Some vs →
            (k ≠ "" ∧ hasBlank k = false ∧ startsSpace k = false
             ∧ strings.HasPrefix k "#" = false)
            ∧ vs ≠ []
            ∧ Forall (λ v, v ≠ "" ∧ startsSpace v = false
                           ∧ endsSpace v = false) vs) as Htable.
  { intros lines. rewrite scanConfig_foldl. apply Hinv.
    intros k vs. by rewrite lookup_empty. }
  split; [exact Htable|].
  intros V HV fs fl env path p Hp c Hc <-.
  destruct (ParseConfigSet_cases fs fl env path)
    as [[err E]|(file & _ & _ & _ & E)]; rewrite E in Hc.
  - rewrite finish_calls in Hc. by apply elem_of_nil in Hc.
  - apply elem_of_pass_calls in Hc as (val & _ & _ & Hc).
    unfold configValues in Hc. rewrite lookup_total_alt in Hc.
    destruct (scanConfig (Lines file) !! call_flag c) as [vs|] eqn:Ev.
    + destruct (Htable _ _ _ Ev) as ((H1 & H2 & _ & H4) & _).
      destruct Hp as [?|[?|?]]; congruence.
    + by apply elem_of_nil in Hc.
Qed.

Lemma X8_config_table_well_formed_witness :
  ("arr" ≠ "" ∧ hasBlank "arr" = false ∧ startsSpace "arr" = false
   ∧ strings.HasPrefix "arr" "#" = false)
  ∧ ["value 1"; "value 2"] ≠ []
  ∧ Forall (λ v, v ≠ "" ∧ startsSpace v = false ∧ endsSpace v = false)
      ["value 1"; "value 2"].
Proof.
  destruct X8_config_table_well_formed as [H _].
  apply (H ["str the str"; " arr   value 1 "; "# c"; "arr" +:+ tab +:+ "value 2"]
           "arr" ["value 1"; "value 2"]).
  by vm_compute.
Defined.

(* ===================================================================== *)
(** * Further properties: writing and parsing a line *)
(* ===================================================================== *)

Lemma trimLeft_id (s : string) : startsSpace s = false → strings.trimLeft s = s.
Proof. destruct s as [|c s]; [done|]. cbn. by intros ->. Qed.

Lemma trimLeft_app (l s : string) :
  allSpace l = true → strings.trimLeft (l +:+ s) = strings.trimLeft s.
Proof.
  induction l as [|c l IH]; [done|]. cbn [allSpace].
  intros [Hc Hl]%andb_true_iff. rewrite app_String. cbn [strings.trimLeft].
  rewrite Hc. by apply IH.
Qed.

Lemma trimRight_allSpace (r : string) : allSpace r = true → strings.trimRight r = "".
Proof.
  induction r as [|c r IH]; [done|]. cbn [allSpace].
  intros [Hc Hr]%andb_true_iff. by rewrite trimRight_cons, IH, Hc.
Qed.

Lemma trimRight_app (s r : string) :
  allSpace r = true → strings.trimRight (s +:+ r) = strings.trimRight s.
Proof.
  intros Hr. induction s as [|c s IH].
  - rewrite app_empty_l. by apply trimRight_allSpace.
  - by rewrite app_String, !trimRight_cons, IH.
Qed.

Lemma startsSpace_app (s t : string) :
  s ≠ "" → startsSpace (s +:+ t) = startsSpace s.
Proof. by destruct s. Qed.

Lemma endsSpace_app (s t : string) :
  t ≠ "" → endsSpace (s +:+ t) = endsSpace t.
Proof.
  intros Ht. induction s as [|c s IH]; [done|].
  rewrite app_String. cbn [endsSpace]. rewrite IH.
  destruct (s +:+ t) eqn:E; [|done].
  destruct s; [by rewrite app_empty_l in E|by rewrite app_String in E].
Qed.

Lemma app_nonempty_l (s t : string) : s ≠ "" → s +:+ t ≠ "".
Proof. by destruct s. Qed.

Lemma app_nonempty_r (s t : string) : t ≠ "" → s +:+ t ≠ "".
Proof. destruct s; [done|]. by rewrite app_String. Qed.

(** [strings.TrimSpace] gives back a text that has no white space around
    it from the text with white space put around it. *)
Lemma TrimSpace_around (l line r : string) :
  allSpace l = true → allSpace r = true →
  line ≠ "" → startsSpace line = false → endsSpace line = false →
  strings.TrimSpace (l +:+ line +:+ r) = line.
Proof.
  intros Hl Hr Hne Hs He. unfold strings.TrimSpace.
  rewrite trimLeft_app by done.
  rewrite trimLeft_id by (by rewrite startsSpace_app).
  rewrite trimRight_app by done. by apply trimRight_id.
Qed.

Lemma hasBlank_app (s t : string) :
  hasBlank (s +:+ t) = (hasBlank s || hasBlank t)%bool.
Proof.
  induction s as [|c s IH]; [done|].
  rewrite app_String. cbn [hasBlank]. by rewrite IH, orb_assoc.
Qed.

Lemma startsBlank_hasBlank (s : string) : startsBlank s = true → hasBlank s = true.
Proof. destruct s as [|c s]; [done|]. cbn. by intros ->. Qed.

Lemma spanNoBlank_app (k rest : string) :
  hasBlank k = false → startsBlank rest = true →
  spanNoBlank (k +:+ rest) = String.length k.
Proof.
  intros Hk Hr. induction k as [|c k IH].
  - rewrite app_empty_l. destruct rest as [|d rest]; [done|].
    cbn in Hr. cbn. by rewrite Hr.
  - cbn [hasBlank] in Hk. apply orb_false_elim in Hk as [Hc Hk].
    rewrite app_String. cbn. by rewrite Hc, IH.
Qed.

Lemma HasPrefix_byte_app (k t : string) (a : ascii) :
  k ≠ "" →
  strings.HasPrefix (k +:+ t) (String a "") = strings.HasPrefix k (String a "").
Proof.
  destruct k as [|c k]; [done|]. intros _.
  by rewrite app_String, !HasPrefix_byte.
Qed.

Lemma allSpace_starts (ws : string) :
  ws ≠ "" → allSpace ws = true → startsSpace ws = true.
Proof. destruct ws as [|c ws]; [done|]. cbn. by intros _ [? _]%andb_true_iff. Qed.

(** X9. A config line of ASCII bytes written for a key and a value is
    parsed back to them.  For a key of ASCII bytes that is non-empty, holds
    no tab or space, and begins neither with [#] nor with white space, and
    a value of ASCII bytes that is non-empty with no white space around
    it: the key, a run of white space that begins with a tab or a space,
    and the value, with any white space around the whole, give the key and
    the value; the key alone (when it does not end with white space
    either) gives the key and [true].  (White space is the six bytes of
    [isSpace], so the whole line is of ASCII bytes.) *)
Theorem X9_parseLine_round_trip :
  ∀ k : string,
    isASCII k = true →
    k ≠ "" → hasBlank k = false → startsSpace k = false →
    strings.HasPrefix k "#" = false →
    (∀ ws v l r,
       isASCII v = true →
       startsBlank ws = true → allSpace ws = true →
       v ≠ "" → startsSpace v = false → endsSpace v = false →
       allSpace l = true → allSpace r = true →
       parseLine (l +:+ (k +:+ ws +:+ v) +:+ r) = Some (k, v))
    ∧ (∀ l r,
         endsSpace k = false → allSpace l = true → allSpace r = true →
         parseLine (l +:+ k +:+ r) = Some (k, "true")).
Proof.
  intros k _ Hk Hkb Hks Hkc. split.
  - intros ws v l r _ Hw1 Hw2 Hv Hvs Hve Hl Hr.
    assert (ws ≠ "") as Hw by (by destruct ws).
    unfold parseLine. rewrite TrimSpace_around; try done.
    + rewrite eqb_empty_false by (by apply app_nonempty_l).
      rewrite HasPrefix_byte_app, Hkc by done. cbn [orb].
      rewrite IndexAny_blank, hasBlank_app, hasBlank_app.
      rewrite (startsBlank_hasBlank ws Hw1), orb_true_r.
      rewrite spanNoBlank_app by (done || by destruct ws).
      destruct (Z.ltb_spec (Z.of_nat (String.length k)) 0); [lia|].
      rewrite Nat2Z.id, take_app_length, drop_app_length.
      unfold strings.TrimSpace.
      by rewrite trimLeft_app, trimLeft_id, trimRight_id.
    + by apply app_nonempty_l.
    + by rewrite startsSpace_app.
    + rewrite !endsSpace_app; by (done || apply app_nonempty_r).
  - intros l r Hke Hl Hr. unfold parseLine. rewrite TrimSpace_around by done.
    by rewrite eqb_empty_false, Hkc, IndexAny_blank, Hkb by done.
Qed.

Lemma X9_parseLine_round_trip_witness :
  parseLine (" " +:+ ("my-flag" +:+ (" " +:+ tab) +:+ "a value") +:+ tab)
  = Some ("my-flag", "a value")
  ∧ parseLine ("" +:+ "my-flag" +:+ " ") = Some ("my-flag", "true").
Proof.
  destruct (X9_parseLine_round_trip "my-flag") as [H1 H2];
    [reflexivity|discriminate|reflexivity|reflexivity|reflexivity|].
  split.
  - apply H1; (discriminate || reflexivity).
  - apply H2; reflexivity.
Defined.

(* ===================================================================== *)
(** * Further properties: reporting *)
(* ===================================================================== *)

Section reporting.
Context {V : Type} `{!flag.Value V}.
Implicit Types (fl : flag.FlagSet V).

Lemma finish_output fl log err :
  flag.output (res_flags (finish fl log err))
  = flag.output fl +:+ report (flag.Usage fl) err.
Proof.
  unfold finish, mimicFlagSetError, report. destruct err as [e|].
  - destruct fl as [n fo ac eh out us]. cbn.
    destruct us as [text|], eh; cbn;
      by rewrite ?app_assoc_s, ?app_empty_r.
  - cbn. by rewrite app_empty_r.
Qed.

Lemma finish_policy fl log err :
  flag.errorHandling (res_flags (finish fl log err)) = flag.errorHandling fl
  ∧ flag.Usage (res_flags (finish fl log err)) = flag.Usage fl.
Proof.
  unfold finish, mimicFlagSetError. destruct err as [e|]; [|done].
  destruct fl as [n fo ac eh out us]. by destruct us, eh.
Qed.

Lemma report_empty (usage : option string) (err : option error) :
  report usage err = "" ↔ err = None.
Proof.
  split; [|by intros ->]. destruct err as [e|]; [|done].
  unfold report. intros Hr. exfalso.
  assert (String.length (Error e +:+ newline +:+ default "" usage) = 0%nat) as HL
    by (by rewrite Hr).
  rewrite !length_app_s in HL. cbn in HL. lia.
Qed.

Lemma ending_success (eh : flag.ErrorHandling) (err : option error) :
  ending eh err = Return None ↔ err = None.
Proof. split; [|by intros ->]. by destruct err, eh. Qed.

(** Both resolvers end in [finish], on a flag set that has the output and
    the policy of the one they were given. *)
Lemma ParseEnvSet_finish ReadEnvPrefix fl env :
  ∃ fl' log err,
    ParseEnvSet ReadEnvPrefix fl env = finish fl' log err
    ∧ flag.output fl' = flag.output fl ∧ flag.Usage fl' = flag.Usage fl
    ∧ flag.errorHandling fl' = flag.errorHandling fl.
Proof. rewrite ParseEnvSet_pass. unfold pass. by eexists _, _, _. Qed.

Lemma ParseConfigSet_finish fs fl env path :
  ∃ fl' log err,
    ParseConfigSet fs fl env path = finish fl' log err
    ∧ flag.output fl' = flag.output fl ∧ flag.Usage fl' = flag.Usage fl
    ∧ flag.errorHandling fl' = flag.errorHandling fl.
Proof.
  destruct (ParseConfigSet_cases fs fl env path)
    as [[err ->]|(file & _ & _ & _ & ->)].
  - by eexists _, _, _.
  - unfold pass. by eexists _, _, _.
Qed.

Lemma finish_reported fl' fl log err :
  flag.output fl' = flag.output fl → flag.Usage fl' = flag.Usage fl →
  flag.errorHandling fl' = flag.errorHandling fl →
  res_outcome (finish fl' log err) = ending (flag.errorHandling fl) err
  ∧ flag.output (res_flags (finish fl' log err))
    = flag.output fl +:+ report (flag.Usage fl) err
  ∧ (res_outcome (finish fl' log err) = Return None
     ↔ flag.output (res_flags (finish fl' log err)) = flag.output fl).
Proof.
  intros Ho Hu He. rewrite finish_outcome, finish_output, Ho, Hu, He.
  split; [done|]. split; [done|]. rewrite ending_success.
  rewrite <- (report_empty (flag.Usage fl) err). split; [by intros ->; rewrite app_empty_r|].
  intros Hr. rewrite <- (app_empty_r (flag.output fl)) in Hr at 2.
  by apply (inj (String.append (flag.output fl))) in Hr.
Qed.

End reporting.

Lemma Error_joinError (errs : list error) :
  Error (joinError errs) = strings.Join (Error <$> errs) newline.
Proof.
  cbn [Error]. f_equal.
Qed.

(** What a pass reports, by the errors its setters returned. *)
Lemma pass_reported {V : Type} `{!flag.Value V} (fl : flag.FlagSet V)
    (values : string → list string) :
  let r := pass fl values in
  let errs := setterErrors (res_calls r) in
  (errs = [] →
   res_outcome r = Return None ∧ flag.output (res_flags r) = flag.output fl)
  ∧ (errs ≠ [] →
     res_outcome r = ending (flag.errorHandling fl) (Some (joinError errs))
     ∧ flag.output (res_flags r)
       = flag.output fl +:+ errorLines errs +:+ default "" (flag.Usage fl)).
Proof.
  intros r errs. subst r errs. unfold pass, setterErrors.
  rewrite !finish_calls, finish_outcome, finish_output.
  cbn [flag.set_formal flag.output flag.Usage flag.errorHandling].
  generalize (concat (flagCalls (getSetFlags fl) values (flag.formal fl)
                        <$> flag.sortFlags (dom (flag.formal fl)))).
  intros cs. rewrite <- (Join_omap call_err cs), Join_Some.
  destruct (omap call_err cs) as [|e errs]; split; try done.
  - intros _. split; [done|]. cbn [report]. by rewrite app_empty_r.
  - intros _. split; [done|]. unfold report, errorLines.
    by rewrite Error_joinError, app_assoc_s.
Qed.

(** X6. Every error a setter returns is reported, in the order of the
    calls.  When some setter call of a resolver failed, the call ends, in
    the way the error handling of the flag set tells, with the join of
    the errors the setters returned, all of them and in the order of the
    calls, and it has added to the output of the flag set the text of
    every one of them on a line of its own, in that order, and then the
    usage text.  When no setter call failed, [ParseEnvSet], and a
    [ParseConfigSet] that read its file, return nil and leave the output
    as it was. *)
Theorem X6_errors_reported :
  ∀ (V : Type) (HV : flag.Value V) (fl : flag.FlagSet V),
    (∀ ReadEnvPrefix env,
       let r := ParseEnvSet ReadEnvPrefix fl env in
       let errs := setterErrors (res_calls r) in
       (errs = [] →
        res_outcome r = Return None
        ∧ flag.output (res_flags r) = flag.output fl)
       ∧ (errs ≠ [] →
          res_outcome r = ending (flag.errorHandling fl) (Some (joinError errs))
          ∧ flag.output (res_flags r)
            = flag.output fl +:+ errorLines errs
              +:+ default "" (flag.Usage fl)))
    ∧ (∀ fs env path,
         let r := ParseConfigSet fs fl env path in
         let errs := setterErrors (res_calls r) in
         errs ≠ [] →
         res_outcome r = ending (flag.errorHandling fl) (Some (joinError errs))
         ∧ flag.output (res_flags r)
           = flag.output fl +:+ errorLines errs
             +:+ default "" (flag.Usage fl))
    ∧ (∀ fs env path file,
         let r := ParseConfigSet fs fl env path in
         path ≠ "" →
         fs (expandWith (genEnvMap env) path) = Opened file →
         ScanErr file = None →
         setterErrors (res_calls r) = [] →
         res_outcome r = Return None
         ∧ flag.output (res_flags r) = flag.output fl).
Proof.
  intros V HV fl. split; [|split].
  - intros R env. cbv zeta. rewrite ParseEnvSet_pass. apply pass_reported.
  - intros fs env path. cbv zeta.
    destruct (ParseConfigSet_cases fs fl env path)
      as [[err ->]|(file & _ & _ & _ & ->)].
    + rewrite finish_calls. by intros [].
    + apply pass_reported.
  - intros fs env path file. cbv zeta. intros Hp Hopen Hscan.
    rewrite (ParseConfigSet_pass fs fl env path file) by done.
    apply pass_reported.
Qed.

Lemma X6_errors_reported_witness :
  let fl := testFlags ∅ in
  let r := ParseEnvSet defaultReadEnvPrefix fl ["TEST_WILL_ERR=a,b"; "TEST_STR=s"] in
  setterErrors (res_calls r)
  = [errorString "invalid option for will-err";
     errorString "invalid option for will-err"]
  ∧ res_outcome r
    = ending (flag.errorHandling fl)
             (Some (joinError (setterErrors (res_calls r))))
  ∧ flag.output (res_flags r)
    = flag.output fl +:+ errorLines (setterErrors (res_calls r))
      +:+ default "" (flag.Usage fl).
Proof.
  intros fl r. split; [by vm_compute|].
  destruct (X6_errors_reported testValue _ fl) as (H & _).
  destruct (H defaultReadEnvPrefix ["TEST_WILL_ERR=a,b"; "TEST_STR=s"])
    as [_ H2].
  apply H2. by vm_compute.
Defined.

(* ===================================================================== *)
(** * Further properties: flags the source says nothing about *)
(* ===================================================================== *)

Lemma omap_None {A B} (f : A → option B) (l : list A) :
  (∀ x, x ∈ l → f x = None) → omap f l = [].
Proof.
  induction l as [|x l IH]; intros Hf; [done|].
  cbn [omap list_omap]. rewrite (Hf x) by left.
  apply IH. intros y Hy. apply Hf. by right.
Qed.

Lemma concat_nil {A B} (f : A → list B) (l : list A) :
  (∀ x, x ∈ l → f x = []) → concat (f <$> l) = [].
Proof.
  induction l as [|x l IH]; intros Hf; [done|].
  rewrite fmap_cons. cbn [concat]. rewrite (Hf x) by left.
  apply IH. intros y Hy. apply Hf. by right.
Qed.

Section untouched.
Context {V : Type} `{!flag.Value V}.
Implicit Types (fl : flag.FlagSet V) (p : string).

Lemma pass_untouched fl (values : string → list string) p :
  values p = [] →
  (∀ c, c ∈ res_calls (pass fl values) → call_flag c ≠ p)
  ∧ flag.formal (res_flags (pass fl values)) !! p = flag.formal fl !! p.
Proof.
  intros Hv. split.
  - intros c (val & _ & _ & Hc)%elem_of_pass_calls <-.
    rewrite Hv in Hc. by apply elem_of_nil in Hc.
  - rewrite pass_formal. destruct (flag.formal fl !! p) as [val|]; [|done].
    cbn. unfold flagFinal. rewrite Hv. by destruct (decide _).
Qed.

Lemma pass_noop fl (values : string → list string) :
  (∀ p, p ∈ dom (flag.formal fl) → p ∉ flag.actual fl → values p = []) →
  pass fl values
  = {| res_flags := fl; res_calls := []; res_outcome := Return None |}.
Proof.
  intros Hv. unfold pass.
  assert (∀ p val, flag.formal fl !! p = Some val →
            flagFinal (getSetFlags fl) values p val = val
            ∧ flagCalls (getSetFlags fl) values (flag.formal fl) p = []) as Hp.
  { intros p val E. unfold flagFinal, flagCalls. rewrite E.
    destruct (decide (p ∈ getSetFlags fl)) as [|Hn]; [done|].
    rewrite Hv; [done|by apply elem_of_dom|].
    intros Ha. apply Hn, elem_of_getSetFlags. split; [done|].
    by apply elem_of_dom. }
  rewrite concat_nil.
  - assert (map_imap (λ p val, Some (flagFinal (getSetFlags fl) values p val))
                     (flag.formal fl) = flag.formal fl) as ->.
    { apply map_eq. intros p. rewrite map_lookup_imap.
      destruct (flag.formal fl !! p) as [val|] eqn:E; [|done].
      cbn. by destruct (Hp p val E) as [-> _]. }
    by rewrite set_formal_id.
  - intros p [val E]%elem_of_sortFlags%elem_of_dom.
    by destruct (Hp p val E).
Qed.

Lemma configValues_none (envMap : gmap string string) (lines : list string) p :
  (∀ text, text ∈ lines → lineValue p text = None) →
  configValues envMap (scanConfig lines) p = [].
Proof.
  intros Hl. unfold configValues. by rewrite scanConfig_values, omap_None.
Qed.

End untouched.

(** X10. A flag the source holds no value for is left alone: no setter
    call, the same value after as before.  That is a flag whose variable
    is absent or empty, for [ParseEnvSet], and a flag that is the key of no
    line, for [ParseConfigSet].  When this holds for every flag that is
    defined and not set (an empty environment; a file of comments, blank
    lines and keys that name no flag), the call returns nil and hands the
    flag set back exactly as it was, output included. *)
Theorem X10_nothing_to_apply :
  ∀ (V : Type) (HV : flag.Value V) (fl : flag.FlagSet V),
    (∀ ReadEnvPrefix env p,
       genEnvMap env !! envKeyForFlag (ReadEnvPrefix fl) p = None
       ∨ genEnvMap env !! envKeyForFlag (ReadEnvPrefix fl) p = Some "" →
       flag.formal (res_flags (ParseEnvSet ReadEnvPrefix fl env)) !! p
       = flag.formal fl !! p)
    ∧ (∀ ReadEnvPrefix env,
         (∀ p, p ∈ dom (flag.formal fl) → p ∉ flag.actual fl →
               genEnvMap env !! envKeyForFlag (ReadEnvPrefix fl) p = None
               ∨ genEnvMap env !! envKeyForFlag (ReadEnvPrefix fl) p = Some "") →
         ParseEnvSet ReadEnvPrefix fl env
         = {| res_flags := fl; res_calls := []; res_outcome := Return None |})
    ∧ (∀ fs env path file p,
         path ≠ "" →
         fs (expandWith (genEnvMap env) path) = Opened file →
         ScanErr file = None →
         (∀ text, text ∈ Lines file → lineValue p text = None) →
         (∀ c, c ∈ res_calls (ParseConfigSet fs fl env path) → call_flag c ≠ p)
         ∧ flag.formal (res_flags (ParseConfigSet fs fl env path)) !! p
           = flag.formal fl !! p)
    ∧ (∀ fs env path file,
         path ≠ "" →
         fs (expandWith (genEnvMap env) path) = Opened file →
         ScanErr file = None →
         (∀ p text, p ∈ dom (flag.formal fl) → p ∉ flag.actual fl →
                    text ∈ Lines file → lineValue p text = None) →
         ParseConfigSet fs fl env path
         = {| res_flags := fl; res_calls := []; res_outcome := Return None |}).
Proof.
  intros V HV fl. split; [|split; [|split]].
  - intros R env p Hp. rewrite ParseEnvSet_pass.
    apply pass_untouched. by apply envValues_empty.
  - intros R env Hall. rewrite ParseEnvSet_pass. apply pass_noop.
    intros p Hd Ha. apply envValues_empty. by apply Hall.
  - intros fs env path file p Hpath Hopen Hscan Hlines.
    rewrite (ParseConfigSet_pass fs fl env path file) by done.
    apply pass_untouched. by apply configValues_none.
  - intros fs env path file Hpath Hopen Hscan Hlines.
    rewrite (ParseConfigSet_pass fs fl env path file) by done.
    apply pass_noop. intros p Hd Ha. apply configValues_none.
    intros text Ht. by apply Hlines.
Qed.

Lemma testFlags_dom (p : string) :
  p ∈ dom (flag.formal (testFlags ∅)) →
  p = "str" ∨ p = "config-path" ∨ p = "arr" ∨ p = "will-err".
Proof.
  unfold testFlags. cbn [flag.formal]. rewrite dom_union_L, dom_empty_L.
  rewrite !dom_insert_L. set_solver.
Qed.

Lemma X10_nothing_to_apply_witness :
  ParseEnvSet defaultReadEnvPrefix (testFlags ∅) ["HOME=/x"; "TEST_STR="; "JUNK"]
  = {| res_flags := testFlags ∅; res_calls := []; res_outcome := Return None |}
  ∧ ParseConfigSet testFS (testFlags ∅) [] "conf-unknown-option"
    = {| res_flags := testFlags ∅; res_calls := []; res_outcome := Return None |}.
Proof.
  destruct (X10_nothing_to_apply testValue _ (testFlags ∅)) as (_ & H2 & _ & H4).
  split.
  - apply H2. intros p Hd _.
    destruct (testFlags_dom p Hd) as [-> | [-> | [-> | ->]]].
    + right. by vm_compute.
    + left. by vm_compute.
    + left. by vm_compute.
    + left. by vm_compute.
  - apply (H4 testFS [] "conf-unknown-option"
              {| Lines := ["unknown-option hello"]; ScanErr := None |});
      [discriminate|reflexivity|reflexivity|].
    intros p text Hd _ [->|Hn]%elem_of_cons; [|by apply elem_of_nil in Hn].
    unfold lineValue.
    change (parseLine "unknown-option hello") with (Some ("unknown-option", "hello")).
    cbv beta iota.
    destruct (decide ("unknown-option" = p)) as [<-|]; [|reflexivity].
    destruct (testFlags_dom _ Hd) as [? | [? | [? | ?]]]; discriminate.
Defined.

(* ===================================================================== *)
(** * Further properties: what a flag holds after a pass *)
(* ===================================================================== *)

Lemma setAll_flagArray (p : string) (vs : list string) : ∀ fa : list string,
  setAll p (flagArray fa) vs
  = (flagArray (fa ++ vs),
     (λ v, {| call_flag := p; call_arg := v; call_err := None |}) <$> vs).
Proof.
  induction vs as [|v vs IH]; intros fa.
  - by rewrite app_nil_r.
  - cbn [setAll flag.Value_Set testValue_Value]. rewrite IH.
    by rewrite <- app_assoc.
Qed.

Lemma pass_unset_flag {V : Type} `{!flag.Value V} (fl : flag.FlagSet V)
    (values : string → list string) (p : string) (val : V) :
  flag.formal fl !! p = Some val → p ∉ flag.actual fl →
  flag.formal (res_flags (pass fl values)) !! p
  = Some (setAll p val (values p)).1.
Proof.
  intros E Ha. rewrite pass_formal, E. cbn. unfold flagFinal.
  rewrite decide_False; [done|]. by intros [? _]%elem_of_getSetFlags.
Qed.

(** X11. A list flag receives its values in order: a [flagArray] that is
    not set holds, after [ParseEnvSet], what it held followed by the
    expanded tokens of its variable from left to right, and after a
    [ParseConfigSet] that read its file, what it held followed by the
    expanded values of the lines with its name, in the order of the
    lines. *)
Theorem X11_flagArray_accumulates :
  ∀ (fl : flag.FlagSet testValue) (p : string) (fa : list string),
    flag.formal fl !! p = Some (flagArray fa) →
    p ∉ flag.actual fl →
    (∀ ReadEnvPrefix env,
       flag.formal (res_flags (ParseEnvSet ReadEnvPrefix fl env)) !! p
       = Some (flagArray
                 (fa ++ (expandWith (genEnvMap env)
                           <$> splitEscape
                                 (genEnvMap env !!! envKeyForFlag (ReadEnvPrefix fl) p)
                                 "," "\"))))
    ∧ (∀ fs env path file,
         path ≠ "" →
         fs (expandWith (genEnvMap env) path) = Opened file →
         ScanErr file = None →
         flag.formal (res_flags (ParseConfigSet fs fl env path)) !! p
         = Some (flagArray
                   (fa ++ (expandWith (genEnvMap env)
                             <$> omap (lineValue p) (Lines file))))).
Proof.
  intros fl p fa E Ha. split.
  - intros R env. rewrite ParseEnvSet_pass.
    rewrite (pass_unset_flag fl _ p (flagArray fa)) by done.
    by rewrite setAll_flagArray.
  - intros fs env path file Hp Ho Hs.
    rewrite (ParseConfigSet_pass fs fl env path file) by done.
    rewrite (pass_unset_flag fl _ p (flagArray fa)) by done.
    rewrite setAll_flagArray. unfold configValues.
    by rewrite scanConfig_values.
Qed.

Lemma testFlags_unset (p : string) : p ∉ flag.actual (testFlags ∅).
Proof. unfold testFlags. cbn [flag.actual]. rewrite dom_empty_L. set_solver. Qed.

Lemma X11_flagArray_accumulates_witness :
  flag.formal (res_flags (ParseEnvSet defaultReadEnvPrefix (testFlags ∅)
                            ["X=1"; "TEST_ARR=a,$X\,b,c"])) !! "arr"
  = Some (flagArray ([] ++ (expandWith (genEnvMap ["X=1"; "TEST_ARR=a,$X\,b,c"])
                              <$> ["a"; "$X,b"; "c"])))
  ∧ flag.formal (res_flags (ParseConfigSet testFS (testFlags ∅) [] "conf")) !! "arr"
    = Some (flagArray ([] ++ (expandWith (genEnvMap []) <$> ["value 1"; "value 2"]))).
Proof.
  destruct (X11_flagArray_accumulates (testFlags ∅) "arr" []) as [He Hc];
    [reflexivity|apply testFlags_unset|].
  split.
  - exact (He defaultReadEnvPrefix ["X=1"; "TEST_ARR=a,$X\,b,c"]).
  - exact (Hc testFS [] "conf" _ ltac:(discriminate) eq_refl eq_refl).
Defined.

Lemma setAll_overwrite {V : Type} `{!flag.Value V} (mk : string → V)
    (p : string) (vs : list string) :
  (∀ v v', (flag.Value_Set (mk v) v').1 = mk v') →
  ∀ v0, (setAll p (mk v0) vs).1 = mk (default v0 (last vs)).
Proof.
  intros Hmk. induction vs as [|v vs IH]; intros v0; [done|].
  cbn [setAll]. specialize (Hmk v0 v).
  destruct (flag.Value_Set (mk v0) v) as [val' err]. cbn in Hmk. subst val'.
  specialize (IH v). destruct (setAll p (mk v) vs) as [val'' cs].
  cbn [fst] in *. rewrite IH, last_cons. by destruct (last vs).
Qed.

(** X12. For a flag whose setter replaces the value (the value after
    [Set(v)] is made from [v] alone, as for [flag.String]) the last value
    wins: after a pass the flag holds the last expanded token of its
    variable, or the last value of the lines with its name, and what it
    held when there is none. *)
Theorem X12_last_value_wins :
  ∀ (V : Type) (HV : flag.Value V) (mk : string → V)
    (fl : flag.FlagSet V) (p v0 : string),
    (∀ v v', (flag.Value_Set (mk v) v').1 = mk v') →
    flag.formal fl !! p = Some (mk v0) →
    p ∉ flag.actual fl →
    (∀ ReadEnvPrefix env,
       flag.formal (res_flags (ParseEnvSet ReadEnvPrefix fl env)) !! p
       = Some (mk (default v0
                     (last (expandWith (genEnvMap env)
                              <$> splitEscape
                                    (genEnvMap env
                                       !!! envKeyForFlag (ReadEnvPrefix fl) p)
                                    "," "\")))))
    ∧ (∀ fs env path file,
         path ≠ "" →
         fs (expandWith (genEnvMap env) path) = Opened file →
         ScanErr file = None →
         flag.formal (res_flags (ParseConfigSet fs fl env path)) !! p
         = Some (mk (default v0
                       (last (expandWith (genEnvMap env)
                                <$> omap (lineValue p) (Lines file)))))).
Proof.
  intros V HV mk fl p v0 Hmk E Ha. split.
  - intros R env. rewrite ParseEnvSet_pass.
    rewrite (pass_unset_flag fl _ p (mk v0)) by done.
    by rewrite setAll_overwrite.
  - intros fs env path file Hp Ho Hs.
    rewrite (ParseConfigSet_pass fs fl env path file) by done.
    rewrite (pass_unset_flag fl _ p (mk v0)) by done.
    rewrite setAll_overwrite by done. unfold configValues.
    by rewrite scanConfig_values.
Qed.

Lemma X12_last_value_wins_witness :
  flag.formal (res_flags (ParseEnvSet defaultReadEnvPrefix (testFlags ∅)
                            ["TEST_STR=a,b,c"])) !! "str"
  = Some (stringValue
            (default "" (last (expandWith (genEnvMap ["TEST_STR=a,b,c"])
                                 <$> ["a"; "b"; "c"])))).
Proof.
  destruct (X12_last_value_wins testValue _ stringValue (testFlags ∅) "str" "")
    as [He _]; [done|reflexivity|apply testFlags_unset|].
  exact (He defaultReadEnvPrefix ["TEST_STR=a,b,c"]).
Defined.

(* ===================================================================== *)
(** * Further properties: the order of the calls *)
(* ===================================================================== *)

Lemma planBlock_flag (set : gset string) (values : string → list string)
    (p : string) :
  Forall (λ s : string * string, s.1 = p)
         (if decide (p ∈ set) then [] else (λ v, (p, v)) <$> values p).
Proof.
  destruct (decide (p ∈ set)); [constructor|].
  apply Forall_fmap, Forall_forall. by intros v _.
Qed.

Lemma StronglySorted_same (p : string) (l : list string) :
  Forall (λ q, q = p) l → StronglySorted String.le l.
Proof.
  induction 1 as [|q l -> Hl IH]; constructor; [done|].
  eapply Forall_impl; [exact Hl|]. by intros q ->.
Qed.

Lemma StronglySorted_blocks (blk : string → list (string * string))
    (l : list string) :
  (∀ p, Forall (λ s : string * string, s.1 = p) (blk p)) →
  StronglySorted String.le l →
  StronglySorted String.le (fst <$> concat (blk <$> l)).
Proof.
  intros Hblk. induction 1 as [|x l Hl IH Hx]; [constructor|].
  rewrite fmap_cons. cbn [concat]. rewrite fmap_app.
  apply StronglySorted_app. split; [|split; [|exact IH]].
  - intros x1 x2 Hx1 Hx2.
    apply list_elem_of_fmap in Hx1 as (s1 & -> & Hs1).
    apply list_elem_of_fmap in Hx2 as (s2 & -> & Hs2).
    pose proof (Hblk x) as Hb. rewrite Forall_forall in Hb.
    rewrite (Hb s1 Hs1).
    apply elem_of_concat in Hs2 as (b & Hs2 & (q & -> & Hq)%list_elem_of_fmap).
    pose proof (Hblk q) as Hbq. rewrite Forall_forall in Hbq.
    rewrite (Hbq s2 Hs2). rewrite Forall_forall in Hx. by apply Hx.
  - apply (StronglySorted_same x), Forall_fmap.
    eapply Forall_impl; [apply Hblk|]. intros s Hs. exact Hs.
Qed.

Lemma filter_block (p q : string) (b : list (string * string)) :
  Forall (λ s : string * string, s.1 = q) b →
  filter (λ s : string * string, s.1 = p) b = if decide (q = p) then b else [].
Proof.
  induction 1 as [|s b Hs Hb IH]; [by destruct (decide _)|].
  destruct (decide (q = p)) as [->|Hne].
  - by rewrite filter_cons_True, IH.
  - rewrite filter_cons_False by congruence. exact IH.
Qed.

Lemma filter_blocks (blk : string → list (string * string)) (p : string)
    (l : list string) :
  (∀ q, Forall (λ s : string * string, s.1 = q) (blk q)) →
  NoDup l →
  filter (λ s : string * string, s.1 = p) (concat (blk <$> l))
  = if decide (p ∈ l) then blk p else [].
Proof.
  intros Hblk. induction 1 as [|x l Hx Hl IH]; [done|].
  rewrite fmap_cons. cbn [concat].
  rewrite filter_app, IH, (filter_block p x) by done.
  destruct (decide (x = p)) as [->|Hne].
  - destruct (decide (p ∈ l)) as [Hp|_]; [done|].
    destruct (decide (p ∈ p :: l)) as [_|Hp]; [by rewrite app_nil_r|].
    destruct Hp. left.
  - destruct (decide (p ∈ l)) as [Hp|Hp];
      destruct (decide (p ∈ x :: l)) as [Hq|Hq]; try done.
    + destruct Hq. by right.
    + apply elem_of_cons in Hq as [?|?]; by subst.
Qed.

Lemma sortFlags_sorted (X : gset string) :
  StronglySorted String.le (flag.sortFlags X).
Proof. unfold flag.sortFlags. apply StronglySorted_merge_sort; apply _. Qed.

Lemma callPlan_sorted (defined set : gset string) (values : string → list string) :
  StronglySorted String.le (fst <$> callPlan defined set values).
Proof.
  unfold callPlan.
  apply (StronglySorted_blocks
           (λ p, if decide (p ∈ set) then [] else (λ v, (p, v)) <$> values p)).
  - intros p. apply planBlock_flag.
  - apply sortFlags_sorted.
Qed.

Lemma callPlan_filter (defined set : gset string) (values : string → list string)
    (p : string) :
  p ∈ defined → p ∉ set →
  filter (λ s : string * string, s.1 = p) (callPlan defined set values)
  = (λ v, (p, v)) <$> values p.
Proof.
  intros Hd Hs. unfold callPlan.
  rewrite (filter_blocks
             (λ p, if decide (p ∈ set) then [] else (λ v, (p, v)) <$> values p));
    [| intros q; apply planBlock_flag | apply NoDup_sortFlags].
  rewrite decide_True by (by apply elem_of_sortFlags).
  by rewrite decide_False.
Qed.

(** X13. The setters are called flag by flag in the lexicographical order
    of the flag names (the order of [VisitAll]), and the calls for one
    flag are those for its values in the order of the source; so the
    errors of the aggregate come in that order too. *)
Theorem X13_calls_in_order :
  ∀ (V : Type) (HV : flag.Value V) (fl : flag.FlagSet V),
    (∀ ReadEnvPrefix env,
       StronglySorted String.le
         (fst <$> (callSite <$> res_calls (ParseEnvSet ReadEnvPrefix fl env)))
       ∧ (∀ p, p ∈ dom (flag.formal fl) → p ∉ flag.actual fl →
            filter (λ s : string * string, s.1 = p)
                   (callSite <$> res_calls (ParseEnvSet ReadEnvPrefix fl env))
            = (λ v, (p, v))
                <$> (expandWith (genEnvMap env)
                       <$> splitEscape
                             (genEnvMap env !!! envKeyForFlag (ReadEnvPrefix fl) p)
                             "," "\")))
    ∧ (∀ fs env path,
         StronglySorted String.le
           (fst <$> (callSite <$> res_calls (ParseConfigSet fs fl env path))))
    ∧ (∀ fs env path file p,
         path ≠ "" →
         fs (expandWith (genEnvMap env) path) = Opened file →
         ScanErr file = None →
         p ∈ dom (flag.formal fl) → p ∉ flag.actual fl →
         filter (λ s : string * string, s.1 = p)
                (callSite <$> res_calls (ParseConfigSet fs fl env path))
         = (λ v, (p, v))
             <$> (expandWith (genEnvMap env) <$> omap (lineValue p) (Lines file))).
Proof.
  intros V HV fl. split; [|split].
  - intros R env. rewrite ParseEnvSet_sites. split; [apply callPlan_sorted|].
    intros p Hd Ha. by rewrite callPlan_filter.
  - intros fs env path. rewrite ParseConfigSet_sites. unfold configSites.
    destruct (String.eqb path ""); [constructor|].
    destruct (fs _) as [file|]; [|constructor].
    destruct (ScanErr file); [constructor|]. apply callPlan_sorted.
  - intros fs env path file p Hp Ho Hs Hd Ha.
    rewrite ParseConfigSet_sites. unfold configSites.
    rewrite eqb_empty_false, Ho, Hs by done.
    rewrite callPlan_filter by done. unfold configValues.
    by rewrite scanConfig_values.
Qed.

Lemma X13_calls_in_order_witness :
  filter (λ s : string * string, s.1 = "arr")
         (callSite <$> res_calls (ParseConfigSet testFS (testFlags ∅) [] "conf"))
  = (λ v, ("arr", v)) <$> (expandWith (genEnvMap []) <$> ["value 1"; "value 2"]).
Proof.
  destruct (X13_calls_in_order testValue _ (testFlags ∅)) as (_ & _ & H).
  apply (H testFS [] "conf" _ "arr" ltac:(discriminate) eq_refl eq_refl).
  - by vm_compute.
  - apply testFlags_unset.
Defined.

(* ===================================================================== *)
(** * Further properties: the earlier revision of the resolvers *)
(* ===================================================================== *)

Section earlier_revision.
Context {V : Type} `{!flag.Value V}.
Implicit Types (fl : flag.FlagSet V) (p : string).

Lemma getAllFlags_dom fl : earlier.getAllFlags fl = dom (flag.formal fl).
Proof.
  unfold earlier.getAllFlags, flag.VisitAll. rewrite getSetFlags_foldl.
  cbn [snd]. apply set_eq. intros p.
  rewrite elem_of_union, elem_of_list_to_set, list_elem_of_filter,
    elem_of_sortFlags.
  set_solver.
Qed.

Lemma visit_sim {S T} (R : S → T → Prop)
    (fn1 : flag.Flag V → S → flag.Flag V * S)
    (fn2 : flag.Flag V → T → flag.Flag V * T) (l : list string) :
  (∀ f s t, R s t → (fn1 f s).1 = (fn2 f t).1 ∧ R (fn1 f s).2 (fn2 f t).2) →
  ∀ fl s t, R s t →
    (foldl (flag.visit fn1) (fl, s) l).1 = (foldl (flag.visit fn2) (fl, t) l).1
    ∧ R (foldl (flag.visit fn1) (fl, s) l).2 (foldl (flag.visit fn2) (fl, t) l).2.
Proof.
  intros Hfn. induction l as [|p l IH]; intros fl s t HR; [done|].
  cbn [foldl].
  assert (∃ fl' s' t', flag.visit fn1 (fl, s) p = (fl', s')
                       ∧ flag.visit fn2 (fl, t) p = (fl', t') ∧ R s' t')
    as (fl' & s' & t' & -> & -> & HR'); [|by apply IH].
  unfold flag.visit.
  destruct (flag.formal fl !! p) as [v|]; [|by exists fl, s, t].
  destruct (Hfn {| flag.Name := p; flag.Flag_Value := v |} s t HR) as [E1 E2].
  destruct (fn1 _ s) as [f1 s1], (fn2 _ t) as [f2 t2]. cbn [fst snd] in E1, E2.
  subst f2. by do 3 eexists.
Qed.

Lemma setValue_sim (vs : list string) : ∀ (f : flag.Flag V) se st,
  sameVisit se st →
  (foldl earlier.setValue (f, se) vs).1 = (foldl setValue (f, st) vs).1
  ∧ sameVisit (foldl earlier.setValue (f, se) vs).2 (foldl setValue (f, st) vs).2.
Proof.
  induction vs as [|v vs IH]; intros f se st HR; [done|].
  cbn [foldl].
  assert (∃ f' se' st', earlier.setValue (f, se) v = (f', se')
                        ∧ setValue (f, st) v = (f', st') ∧ sameVisit se' st')
    as (f' & se' & st' & -> & -> & HR'); [|by apply IH].
  unfold earlier.setValue, setValue.
  destruct (flag.Value_Set (flag.Flag_Value f) v) as [val err].
  do 3 eexists. split; [done|]. split; [done|].
  destruct HR as [Hc He]. split; cbn [earlier.calls calls earlier.flagErrs flagErrs].
  - by rewrite Hc.
  - rewrite omap_app, He. destruct err; [done|]. cbn. by rewrite app_nil_r.
Qed.

Lemma Join_drop_nil (errs : list (option error)) :
  errors.Join (Some <$> omap id errs) = errors.Join errs.
Proof. by rewrite Join_omap, list_fmap_id. Qed.

(** A visit of the earlier revision that applies [values] is the pass of
    the current one. *)
Lemma earlier_VisitAll_pass fl (values : string → list string)
    (fn : flag.Flag V → earlier.visitState → flag.Flag V * earlier.visitState) :
  (∀ f se, fn f se =
             if decide (flag.Name f ∈ getSetFlags fl) then (f, se)
             else foldl earlier.setValue (f, se) (values (flag.Name f))) →
  (let '(fl', se) :=
     flag.VisitAll fl fn {| earlier.flagErrs := []; earlier.calls := [] |} in
   finish fl' (earlier.calls se) (errors.Join (earlier.flagErrs se)))
  = pass fl values.
Proof.
  intros E.
  rewrite <- (VisitAll_pass fl values (applyValues (getSetFlags fl) values))
    by done.
  unfold flag.VisitAll.
  destruct (visit_sim sameVisit fn (applyValues (getSetFlags fl) values)
              (flag.sortFlags (dom (flag.formal fl)))) with
    (fl := fl) (s := {| earlier.flagErrs := []; earlier.calls := [] |})
    (t := {| flagErrs := []; calls := [] |}) as [E1 [E2 E3]].
  - intros f se st HR. rewrite E. unfold applyValues.
    destruct (decide _); [done|]. by apply setValue_sim.
  - done.
  - destruct (foldl _ _ _) as [fl1 se], (foldl _ _ _) as [fl2 st].
    cbn [fst snd] in E1, E2, E3. subst fl2.
    by rewrite E2, <- E3, Join_drop_nil.
Qed.

Lemma earlier_splitEscape (vs sep esc : string) :
  vs ≠ "" → earlier.splitEscape vs sep esc = splitEscape vs sep esc.
Proof. intros Hne. unfold splitEscape. by rewrite eqb_empty_false. Qed.

(** The earlier [ParseEnvSet] is the pass over the tokens as they are. *)
Lemma earlier_ParseEnvSet_pass fl env :
  earlier.ParseEnvSet fl env
  = pass fl (rawEnvValues (filepath.Base (flag.name fl)) (genEnvMap env)).
Proof.
  unfold earlier.ParseEnvSet. apply earlier_VisitAll_pass.
  intros f se. destruct (decide _); [done|]. unfold rawEnvValues.
  rewrite earlier_envKeyForFlag_prefix by apply Base_nonempty.
  destruct (String.eqb_spec
              (genEnvMap env !!! envKeyForFlag (filepath.Base (flag.name fl))
                                               (flag.Name f)) "") as [->|Hne].
  - done.
  - by rewrite earlier_splitEscape.
Qed.

Lemma earlier_ParseConfigSet_pass (Quote : string → string) (fs : FileSystem)
    fl (path : string) file (config : gmap string (list string)) :
  path ≠ "" → fs path = Opened file →
  earlier.scanConfig (dom (flag.formal fl)) (Lines file) ∅ = inr config →
  ScanErr file = None →
  earlier.ParseConfigSet Quote fs fl path = pass fl (λ p, config !!! p).
Proof.
  intros Hp Hopen Hscan Herr. unfold earlier.ParseConfigSet.
  rewrite eqb_empty_false, Hopen, getAllFlags_dom, Hscan, Herr by done.
  by apply earlier_VisitAll_pass.
Qed.

Lemma earlier_ParseConfigSet_unknown (Quote : string → string) (fs : FileSystem)
    fl (path : string) file (k : string) :
  path ≠ "" → fs path = Opened file →
  earlier.scanConfig (dom (flag.formal fl)) (Lines file) ∅ = inl k →
  earlier.ParseConfigSet Quote fs fl path
  = finish fl [] (Some (errorString ("unknown config option " +:+ Quote k))).
Proof.
  intros Hp Hopen Hscan. unfold earlier.ParseConfigSet.
  by rewrite eqb_empty_false, Hopen, getAllFlags_dom, Hscan by done.
Qed.

End earlier_revision.

Lemma hasByte_cons (c a : ascii) (s : string) :
  hasByte (String c s) a = (Ascii.eqb a c || hasByte s a)%bool.
Proof. reflexivity. Qed.

(** Every byte of a token is a byte of the string that was split. *)
Lemma unescapedFrom_bytes (a : ascii) (n : nat) : ∀ s,
  (String.length s ≤ n)%nat → hasByte s a = false →
  hasByte (unescapedFrom s).1 a = false
  ∧ Forall (λ t, hasByte t a = false) (unescapedFrom s).2.
Proof.
  induction n as [|n IH]; intros [|c r] Hlen Hs; simpl in Hlen; try lia;
    [by split|by split|].
  pose proof Hs as Hs'. rewrite hasByte_cons in Hs'.
  apply orb_false_elim in Hs' as [Hc Hr]. cbn [unescapedFrom].
  destruct (Ascii.eqb c "\").
  - destruct r as [|d r']; [by split|].
    destruct (Ascii.eqb d ",") eqn:Ed.
    + apply Ascii.eqb_eq in Ed as ->.
      rewrite hasByte_cons in Hr. apply orb_false_elim in Hr as [Hd Hr'].
      simpl in Hlen. destruct (IH r' ltac:(lia) Hr') as [H1 H2].
      destruct (unescapedFrom r') as [t ts]. cbn [fst snd] in *.
      split; [|done]. by rewrite hasByte_cons, Hd, H1.
    + destruct (IH (String d r') ltac:(lia) Hr) as [H1 H2].
      destruct (unescapedFrom (String d r')) as [t ts]. cbn [fst snd] in *.
      split; [|done]. by rewrite hasByte_cons, Hc, H1.
  - destruct (IH r ltac:(lia) Hr) as [H1 H2].
    destruct (unescapedFrom r) as [t ts]. cbn [fst snd] in *.
    destruct (Ascii.eqb c ","); cbn [fst snd].
    + split; [done|by constructor].
    + split; [|done]. by rewrite hasByte_cons, Hc, H1.
Qed.

Lemma hasByte_mapBytes_keep (g : ascii → ascii) (s : string) (a : ascii) :
  (∀ c, g c = a → c = a) → hasByte s a = false →
  hasByte (mapBytes g s) a = false.
Proof.
  intros Hg. induction s as [|c s IH]; [done|].
  rewrite hasByte_cons. intros [Hc Hs]%orb_false_elim.
  cbn [mapBytes]. rewrite hasByte_cons, IH, orb_false_r by done.
  apply Ascii.eqb_neq. intros E. symmetry in E. apply Hg in E.
  apply Ascii.eqb_neq in Hc. congruence.
Qed.

(** The tokens of a string without [$] have none. *)
Lemma splitEscape_no_dollar (s : string) :
  hasByte s "$" = false →
  Forall (λ t, hasByte t "$" = false) (splitEscape s "," "\").
Proof.
  intros Hs. destruct (String.eqb_spec s "") as [->|Hne]; [constructor|].
  rewrite splitEscape_unescaped by done.
  destruct (unescapedFrom_bytes "$" (String.length s) s ltac:(lia) Hs)
    as [H1 H2].
  destruct (unescapedFrom s) as [t ts]. cbn [fst snd] in *.
  apply Forall_fmap.
  eapply Forall_impl; [exact (Forall_cons_2 _ _ _ H1 H2)|].
  intros u Hu. cbn. rewrite unmark_mapBytes.
  apply hasByte_mapBytes_keep; [|done].
  intros c. by destruct (Ascii.eqb_spec c "000") as [->|].
Qed.

Lemma expandWith_no_dollar (envMap : gmap string string) (t : string) :
  hasByte t "$" = false → expandWith envMap t = t.
Proof.
  intros Ht. unfold expandWith.
  rewrite <- (app_empty_r t) at 1. rewrite Expand_literal by done.
  by rewrite Expand_empty, app_empty_r.
Qed.

(** X14. The earlier revision of [ParseEnvSet] (src/flagconf.go) is the
    current one without the expansion of the values: it passes the tokens
    of a flag's variable to the setter as they are, from the same variable
    (the default prefix is never empty), skipping the same flags.  When no
    value read for a defined flag has a [$], the two revisions return the
    same: the same calls, values, error and output. *)
Theorem X14_earlier_ParseEnvSet :
  ∀ (V : Type) (HV : flag.Value V) (fl : flag.FlagSet V) (env : list string),
    callSite <$> res_calls (earlier.ParseEnvSet fl env)
    = callPlan (dom (flag.formal fl)) (flag.actual fl)
        (λ p, splitEscape
                (genEnvMap env
                   !!! envKeyForFlag (defaultReadEnvPrefix fl) p) "," "\")
    ∧ ((∀ p, p ∈ dom (flag.formal fl) →
             hasByte (genEnvMap env
                        !!! envKeyForFlag (defaultReadEnvPrefix fl) p) "$"
             = false) →
       earlier.ParseEnvSet fl env = ParseEnvSet defaultReadEnvPrefix fl env).
Proof.
  intros V HV fl env. rewrite earlier_ParseEnvSet_pass. split.
  - by rewrite pass_plan.
  - intros Hd. rewrite ParseEnvSet_pass. apply pass_ext. intros p Hp.
    unfold rawEnvValues, envValues, defaultReadEnvPrefix.
    specialize (Hd p Hp). apply splitEscape_no_dollar in Hd.
    unfold defaultReadEnvPrefix in Hd.
    rewrite <- (list_fmap_id (splitEscape _ _ _)) at 1.
    apply list_fmap_ext_in. intros t Ht.
    rewrite Forall_forall in Hd. by rewrite expandWith_no_dollar by auto.
Qed.

Lemma X14_earlier_ParseEnvSet_witness :
  earlier.ParseEnvSet (testFlags ∅) ["TEST_ARR=a,b\,c"; "TEST_STR=x"]
  = ParseEnvSet defaultReadEnvPrefix (testFlags ∅)
      ["TEST_ARR=a,b\,c"; "TEST_STR=x"].
Proof.
  apply (X14_earlier_ParseEnvSet testValue _ (testFlags ∅)
           ["TEST_ARR=a,b\,c"; "TEST_STR=x"]).
  intros p Hp. apply testFlags_dom in Hp.
  destruct Hp as [-> | [-> | [-> | ->]]]; by vm_compute.
Defined.

Lemma earlier_scanConfig_unknown (allFlags : gset string)
    (lines1 : list string) (text : string) (lines2 : list string) (k : string) :
  knownLines allFlags lines1 →
  earlier.scanLine allFlags text = earlier.UnknownOption k →
  ∀ config,
    earlier.scanConfig allFlags (lines1 ++ text :: lines2) config = inl k.
Proof.
  intros Hk Ht. induction Hk as [|t lines1 Hhead Hk IH]; intros config.
  - cbn [app earlier.scanConfig]. by rewrite Ht.
  - cbn [app earlier.scanConfig].
    destruct (earlier.scanLine allFlags t) as [|k'|k' v'] eqn:E; [apply IH| |apply IH].
    by destruct (Hhead k').
Qed.

Lemma earlier_scanConfig_known (allFlags : gset string) (lines : list string) :
  knownLines allFlags lines →
  ∀ config, ∃ config',
    earlier.scanConfig allFlags lines config = inr config'.
Proof.
  induction 1 as [|t lines Hhead Hk IH]; intros config; [by eexists|].
  cbn [earlier.scanConfig].
  destruct (earlier.scanLine allFlags t) as [|k'|k' v'] eqn:E; [apply IH| |apply IH].
  by destruct (Hhead k').
Qed.

Lemma TrimSpace_id (s : string) :
  startsSpace s = false → endsSpace s = false → strings.TrimSpace s = s.
Proof.
  intros Hs He. unfold strings.TrimSpace.
  by rewrite trimLeft_id, trimRight_id.
Qed.

(** A line [k v] of the earlier revision, white space around it or not. *)
Lemma earlier_scanLine_pair (allFlags : gset string) (k v l r : string) :
  k ≠ "" → hasByte k " " = false → startsSpace k = false →
  strings.HasPrefix k "#" = false →
  v ≠ "" → startsSpace v = false → endsSpace v = false →
  allSpace l = true → allSpace r = true →
  earlier.scanLine allFlags (l +:+ (k +:+ " " +:+ v) +:+ r)
  = if decide (k ∈ allFlags) then earlier.Append k v
    else earlier.UnknownOption k.
Proof.
  intros Hk Hsp Hks Hh Hv Hvs Hve Hl Hr. unfold earlier.scanLine.
  rewrite TrimSpace_around; try done.
  - change (k +:+ " " +:+ v) with (k +:+ String " " v).
    rewrite Cut_first by done. cbn [negb]. rewrite Hh.
    destruct (decide (k ∈ allFlags)); [|done].
    by rewrite TrimSpace_id, eqb_empty_false.
  - by apply app_nonempty_l.
  - by rewrite startsSpace_app.
  - change (k +:+ " " +:+ v) with (k +:+ (String " " v)).
    rewrite endsSpace_app by done. cbn [endsSpace]. by destruct v.
Qed.

(** X15. In the earlier revision of [ParseConfigSet] (src/flagconf.go) a
    line [k v] whose key [k] names no defined flag is an error: whatever
    the lines before and after it hold, and whether or not the scanner
    fails later, no setter is called, every flag keeps its value, and the
    call ends with [unknown config option] and the quoted key, reported
    as any other error.  A file without such a line, scanned without
    error, is applied as a pass over its table.  (A line of ASCII bytes
    [k v], with one space after a key that has none, is such a line when
    [k] names no flag, and gives [k] the value [v] when it does.) *)
Theorem X15_earlier_unknown_option :
  ∀ (V : Type) (HV : flag.Value V) (Quote : string → string)
    (fs : FileSystem) (fl : flag.FlagSet V) (path : string) (file : File),
    path ≠ "" → fs path = Opened file →
    (∀ k v l r,
       isASCII k = true → isASCII v = true →
       k ≠ "" → hasByte k " " = false → startsSpace k = false →
       strings.HasPrefix k "#" = false →
       v ≠ "" → startsSpace v = false → endsSpace v = false →
       allSpace l = true → allSpace r = true →
       earlier.scanLine (dom (flag.formal fl)) (l +:+ (k +:+ " " +:+ v) +:+ r)
       = if decide (k ∈ dom (flag.formal fl)) then earlier.Append k v
         else earlier.UnknownOption k)
    ∧ (∀ lines1 text lines2 k,
         Lines file = lines1 ++ text :: lines2 →
         knownLines (dom (flag.formal fl)) lines1 →
         earlier.scanLine (dom (flag.formal fl)) text = earlier.UnknownOption k →
         let r := earlier.ParseConfigSet Quote fs fl path in
         let e := errorString ("unknown config option " +:+ Quote k) in
         res_calls r = []
         ∧ flag.formal (res_flags r) = flag.formal fl
         ∧ res_outcome r = ending (flag.errorHandling fl) (Some e)
         ∧ flag.output (res_flags r)
           = flag.output fl +:+ report (flag.Usage fl) (Some e))
    ∧ (knownLines (dom (flag.formal fl)) (Lines file) →
       ScanErr file = None →
       ∃ config,
         earlier.scanConfig (dom (flag.formal fl)) (Lines file) ∅ = inr config
         ∧ earlier.ParseConfigSet Quote fs fl path
           = pass fl (λ p, config !!! p)).
Proof.
  intros V HV Quote fs fl path file Hp Hopen. split; [|split].
  - intros k v l r _ _. apply earlier_scanLine_pair.
  - intros lines1 text lines2 k El Hk Ht r e. subst r.
    rewrite (earlier_ParseConfigSet_unknown Quote fs fl path file k); try done.
    + by rewrite finish_calls, finish_formal, finish_outcome, finish_output.
    + rewrite El. by apply earlier_scanConfig_unknown.
  - intros Hk Herr.
    destruct (earlier_scanConfig_known _ _ Hk ∅) as [config Ec].
    exists config. split; [done|].
    by apply (earlier_ParseConfigSet_pass Quote fs fl path file).
Qed.

Lemma X15_earlier_unknown_option_witness :
  res_calls (earlier.ParseConfigSet (λ k, quote +:+ k +:+ quote) testFS
               (testFlags ∅) "conf-unknown-option") = []
  ∧ res_outcome (earlier.ParseConfigSet (λ k, quote +:+ k +:+ quote) testFS
                   (testFlags ∅) "conf-unknown-option")
    = Return (Some (errorString
                      ("unknown config option "
                       +:+ quote +:+ "unknown-option" +:+ quote)))
  ∧ earlier.scanLine (dom (flag.formal (testFlags ∅)))
      (" " +:+ ("str" +:+ " " +:+ "the str") +:+ tab)
    = (if decide ("str" ∈ dom (flag.formal (testFlags ∅)))
       then earlier.Append "str" "the str" else earlier.UnknownOption "str").
Proof.
  destruct (X15_earlier_unknown_option testValue _ (λ k, quote +:+ k +:+ quote)
              testFS (testFlags ∅) "conf-unknown-option"
              {| Lines := ["unknown-option hello"]; ScanErr := None |}
              ltac:(discriminate) eq_refl) as (H0 & H & _).
  destruct (H [] "unknown-option hello" [] "unknown-option" eq_refl
              ltac:(constructor) ltac:(by vm_compute)) as (H1 & _ & H3 & _).
  split; [exact H1|]. split; [exact H3|].
  apply (H0 "str" "the str" " " tab); (reflexivity || discriminate).
Defined.

(* ===================================================================== *)
(** * Further properties: the test program *)
(* ===================================================================== *)

Lemma print_foldl (fl : flag.FlagSet testValue) (l : list string) : ∀ out,
  foldl (flag.visit (λ (f : flag.Flag testValue) (out : string),
                       (f, out +:+ printFlag (flag.Name f) (flag.Flag_Value f))))
        (fl, out) l
  = (fl, foldl (λ out p, match flag.formal fl !! p with
                         | Some v => out +:+ printFlag p v
                         | None => out
                         end) out l).
Proof.
  induction l as [|p l IH]; intros out; [done|].
  cbn [foldl]. unfold flag.visit at 2.
  destruct (flag.formal fl !! p) as [v|] eqn:E; [|apply IH].
  cbn [flag.Flag_Value flag.Name]. rewrite insert_id, set_formal_id by done.
  apply IH.
Qed.

Lemma ParseEnvSet_set_flag {V : Type} `{!flag.Value V}
    (R : flag.FlagSet V → string) (fl : flag.FlagSet V) (env : list string)
    (p : string) :
  p ∈ flag.actual fl →
  flag.formal (res_flags (ParseEnvSet R fl env)) !! p = flag.formal fl !! p.
Proof. intros Hp. rewrite ParseEnvSet_pass. by apply pass_set_flag. Qed.

Lemma ParseConfigSet_set_flag {V : Type} `{!flag.Value V}
    (fs : FileSystem) (fl : flag.FlagSet V) (env : list string)
    (path p : string) :
  p ∈ flag.actual fl →
  flag.formal (res_flags (ParseConfigSet fs fl env path)) !! p
  = flag.formal fl !! p.
Proof.
  intros Hp.
  destruct (ParseConfigSet_cases fs fl env path)
    as [[err ->]|(file & _ & _ & _ & ->)].
  - by rewrite finish_formal.
  - by apply pass_set_flag.
Qed.

(** X16. The test program [test] of [flagconf_test.go], run after
    [flag.Parse]: either both resolvers succeed and it ends with status 0,
    nothing on the standard error, and one line per defined flag on the
    standard output, in lexicographical order, the flags of the command
    line with the values of the command line; or a resolver reports an
    error and it ends with status 2, nothing on the standard output, and
    the error and the usage text on the standard error. *)
Theorem X16_test_program :
  ∀ (usage : string) (fs : FileSystem) (env : list string)
    (cmdline : gmap string testValue),
    let r := testMain usage fs env cmdline in
    (status r = 0 ∧ stderr r = ""
     ∧ ∃ final : gmap string testValue,
         dom final = dom (flag.formal (testFlags cmdline))
         ∧ (∀ p v, cmdline !! p = Some v → final !! p = Some v)
         ∧ stdout r = listing final)
    ∨ (status r = 2 ∧ stdout r = ""
       ∧ ∃ e, stderr r = Error e +:+ newline +:+ usage).
Proof.
  intros usage fs env cmdline r. subst r. unfold testMain.
  set (fl0 := commandLine usage cmdline).
  pose proof (ParseEnvSet_sameRegistry defaultReadEnvPrefix fl0 env)
    as (_ & Hd1 & Ha1).
  pose proof (λ p, ParseEnvSet_set_flag defaultReadEnvPrefix fl0 env p) as Hs1.
  destruct (ParseEnvSet_finish defaultReadEnvPrefix fl0 env)
    as (fl1 & log1 & err1 & E1 & Ho1 & Hu1 & Hh1).
  rewrite E1 in *. rewrite finish_outcome, Hh1.
  change (flag.errorHandling fl0) with flag.ExitOnError.
  destruct err1 as [e1|]; cbn [ending].
  { right. split; [done|]. split; [done|]. exists e1.
    cbn [stderr]. rewrite finish_output, Ho1, Hu1. reflexivity. }
  set (fl2 := res_flags (finish fl1 log1 None)) in *.
  set (conf := match flag.formal fl2 !! "config-path" with
               | Some v => flag.Value_String v
               | None => ""
               end).
  pose proof (ParseConfigSet_sameRegistry fs fl2 env conf) as (_ & Hd2 & Ha2).
  pose proof (λ p, ParseConfigSet_set_flag fs fl2 env conf p) as Hs2.
  destruct (ParseConfigSet_finish fs fl2 env conf)
    as (fl3 & log2 & err2 & E2 & Ho2 & Hu2 & Hh2).
  rewrite E2 in *. rewrite finish_outcome, Hh2.
  change (flag.errorHandling fl2) with (flag.errorHandling fl1). rewrite Hh1.
  change (flag.errorHandling fl0) with flag.ExitOnError.
  change (flag.output fl2) with (flag.output fl1) in Ho2. rewrite Ho1 in Ho2.
  change (flag.Usage fl2) with (flag.Usage fl1) in Hu2. rewrite Hu1 in Hu2.
  destruct err2 as [e2|]; cbn [ending].
  { right. split; [done|]. split; [done|]. exists e2.
    cbn [stderr]. rewrite finish_output, Ho2, Hu2. reflexivity. }
  left. split; [done|]. split.
  { cbn [stderr]. by rewrite finish_output, Ho2. }
  exists (flag.formal (res_flags (finish fl3 log2 None))).
  split; [by rewrite Hd2, Hd1|]. split.
  - intros p v Hp.
    assert (p ∈ flag.actual fl0) as Hin by (apply elem_of_dom; eauto).
    rewrite Hs2, Hs1 by (by rewrite ?Ha1).
    change (flag.formal fl0) with (flag.formal (testFlags cmdline)).
    cbn [testFlags flag.formal]. by apply lookup_union_Some_l.
  - cbn [stdout]. unfold flag.VisitAll, listing. by rewrite print_foldl.
Qed.

(* ===================================================================== *)
(** * Further properties: the two resolvers one after the other *)
(* ===================================================================== *)

Lemma setAll_app {V : Type} `{!flag.Value V} (p : string) (vs ws : list string) :
  ∀ val : V,
    (setAll p val (vs ++ ws)).1 = (setAll p (setAll p val vs).1 ws).1.
Proof.
  induction vs as [|v vs IH]; intros val; [done|].
  cbn [app setAll]. destruct (flag.Value_Set val v) as [val' err].
  specialize (IH val').
  destruct (setAll p val' (vs ++ ws)) as [a b], (setAll p val' vs) as [c d].
  exact IH.
Qed.

(** X17. [ParseEnvSet] followed by [ParseConfigSet], as in the test
    program: a flag that is not set receives the values of the
    environment and then those of the file, so that it ends with the
    value its setter gives for the expanded tokens of its variable
    followed by the expanded values of its lines.  A list flag holds
    both, the environment's first; a flag whose setter replaces the value
    holds the file's last value when the file has one. *)
Theorem X17_env_then_config :
  ∀ (V : Type) (HV : flag.Value V) (ReadEnvPrefix : flag.FlagSet V → string)
    (fs : FileSystem) (fl : flag.FlagSet V) (env : list string)
    (path : string) (file : File) (p : string) (val : V),
    path ≠ "" →
    fs (expandWith (genEnvMap env) path) = Opened file →
    ScanErr file = None →
    flag.formal fl !! p = Some val →
    p ∉ flag.actual fl →
    flag.formal
      (res_flags (ParseConfigSet fs (res_flags (ParseEnvSet ReadEnvPrefix fl env))
                    env path)) !! p
    = Some (setAll p val
              ((expandWith (genEnvMap env)
                  <$> splitEscape
                        (genEnvMap env !!! envKeyForFlag (ReadEnvPrefix fl) p)
                        "," "\")
               ++ (expandWith (genEnvMap env)
                     <$> omap (lineValue p) (Lines file)))).1.
Proof.
  intros V HV R fs fl env path file p val Hp Hopen Hscan E Ha.
  rewrite (ParseConfigSet_pass fs _ env path file) by done.
  pose proof (ParseEnvSet_sameRegistry R fl env) as (_ & _ & Hact).
  rewrite (pass_unset_flag _ _ p
             (setAll p val (envValues (R fl) (genEnvMap env) p)).1).
  - rewrite setAll_app. unfold configValues. by rewrite scanConfig_values.
  - rewrite ParseEnvSet_pass. by apply pass_unset_flag.
  - by rewrite Hact.
Qed.

Lemma X17_env_then_config_witness :
  flag.formal
    (res_flags (ParseConfigSet testFS
                  (res_flags (ParseEnvSet defaultReadEnvPrefix (testFlags ∅)
                                ["TEST_ARR=e1,e2"]))
                  ["TEST_ARR=e1,e2"] "conf")) !! "arr"
  = Some (flagArray ["e1"; "e2"; "value 1"; "value 2"]).
Proof.
  rewrite (X17_env_then_config testValue _ defaultReadEnvPrefix testFS
             (testFlags ∅) ["TEST_ARR=e1,e2"] "conf"
             {| Lines := [ "str the str"; "arr value 1"; "# tabs are ok";
                           "arr" +:+ tab +:+ "value 2"; "# ignore comments";
                           "# and flags with no value"; "uh"; "" ];
                ScanErr := None |}
             "arr" (flagArray [])).
  - reflexivity.
  - discriminate.
  - reflexivity.
  - reflexivity.
  - reflexivity.
  - apply testFlags_unset.
Defined.

(* ===================================================================== *)
(** * Further properties: the environment and the config file *)
(* ===================================================================== *)

Lemma TrimSpace_bytes (text : string) (a : ascii) :
  hasByte text a = false → hasByte (strings.TrimSpace text) a = false.
Proof.
  destruct (TrimSpace_spec text) as (l & r & E & _). intros Ht.
  rewrite E, !hasByte_app in Ht.
  apply orb_false_elim in Ht as [_ Ht]. by apply orb_false_elim in Ht as [Ht _].
Qed.

Lemma drop_bytes (n : nat) (s : string) (a : ascii) :
  hasByte s a = false → hasByte (strings.drop n s) a = false.
Proof.
  intros Hs. rewrite <- (take_drop_s n s), hasByte_app in Hs.
  by apply orb_false_elim in Hs as [_ Hs].
Qed.

(** A value of a line without [$] has none. *)
Lemma parseLine_no_dollar (text k v : string) :
  hasByte text "$" = false → parseLine text = Some (k, v) →
  hasByte v "$" = false.
Proof.
  intros Ht. unfold parseLine.
  destruct (_ || _)%bool; [done|].
  destruct (_ <? 0)%Z; intros [= _ <-]; [done|].
  by apply TrimSpace_bytes, drop_bytes, TrimSpace_bytes.
Qed.

Lemma scanConfig_no_dollar (lines : list string) (p : string) :
  Forall (λ text, hasByte text "$" = false) lines →
  Forall (λ v, hasByte v "$" = false) (scanConfig lines !!! p).
Proof.
  intros Hl. rewrite scanConfig_values. apply Forall_forall.
  intros v (text & Ht & Hv)%list_elem_of_omap.
  rewrite Forall_forall in Hl. unfold lineValue in Hv.
  destruct (parseLine text) as [[k' v']|] eqn:E; [|done].
  destruct (decide (k' = p)); [|done]. injection Hv as ->.
  eapply parseLine_no_dollar; [|exact E]. by apply Hl.
Qed.

(** X18. The environment reaches [ParseConfigSet] through references
    only: when neither the path nor a line of the file at the path has a
    [$], the call does the same whatever the environment is, and a file
    that is read is applied with the values of its lines as they are. *)
Theorem X18_config_without_references :
  ∀ (V : Type) (HV : flag.Value V) (fs : FileSystem) (fl : flag.FlagSet V)
    (path : string),
    hasByte path "$" = false →
    (∀ file, fs path = Opened file →
             Forall (λ text, hasByte text "$" = false) (Lines file)) →
    (∀ env env',
       ParseConfigSet fs fl env path = ParseConfigSet fs fl env' path)
    ∧ (∀ env file,
         path ≠ "" → fs path = Opened file → ScanErr file = None →
         callSite <$> res_calls (ParseConfigSet fs fl env path)
         = callPlan (dom (flag.formal fl)) (flag.actual fl)
                    (λ p, omap (lineValue p) (Lines file))).
Proof.
  intros V HV fs fl path Hpath Hlines.
  assert (∀ env file,
            path ≠ "" → fs path = Opened file → ScanErr file = None →
            ParseConfigSet fs fl env path
            = pass fl (λ p, omap (lineValue p) (Lines file))) as Hpass.
  { intros env file Hp Hopen Hscan.
    rewrite (ParseConfigSet_pass fs fl env path file);
      [|done|by rewrite expandWith_no_dollar|done].
    apply pass_ext. intros p _. unfold configValues.
    rewrite <- scanConfig_values.
    rewrite <- (list_fmap_id (scanConfig (Lines file) !!! p)) at 2.
    apply list_fmap_ext_in. intros v Hv.
    pose proof (scanConfig_no_dollar (Lines file) p (Hlines file Hopen)) as Hf.
    rewrite Forall_forall in Hf. by apply expandWith_no_dollar, Hf. }
  split.
  - intros env env'.
    destruct (String.eqb_spec path "") as [->|Hne]; [done|].
    destruct (fs path) as [file|errno] eqn:Hopen.
    + destruct (ScanErr file) as [cause|] eqn:Hscan.
      * rewrite !(ParseConfigSet_scan_failed fs fl _ path file cause);
          try done; by rewrite expandWith_no_dollar.
      * by rewrite (Hpass env file), (Hpass env' file).
    + rewrite !(ParseConfigSet_open_failed fs fl _ path errno);
        try done; try by rewrite expandWith_no_dollar.
      by rewrite !expandWith_no_dollar.
  - intros env file Hp Hopen Hscan. rewrite (Hpass env file) by done.
    apply pass_plan.
Qed.

Lemma X18_config_without_references_witness :
  ParseConfigSet testFS (testFlags ∅) ["str=a"; "HOME=/x"] "conf"
  = ParseConfigSet testFS (testFlags ∅) [] "conf".
Proof.
  apply (X18_config_without_references testValue _ testFS (testFlags ∅) "conf").
  - reflexivity.
  - intros file [= <-]. repeat constructor.
Defined.

(* ===================================================================== *)
(** * Further properties: a dollar sign that begins no reference *)
(* ===================================================================== *)

Lemma Expand_dollar (mapping : string → string) (c : ascii) (rest : string) :
  os.Expand (String "$" (String c rest)) mapping
  = let '(name, w) := os.getShellName (String c rest) in
    (if String.eqb name ""
     then if (0 <? w)%nat then "" else "$"
     else mapping name)
    +:+ os.Expand (strings.drop w (String c rest)) mapping.
Proof. by rewrite Expand_cons. Qed.

Lemma indexBrace_absent (s : string) :
  hasByte s "}" = false → os.indexBrace s = None.
Proof.
  induction s as [|c s IH]; [done|]. rewrite hasByte_cons.
  intros [Hc Hs]%orb_false_elim. cbn [os.indexBrace].
  rewrite Ascii.eqb_sym, Hc. by rewrite IH.
Qed.

Lemma bracedSpecial_absent (s : string) :
  hasByte s "}" = false → os.bracedSpecial s = false.
Proof.
  destruct s as [|c1 [|c2 s]]; [done|done|]. rewrite !hasByte_cons.
  intros [_ [Hc _]%orb_false_elim]%orb_false_elim. cbn [os.bracedSpecial].
  by rewrite Ascii.eqb_sym, Hc, andb_false_r.
Qed.

(** X19. A dollar sign that begins no reference, in a value or in the path
    of the config file: one that ends the text, or that stands before a
    byte that is no letter, digit or underscore, no special character of
    the shell and no opening brace, stays as it is; one that stands before
    a digit or another special character is a reference to the variable of
    that one character, and goes with it; [${}] and a [${] that no brace
    closes are taken out. *)
Theorem X19_dollar_without_reference :
  ∀ (envMap : gmap string string) (lit : string),
    hasByte lit "$" = false →
    expandWith envMap (lit +:+ "$") = lit +:+ "$"
    ∧ (∀ c rest,
         os.isAlphaNum c = false → os.isShellSpecialVar c = false →
         c ≠ "{"%char →
         expandWith envMap (lit +:+ "$" +:+ String c rest)
         = lit +:+ "$" +:+ expandWith envMap (String c rest))
    ∧ (∀ c rest,
         os.isShellSpecialVar c = true →
         expandWith envMap (lit +:+ "$" +:+ String c rest)
         = lit +:+ envMap !!! String c "" +:+ expandWith envMap rest)
    ∧ (∀ rest,
         expandWith envMap (lit +:+ "${}" +:+ rest)
         = lit +:+ expandWith envMap rest)
    ∧ (∀ rest,
         hasByte rest "}" = false →
         expandWith envMap (lit +:+ "${" +:+ rest)
         = lit +:+ expandWith envMap rest).
Proof.
  intros envMap lit Hlit. unfold expandWith.
  split; [|split; [|split; [|split]]].
  - by rewrite Expand_literal.
  - intros c rest Ha Hs Hb. rewrite Expand_literal by done. f_equal.
    change ("$" +:+ String c rest) with (String "$" (String c rest)).
    rewrite Expand_dollar. cbn [os.getShellName os.spanAlphaNum].
    apply Ascii.eqb_neq in Hb. rewrite Hb, Hs, Ha. reflexivity.
  - intros c rest Hs. rewrite Expand_literal by done. f_equal.
    change ("$" +:+ String c rest) with (String "$" (String c rest)).
    rewrite Expand_dollar. cbn [os.getShellName].
    assert (Ascii.eqb c "{" = false) as ->.
    { apply Ascii.eqb_neq. by intros ->. }
    rewrite Hs. reflexivity.
  - intros rest. rewrite Expand_literal by done. f_equal.
    change ("${}" +:+ rest) with (String "$" (String "{" (String "}" rest))).
    rewrite Expand_dollar. cbn [os.getShellName Ascii.eqb Bool.eqb].
    destruct rest as [|d rest]; reflexivity.
  - intros rest Hr. rewrite Expand_literal by done. f_equal.
    destruct rest as [|d rest].
    + reflexivity.
    + change ("${" +:+ String d rest)
        with (String "$" (String "{" (String d rest))).
      rewrite Expand_dollar. cbn [os.getShellName Ascii.eqb Bool.eqb].
      rewrite bracedSpecial_absent by done. unfold os.scanToBrace.
      rewrite indexBrace_absent by done. reflexivity.
Qed.

Lemma X19_dollar_without_reference_witness :
  expandWith (genEnvMap ["5=five"]) "cost: $" = "cost: $"
  ∧ expandWith (genEnvMap ["5=five"]) "cost: $ 5" = "cost: $ 5"
  ∧ expandWith (genEnvMap ["5=five"]) "cost: $5" = "cost: five".
Proof.
  destruct (X19_dollar_without_reference (genEnvMap ["5=five"]) "cost: "
              eq_refl) as (H1 & H2 & H3 & _).
  split; [exact H1|]. split.
  - exact (H2 " "%char "5" eq_refl eq_refl ltac:(discriminate)).
  - exact (H3 "5"%char "" eq_refl).
Defined.

(* ===================================================================== *)
(** * Further properties: flags that read the same variable *)
(* ===================================================================== *)

Lemma envKeyForFlag_same (prefix p q : string) :
  upperSnake p = upperSnake q →
  envKeyForFlag prefix p = envKeyForFlag prefix q.
Proof. intros E. by rewrite !envKeyForFlag_unfold, E. Qed.

(** X20. Flag names that differ only in the case of ASCII letters or in
    dash against underscore are not told apart by [ParseEnvSet]: two such
    flags, neither set, have their setters called with the same arguments
    in the same order.  Nor is the place where the prefix ends marked in
    the key: a prefix [a-b] with the flag [c] reads the variable of the
    prefix [a] with the flag [b-c]. *)
Theorem X20_env_key_collisions :
  (∀ (V : Type) (HV : flag.Value V) (ReadEnvPrefix : flag.FlagSet V → string)
     (fl : flag.FlagSet V) (env : list string) (p q : string),
     upperSnake p = upperSnake q →
     p ∈ dom (flag.formal fl) → q ∈ dom (flag.formal fl) →
     p ∉ flag.actual fl → q ∉ flag.actual fl →
     snd <$> filter (λ s : string * string, s.1 = p)
                    (callSite <$> res_calls (ParseEnvSet ReadEnvPrefix fl env))
     = snd <$> filter (λ s : string * string, s.1 = q)
                      (callSite <$> res_calls (ParseEnvSet ReadEnvPrefix fl env)))
  ∧ (∀ prefix middle name : string,
       prefix ≠ "" →
       envKeyForFlag (prefix +:+ "-" +:+ middle) name
       = envKeyForFlag prefix (middle +:+ "-" +:+ name)).
Proof.
  split.
  - intros V HV R fl env p q E Hp Hq Hpa Hqa.
    rewrite ParseEnvSet_sites, !callPlan_filter by done.
    rewrite <- !list_fmap_compose. unfold envValues.
    rewrite (envKeyForFlag_same (R fl) p q E).
    by apply list_fmap_ext_in.
  - intros prefix middle name Hne. rewrite !envKeyForFlag_unfold.
    rewrite !eqb_empty_false by (done || by apply app_nonempty_l).
    unfold upperSnake. rewrite !mapBytes_app.
    change (mapBytes upperSnakeByte "-") with "_".
    by rewrite !app_assoc_s.
Qed.

Lemma X20_env_key_collisions_witness :
  let fl : flag.FlagSet testValue :=
    {| flag.name := "app";
       flag.formal := {[ "a-b" := flagArray []; "A_b" := stringValue "" ]};
       flag.actual := ∅;
       flag.errorHandling := flag.ContinueOnError;
       flag.output := "";
       flag.Usage := None |} in
  snd <$> filter (λ s : string * string, s.1 = "a-b")
            (callSite <$> res_calls (ParseEnvSet defaultReadEnvPrefix fl
                                       ["APP_A_B=x,y"]))
  = snd <$> filter (λ s : string * string, s.1 = "A_b")
              (callSite <$> res_calls (ParseEnvSet defaultReadEnvPrefix fl
                                         ["APP_A_B=x,y"])).
Proof.
  intros fl.
  destruct X20_env_key_collisions as [H _].
  apply (H testValue _ defaultReadEnvPrefix fl ["APP_A_B=x,y"] "a-b" "A_b").
  - reflexivity.
  - apply elem_of_dom. by eexists.
  - apply elem_of_dom. by eexists.
  - apply not_elem_of_empty.
  - apply not_elem_of_empty.
Defined.
